(** * protomaps-leaflet: the Leaflet frontend ([src/frontends/leaflet.ts])

    A shallow embedding of the [LeafletLayer] class: the constructor's
    option defaults, the asynchronous [renderTile] pipeline with its
    staleness gates, the tile life cycle ([createTile], [_removeTile],
    [rerenderTile], [rerenderTiles]) and the pointer projector and pick
    cycle ([_getPointer], [_onLayerClick]).

    Conventions.
    - A JavaScript [number] that holds a tile index or a zoom level is an
      integer ([Z]); every other [number] is a real ([R]): IEEE rounding,
      NaN and the infinities are outside the model.
    - [undefined]/[null] are [None].
    - An [async] function is a program of the monad [Prog]: its
      synchronous operations are [Vis] nodes, its suspension points are
      [Yield] nodes.  The scheduler resumes a suspended program with an
      answer, after the rest of the system has run. *)

From Stdlib Require Import Reals Lra Lia ZArith List DecimalString.
From stdpp Require Import base decidable option list strings.

Set Default Proof Using "Type".
Open Scope Z_scope.

(** ** Numbers *)

(** [Math.floor], as a number. *)
Definition Math_floor (x : R) : R := IZR (Zfloor x).

(** ToInt32: wrap-around of a JavaScript integer to 32 signed bits. *)
Definition ToInt32 (n : Z) : Z := (n + 2^31) mod 2^32 - 2^31.

(** [a << n]: the count is taken modulo 32 and the result wraps to int32. *)
Definition shl (a n : Z) : Z := ToInt32 (Z.shiftl (ToInt32 a) (n mod 32)).

(** [v || dflt] on an optional number: [undefined] and [0] are falsy. *)
Definition number_or (v : option R) (dflt : R) : R :=
  match v with
  | Some r => if Req_dec_T r 0 then dflt else r
  | None => dflt
  end.

(** ** Points (mapbox point-geometry, and Leaflet's [Point]) *)

Module Point.
Record t := mk { x : R; y : R }.

(** [p.mult(k)] *)
Definition mult (p : t) (k : R) : t := mk (x p * k) (y p * k).

(** Leaflet's [Point.distanceTo]: [Math.sqrt(dx * dx + dy * dy)]. *)
Definition distanceTo (p q : t) : R :=
  let dx := (x q - x p)%R in
  let dy := (y q - y p)%R in
  sqrt (dx * dx + dy * dy).
End Point.

(** Tile coordinates: Leaflet's [Coords], a point with a zoom level. *)
Module Coords.
Record t := mk { x : Z; y : Z; z : Z }.

Definition toPoint (c : t) : Point.t := Point.mk (IZR (x c)) (IZR (y c)).

(** [coords.distanceTo(p)] *)
Definition distanceTo (c : t) (p : Point.t) : R :=
  Point.distanceTo (toPoint c) p.
End Coords.

#[global] Instance Coords_eq_dec : EqDecision Coords.t.
Proof. solve_decision. Defined.

(** ** The pointer of a click *)

Module Pointer.
Record t := mk {
  (* Local tile coordinates *)
  x : R;
  y : R;
  (* Tile *)
  tileX : R;
  tileY : R;
  (* Global map coordinates *)
  X : R;
  Y : R
}.
End Pointer.

(** The part of a click event the layer reads: [event.latlng]. *)
Module ClickEvent.
Record t := mk { lat : R; lng : R; id : nat }.
End ClickEvent.

Section GetPointer.
Open Scope R_scope.

Definition EARTH_R : R := 6378137.
Definition MAX_LATITUDE : R := 85.0511287798.
Definition MAXCOORD : R := EARTH_R * PI.

(** [project] of [_getPointer]: spherical web-Mercator. *)
Definition project (lat lng : R) : Point.t :=
  let d := PI / 180 in
  let constrainedLat := Rmax (Rmin MAX_LATITUDE lat) (- MAX_LATITUDE) in
  let sin := sin (constrainedLat * d) in
  Point.mk (EARTH_R * lng * d)
           ((EARTH_R * ln ((1 + sin) / (1 - sin))) / 2).

(** [normalized], before the wrap. *)
Definition normalize (projected : Point.t) : Point.t :=
  Point.mk ((Point.x projected + MAXCOORD) / (MAXCOORD * 2))
           (1 - (Point.y projected + MAXCOORD) / (MAXCOORD * 2)).

(** [if (normalized.x > 1) normalized.x = normalized.x - Math.floor(normalized.x)] *)
Definition wrapX (normalized : Point.t) : Point.t :=
  if Rlt_dec 1 (Point.x normalized)
  then Point.mk (Point.x normalized - Math_floor (Point.x normalized))
                (Point.y normalized)
  else normalized.

(** The normalized point [_getPointer] scales: projected, normalized,
    wrapped. *)
Definition normalized (ev : ClickEvent.t) : Point.t :=
  wrapX (normalize (project (ClickEvent.lat ev) (ClickEvent.lng ev))).

(** [normalized.mult(1 << this._map.getZoom())] *)
Definition onZoom (zoom : Z) (ev : ClickEvent.t) : Point.t :=
  Point.mult (normalized ev) (IZR (shl 1 zoom)).

(** [_getPointer(event)], for a layer of tile size [tileSize] on a map at
    zoom [zoom]. *)
Definition _getPointer (tileSize : R) (zoom : Z) (ev : ClickEvent.t)
  : Pointer.t :=
  let onZoom := onZoom zoom ev in
  let tileX := Math_floor (Point.x onZoom) in
  let tileY := Math_floor (Point.y onZoom) in
  let x := (Point.x onZoom - tileX) * tileSize in
  let y := (Point.y onZoom - tileY) * tileSize in
  let X := tileX * tileSize + x in
  let Y := tileY * tileSize + y in
  Pointer.mk x y tileX tileY X Y.
End GetPointer.

(** ** Data of the collaborators *)

Abbreviation ElemId := nat (only parsing).     (* a canvas element, by reference *)
Abbreviation PromiseId := nat (only parsing).  (* a promise, by reference *)
Abbreviation View := nat (only parsing).       (* a source view of [../view] *)
Abbreviation TaskRef := nat (only parsing).    (* a promise of [options.tasks] *)
Abbreviation LabelData := nat (only parsing).  (* a label index of [../labeler] *)
Abbreviation PaintRule := nat (only parsing).
Abbreviation LabelRule := nat (only parsing).

Module JsError.
Record t := mk { name : string; message : string }.
End JsError.

(** [PreparedTile] of [../view]. *)
Module PreparedTile.
Record t := mk {
  z : Z;
  origin : Point.t;
  data : nat;
  scale : R;
  dim : R;
  dataTile : Coords.t
}.
End PreparedTile.

(** [PickedFeature] of [../tilecache]. *)
Module PickedFeature.
Record t := mk { feature : nat; layerName : string }.
End PickedFeature.

(** How a promise settles. *)
Inductive Settlement :=
| Fulfilled (value : PreparedTile.t)
| Rejected (reason : JsError.t).

(** The objects [renderTile] builds from the settled fetches:
    [{ status: "fulfilled", value, key }] and
    [{ status: "rejected", reason, key }]. *)
Inductive TileResponse :=
| fulfilled (value : PreparedTile.t) (key : string)
| rejected (reason : JsError.t) (key : string).

(** A JavaScript [Map] with string keys: entries in insertion order, [set]
    on a present key replaces the value in place. *)
Module JsMap.
Abbreviation t V := (list (string * V)) (only parsing).

Fixpoint set {V} (k : string) (v : V) (m : t V) : t V :=
  match m with
  | [] => [(k, v)]
  | (k', v') :: m' =>
      if decide (k' = k) then (k, v) :: m' else (k', v') :: set k v m'
  end.

Fixpoint get {V} (k : string) (m : t V) : option V :=
  match m with
  | [] => None
  | (k', v') :: m' => if decide (k' = k) then Some v' else get k m'
  end.

Definition keys {V} (m : t V) : list string := map fst m.

(** [delete obj[k]] on an object used as a map. *)
Definition delete {V} (k : string) (m : t V) : t V :=
  filter (fun kv => fst kv <> k) m.
End JsMap.

Abbreviation PreparedTileMap := (list (string * list PreparedTile.t)) (only parsing).

Module BBox.
Record t := mk { minX : Z; minY : Z; maxX : Z; maxY : Z }.
End BBox.

(** The arguments of [paint] of [../painter], but for the canvas context
    and the picked-feature accumulator, which are passed by reference. *)
Module PaintArgs.
Record t := mk {
  z : Z;
  preparedTilemap : PreparedTileMap;
  labelData : option LabelData;
  paintRules : list PaintRule;
  bbox : BBox.t;
  origin : Point.t;
  clip : bool;
  debug : option string;
  pointer : option Point.t
}.
End PaintArgs.

(** The text lines of the debug overlay (template strings, numbers not yet
    formatted). *)
Inductive DebugText :=
| text_tile (z x y : Z)
| text_bbox (minX minY maxX maxY : R)
| text_pointer (p : Pointer.t)
| text_source (k : string) (dt : Coords.t)
| text_source_pointer (p : Point.t) (dt : Coords.t)
| text_paint (ms : R)
| text_layout (ms : R).

(** Operations on a 2D canvas context. *)
Inductive CanvasOp :=
| setTransform (a b c d e f : R)
| clearRect (x y w h : R)
| ctx_save
| ctx_restore
| fillStyle (s : string)
| strokeStyle (s : string)
| font (s : string)
| lineWidth (w : R)
| fillRect (x y w h : R)
| fillText (t : DebugText) (x : R) (y : Z)
| beginPath
| moveTo (x y : R)
| lineTo (x y : R)
| stroke
| painted (args : PaintArgs.t).

(** [DoneCallback]: the default [() => {}] of [renderTile], or the closure
    [() => { showTile(undefined, element) }] of [createTile]. *)
Inductive DoneCallback :=
| done_default
| done_showTile (showTile : nat) (element : ElemId).

Inductive Logged :=
| log_error (e : JsError.t)
| log_string (s : string).

(** ** The layer and the DOM *)

(** Leaflet's [_tiles] entries. *)
Module Tile.
Record t := mk { el : ElemId; coords : Coords.t; current : bool }.
End Tile.

(** What the layer reads of the host map. *)
Module HostMap.
Record t := mk {
  getZoom : Z;
  (* [_pxBoundsToTileRange(_getTiledPixelBounds(getCenter().wrap())).getCenter()] *)
  tileRangeCenter : Point.t
}.
End HostMap.

(** Methods the layer inherits from [L.GridLayer]. *)
Module GridLayer.
Record t := mk {
  _tileCoordsToKey : Coords.t -> string;
  _keyToTileCoords : string -> Coords.t;
  _wrapCoords : Coords.t -> Coords.t
}.
End GridLayer.

Module Layer.
Record t := mk {
  paintRules : list PaintRule;
  labelRules : list LabelRule;
  backgroundColor : option string;
  lastRequestedZ : option Z;
  tasks : list TaskRef;
  views : JsMap.t View;
  debug : option string;
  tileSize : R;
  tileDelay : R;
  lang : option string;
  xray : bool;
  pointer : option Pointer.t;
  pickedFeatures : option (list PickedFeature.t);
  _map : option HostMap.t;
  _tiles : JsMap.t Tile.t;
  super : GridLayer.t
}.

Definition set_lastRequestedZ (v : option Z) (l : t) : t :=
  mk (paintRules l) (labelRules l) (backgroundColor l) v (tasks l)
     (views l) (debug l) (tileSize l) (tileDelay l) (lang l) (xray l)
     (pointer l) (pickedFeatures l) (_map l) (_tiles l) (super l).

Definition set_pointer (v : option Pointer.t) (l : t) : t :=
  mk (paintRules l) (labelRules l) (backgroundColor l) (lastRequestedZ l)
     (tasks l) (views l) (debug l) (tileSize l) (tileDelay l) (lang l)
     (xray l) v (pickedFeatures l) (_map l) (_tiles l) (super l).

Definition set_pickedFeatures (v : option (list PickedFeature.t)) (l : t)
  : t :=
  mk (paintRules l) (labelRules l) (backgroundColor l) (lastRequestedZ l)
     (tasks l) (views l) (debug l) (tileSize l) (tileDelay l) (lang l)
     (xray l) (pointer l) v (_map l) (_tiles l) (super l).

Definition set_tiles (v : JsMap.t Tile.t) (l : t) : t :=
  mk (paintRules l) (labelRules l) (backgroundColor l) (lastRequestedZ l)
     (tasks l) (views l) (debug l) (tileSize l) (tileDelay l) (lang l)
     (xray l) (pointer l) (pickedFeatures l) (_map l) v (super l).
End Layer.

(** A canvas element: the fields the layer touches, and what was drawn. *)
Module Element.
Record t := mk {
  key : option string;
  removed : bool;
  lang : option string;
  width : R;
  height : R;
  has2d : bool;               (* [getContext("2d")] is not null *)
  attached : bool;            (* in the document: not [L.DomUtil.remove]d *)
  loaded : bool;              (* has class [leaflet-tile-loaded] *)
  drawn : list CanvasOp
}.

Definition set_width (v : R) (e : t) : t :=
  mk (key e) (removed e) (lang e) v (height e) (has2d e) (attached e)
     (loaded e) (drawn e).
Definition set_height (v : R) (e : t) : t :=
  mk (key e) (removed e) (lang e) (width e) v (has2d e) (attached e)
     (loaded e) (drawn e).
Definition draw (op : CanvasOp) (e : t) : t :=
  mk (key e) (removed e) (lang e) (width e) (height e) (has2d e)
     (attached e) (loaded e) (drawn e ++ [op]).
End Element.

(** Events the layer fires on itself. *)
Inductive Fired :=
| fire_click (event : ClickEvent.t) (feature : nat)
| fire_tileunload (tile : ElemId) (coords : Coords.t).

(** The state one layer instance runs in: the layer object, the canvas
    elements it was handed, what has been logged, signalled and fired, and
    the collaborators' answers to synchronous calls. *)
Module World.
Record t := mk {
  this : Layer.t;
  dom : list Element.t;
  console : list Logged;
  shown : list (nat * ElemId);   (* [showTile(undefined, element)] calls *)
  fired : list Fired;
  getDisplayTile : View -> Coords.t -> PromiseId;
  getIndex : Z -> LabelData;
  paint : ElemId -> PaintArgs.t -> R * list PickedFeature.t;
  canvas2d : bool   (* whether a new canvas provides a 2D context *)
}.

Definition set_this (v : Layer.t) (w : t) : t :=
  mk v (dom w) (console w) (shown w) (fired w) (getDisplayTile w)
     (getIndex w) (paint w) (canvas2d w).
Definition set_dom (v : list Element.t) (w : t) : t :=
  mk (this w) v (console w) (shown w) (fired w) (getDisplayTile w)
     (getIndex w) (paint w) (canvas2d w).
Definition set_console (v : list Logged) (w : t) : t :=
  mk (this w) (dom w) v (shown w) (fired w) (getDisplayTile w)
     (getIndex w) (paint w) (canvas2d w).
Definition set_shown (v : list (nat * ElemId)) (w : t) : t :=
  mk (this w) (dom w) (console w) v (fired w) (getDisplayTile w)
     (getIndex w) (paint w) (canvas2d w).
Definition set_fired (v : list Fired) (w : t) : t :=
  mk (this w) (dom w) (console w) (shown w) v (getDisplayTile w)
     (getIndex w) (paint w) (canvas2d w).

(** [element.key] *)
Definition key_of (el : ElemId) (w : t) : option string :=
  match dom w !! el with Some e => Element.key e | None => None end.

(** What has been drawn on [el]. *)
Definition drawn_on (el : ElemId) (w : t) : list CanvasOp :=
  match dom w !! el with Some e => Element.drawn e | None => [] end.

Definition update_element (el : ElemId) (f : Element.t -> Element.t)
    (w : t) : t :=
  set_dom (alter f el (dom w)) w.
End World.

(** ** Asynchronous programs *)

(** Synchronous operations, indexed by the type of their result. *)
Inductive Ev : Type -> Type :=
| This : Ev Layer.t
| SetLastRequestedZ (z : Z) : Ev unit
| GetDisplayTile (v : View) (coords : Coords.t) : Ev PromiseId
| ConsoleError (l : Logged) : Ev unit
| ElementKey (el : ElemId) : Ev (option string)
| LabelersGetIndex (z : Z) : Ev LabelData
| SetWidth (el : ElemId) (v : R) : Ev unit
| SetHeight (el : ElemId) (v : R) : Ev unit
| GetContext (el : ElemId) : Ev bool
| Ctx (el : ElemId) (op : CanvasOp) : Ev unit
| Paint (el : ElemId) (args : PaintArgs.t) : Ev R
| CallDone (done : DoneCallback) : Ev unit.

(** Points at which other code runs before the program goes on: the three
    [await]s of [renderTile], and the call of [labelers.add], which calls
    back into the layer ([onTilesInvalidated]) before it returns. *)
Inductive Susp : Type -> Type :=
| AwaitAllSettled (promises : list PromiseId) : Susp (PromiseId -> Settlement)
| AwaitTasks (tasks : list TaskRef) : Susp unit
| LabelersAdd (z : Z) (tilemap : PreparedTileMap) : Susp R
| Timer (duration : R) : Susp unit.

Inductive Prog (A : Type) : Type :=
| Ret (a : A)
| Vis {X : Type} (e : Ev X) (k : X -> Prog A)
| Yield {X : Type} (s : Susp X) (k : X -> Prog A)
| Throw (msg : string).

Arguments Ret {A} a.
Arguments Vis {A X} e k.
Arguments Yield {A X} s k.
Arguments Throw {A} msg.

Fixpoint bind {A B} (p : Prog A) (f : A -> Prog B) : Prog B :=
  match p with
  | Ret a => f a
  | Vis e k => Vis e (fun x => bind (k x) f)
  | Yield s k => Yield s (fun x => bind (k x) f)
  | Throw msg => Throw msg
  end.

Definition trigger {X} (e : Ev X) : Prog X := Vis e Ret.
Definition await {X} (s : Susp X) : Prog X := Yield s Ret.

#[global] Instance Prog_ret : MRet Prog := @Ret.
#[global] Instance Prog_bind : MBind Prog := fun A B f p => bind p f.

(** [for (const x of xs) acc = body(acc, x)] *)
Fixpoint for_of {A S} (xs : list A) (acc : S) (body : S -> A -> Prog S)
  : Prog S :=
  match xs with
  | [] => Ret acc
  | x :: xs' => acc' ← body acc x; for_of xs' acc' body
  end.

Definition when (c : bool) (p : Prog unit) : Prog unit :=
  if c then p else Ret tt.

#[global] Instance Rle_decision (a b : R) : Decision (a <= b)%R := Rle_dec a b.
#[global] Instance Rlt_decision (a b : R) : Decision (a < b)%R := Rlt_dec a b.

(** Truthiness of an optional string: [undefined] and [""] are falsy. *)
Definition truthy (s : option string) : bool :=
  match s with
  | Some s => bool_decide (s <> "")
  | None => false
  end.

(** ** [renderTile] *)

(** The staleness gate:
    [if (element.key !== key) return;
     if (this.lastRequestedZ !== coords.z) return;] *)
Definition stale (element : ElemId) (key : string) (coords : Coords.t)
  : Prog bool :=
  ekey ← trigger (ElementKey element);
  if bool_decide (ekey <> Some key) then Ret true else
  this ← trigger This;
  Ret (bool_decide (Layer.lastRequestedZ this <> Some (Coords.z coords))).

Definition bbox_of (coords : Coords.t) : BBox.t :=
  BBox.mk (256 * Coords.x coords) (256 * Coords.y coords)
          (256 * (Coords.x coords + 1)) (256 * (Coords.y coords + 1)).

Definition buf : Z := 16.

Definition bboxWithBuffer_of (coords : Coords.t) : BBox.t :=
  BBox.mk (256 * Coords.x coords - buf) (256 * Coords.y coords - buf)
          (256 * (Coords.x coords + 1) + buf)
          (256 * (Coords.y coords + 1) + buf).

Definition origin_of (coords : Coords.t) : Point.t :=
  Point.mk (IZR (256 * Coords.x coords)) (IZR (256 * Coords.y coords)).

(** [pointerInTile]: the pointer's global coordinates against [bbox]. *)
Definition pointerInTile (p : Pointer.t) (bbox : BBox.t) : bool :=
  bool_decide (IZR (BBox.minX bbox) <= Pointer.X p)%R &&
  bool_decide (Pointer.X p <= IZR (BBox.maxX bbox))%R &&
  bool_decide (Pointer.Y p <= IZR (BBox.maxY bbox))%R &&
  bool_decide (IZR (BBox.minY bbox) <= Pointer.Y p)%R.

(** The debug overlay of [renderTile] ([if (this.debug) { ... }]). *)
Definition debugOverlay (coords : Coords.t) (element : ElemId)
    (debug : string) (bbox : BBox.t) (origin : Point.t)
    (pointer : option Pointer.t) (preparedTilemap : PreparedTileMap)
    (paintingTime layoutTime : R) : Prog unit :=
  let ctx := fun op => trigger (Ctx element op) in
  ctx ctx_save;;
  ctx (fillStyle debug);;
  ctx (font "600 12px sans-serif");;
  let ypos := 14 in
  ctx (fillText (text_tile (Coords.z coords) (Coords.x coords)
                           (Coords.y coords)) 4 ypos);;
  let ypos := ypos + 14 in
  ctx (fillText (text_bbox (IZR (BBox.minX bbox)) (IZR (BBox.minY bbox))
                           (IZR (BBox.maxX bbox)) (IZR (BBox.maxY bbox)))
                4 ypos);;
  let ypos := ypos + 14 in
  ypos ← match pointer with
         | Some p => ctx (fillText (text_pointer p) 4 ypos);; Ret (ypos + 14)
         | None => Ret ypos
         end;
  ctx (font "12px sans-serif");;
  ypos ← for_of preparedTilemap ypos (fun ypos kv =>
    let k := kv.1 in
    match kv.2 with
    | [] => Throw "TypeError: v[0] is undefined"
    | v0 :: _ =>
        let dt := PreparedTile.dataTile v0 in
        let d := PreparedTile.dim v0 in
        let o := PreparedTile.origin v0 in
        ctx (fillText (text_source k dt) 4 ypos);;
        let ypos := ypos + 14 in
        ctx (fillText (text_bbox (Point.x o) (Point.y o)
                                 (Point.x o + d) (Point.y o + d)) 4 ypos);;
        let ypos := ypos + 14 in
        match pointer with
        | Some p =>
            let preparedTilePointer :=
              Point.mk (Point.x origin + Pointer.x p - Point.x o)
                       (Point.y origin + Pointer.y p - Point.y o) in
            ctx (fillText (text_source_pointer preparedTilePointer dt)
                          4 ypos);;
            Ret (ypos + 14)
        | None => Ret ypos
        end
    end);
  ctx (font "600 10px sans-serif");;
  ypos ← (if bool_decide (8 < paintingTime)%R
          then ctx (fillText (text_paint paintingTime) 4 ypos);;
               Ret (ypos + 14)
          else Ret ypos);
  ypos ← (if bool_decide (8 < layoutTime)%R
          then ctx (fillText (text_layout layoutTime) 4 ypos);;
               Ret (ypos + 14)
          else Ret ypos);
  ctx (strokeStyle debug);;
  ctx (lineWidth 0.5);;
  ctx beginPath;;
  ctx (moveTo 0 0);;
  ctx (lineTo 0 256);;
  ctx stroke;;
  ctx (lineWidth 0.5);;
  ctx beginPath;;
  ctx (moveTo 0 0);;
  ctx (lineTo 256 0);;
  ctx stroke;;
  ctx ctx_restore.

(** The last stage of [renderTile], from [const bbox = ...] to [done()]. *)
Definition paintTile (coords : Coords.t) (element : ElemId)
    (done : DoneCallback) (preparedTilemap : PreparedTileMap)
    (layoutTime : R) (labelData : LabelData) : Prog unit :=
  let bbox := bbox_of coords in
  let bboxWithBuffer := bboxWithBuffer_of coords in
  let origin := origin_of coords in
  this ← trigger This;
  trigger (SetWidth element (Layer.tileSize this));;
  trigger (SetHeight element (Layer.tileSize this));;
  ctx ← trigger (GetContext element);
  if negb ctx
  then trigger (ConsoleError (log_string "Failed to get Canvas context"))
  else
  let ctx := fun op => trigger (Ctx element op) in
  ctx (setTransform (Layer.tileSize this / 256) 0 0
                    (Layer.tileSize this / 256) 0 0);;
  ctx (clearRect 0 0 256 256);;
  when (truthy (Layer.backgroundColor this)) (
    ctx ctx_save;;
    ctx (fillStyle (default "" (Layer.backgroundColor this)));;
    ctx (fillRect 0 0 256 256);;
    ctx ctx_restore);;
  let paintRules := Layer.paintRules this in
  (* We only check for pointer on the right tile *)
  let inTile :=
    match Layer.pointer this with
    | Some p => if pointerInTile p bbox then Some p else None
    | None => None
    end in
  let pointer := (fun p => Point.mk (Pointer.x p) (Pointer.y p)) <$> inTile in
  paintingTime ← trigger (Paint element
    (PaintArgs.mk (Coords.z coords) preparedTilemap
       (if Layer.xray this then None else Some labelData)
       paintRules bboxWithBuffer origin false (Layer.debug this) pointer));
  when (truthy (Layer.debug this)) (
    debugOverlay coords element (default "" (Layer.debug this)) bbox origin
                 inTile preparedTilemap paintingTime layoutTime);;
  trigger (CallDone done).

(** [const priority = coords.distanceTo(tileCenter) * this.tileDelay] *)
Definition priority (coords : Coords.t) (tileCenter : Point.t)
    (tileDelay : R) : R :=
  (Coords.distanceTo coords tileCenter * tileDelay)%R.

(** The body of [for (const [k, v] of this.views)]: the fetch is started
    and its promise kept with the source's name. *)
Definition request (coords : Coords.t) (promises : list (string * PromiseId))
    (kv : string * View) : Prog (list (string * PromiseId)) :=
  promise ← trigger (GetDisplayTile kv.2 coords);
  Ret (promises ++ [(kv.1, promise)]).

(** [o.promise.then(v => ({ status: "fulfilled", value: v, key: o.key }),
                   error => ({ status: "rejected", reason: error, key: o.key }))] *)
Definition reflect_tile (settled : PromiseId -> Settlement)
    (o : string * PromiseId) : TileResponse :=
  match settled o.2 with
  | Fulfilled v => fulfilled v o.1
  | Rejected error => rejected error o.1
  end.

(** The body of [for (const tileResponse of tileResponses)]. *)
Definition collect (preparedTilemap : PreparedTileMap) (r : TileResponse)
  : Prog PreparedTileMap :=
  match r with
  | fulfilled value k => Ret (JsMap.set k [value] preparedTilemap)
  | rejected reason _ =>
      if decide (JsError.name reason = "AbortError")
      then (* do nothing *) Ret preparedTilemap
      else trigger (ConsoleError (log_error reason));; Ret preparedTilemap
  end.

(** [renderTile] is written in the order it runs backwards: each
    definition is the function from one suspension point on. *)

(** ... resumed after [await timer(priority)]. *)
Definition renderTile_afterTimer (coords : Coords.t) (element : ElemId)
    (key : string) (done : DoneCallback) (preparedTilemap : PreparedTileMap)
    (layoutTime : R) (labelData : LabelData) : Prog unit :=
  s ← stale element key coords; if s : bool then Ret tt else
  paintTile coords element done preparedTilemap layoutTime labelData.

(** ... resumed with the result of [this.labelers.add(coords.z, preparedTilemap)]. *)
Definition renderTile_afterAdd (coords : Coords.t) (element : ElemId)
    (key : string) (done : DoneCallback) (preparedTilemap : PreparedTileMap)
    (layoutTime : R) : Prog unit :=
  s ← stale element key coords; if s : bool then Ret tt else
  labelData ← trigger (LabelersGetIndex (Coords.z coords));
  this ← trigger This;
  match Layer._map this with
  | None => Ret tt (* the layer has been removed from the map *)
  | Some _map =>
      let tileCenter := HostMap.tileRangeCenter _map in
      let priority := priority coords tileCenter (Layer.tileDelay this) in
      await (Timer priority);;
      renderTile_afterTimer coords element key done preparedTilemap
        layoutTime labelData
  end.

(** ... resumed after [await Promise.all(this.tasks.map(reflect))]. *)
Definition renderTile_afterTasks (coords : Coords.t) (element : ElemId)
    (key : string) (done : DoneCallback) (preparedTilemap : PreparedTileMap)
  : Prog unit :=
  s ← stale element key coords; if s : bool then Ret tt else
  layoutTime ← await (LabelersAdd (Coords.z coords) preparedTilemap);
  renderTile_afterAdd coords element key done preparedTilemap layoutTime.

(** ... resumed with the settled fetches ([const tileResponses = await ...]). *)
Definition renderTile_afterFetch (coords : Coords.t) (element : ElemId)
    (key : string) (done : DoneCallback)
    (promises : list (string * PromiseId))
    (settled : PromiseId -> Settlement) : Prog unit :=
  let tileResponses := map (reflect_tile settled) promises in
  preparedTilemap ← for_of tileResponses [] collect;
  s ← stale element key coords; if s : bool then Ret tt else
  this ← trigger This;
  await (AwaitTasks (Layer.tasks this));;
  renderTile_afterTasks coords element key done preparedTilemap.

(** [renderTile(coords, element, key, done)] *)
Definition renderTile (coords : Coords.t) (element : ElemId) (key : string)
    (done : DoneCallback) : Prog unit :=
  trigger (SetLastRequestedZ (Coords.z coords));;
  this ← trigger This;
  promises ← for_of (Layer.views this) [] (request coords);
  settled ← await (AwaitAllSettled (promises.*2));
  renderTile_afterFetch coords element key done promises settled.

(** ** Running a program *)

(** The suspension points, without their result type. *)
Inductive SuspPoint :=
| at_fetch (promises : list PromiseId)
| at_tasks (tasks : list TaskRef)
| at_add (z : Z) (tilemap : PreparedTileMap)
| at_timer (duration : R).

Definition point_of {X} (s : Susp X) : SuspPoint :=
  match s with
  | AwaitAllSettled ps => at_fetch ps
  | AwaitTasks ts => at_tasks ts
  | LabelersAdd z tm => at_add z tm
  | Timer d => at_timer d
  end.

(** What one invocation does, in order: its effects on the layer, the
    collaborators, the console and the canvas, its suspensions, and the
    state it finds when it is resumed. *)
Inductive Obs :=
| obs_setZ (z : Z)
| obs_fetch (v : View) (coords : Coords.t)
| obs_log (l : Logged)
| obs_getIndex (z : Z)
| obs_width (el : ElemId) (v : R)
| obs_height (el : ElemId) (v : R)
| obs_getContext (el : ElemId)
| obs_ctx (el : ElemId) (op : CanvasOp)
| obs_paint (el : ElemId) (args : PaintArgs.t)
| obs_done (done : DoneCallback)
| obs_suspend (s : SuspPoint) (w : World.t)
| obs_resume (s : SuspPoint) (w : World.t).

(** The effect of a synchronous operation on the world, and its result. *)
Definition handle {X} (e : Ev X) (w : World.t) : World.t * list Obs * X :=
  match e in Ev X return World.t * list Obs * X with
  | This => (w, [], World.this w)
  | SetLastRequestedZ z =>
      (World.set_this (Layer.set_lastRequestedZ (Some z) (World.this w)) w,
       [obs_setZ z], tt)
  | GetDisplayTile v coords =>
      (w, [obs_fetch v coords], World.getDisplayTile w v coords)
  | ConsoleError l =>
      (World.set_console (World.console w ++ [l]) w, [obs_log l], tt)
  | ElementKey el => (w, [], World.key_of el w)
  | LabelersGetIndex z => (w, [obs_getIndex z], World.getIndex w z)
  | SetWidth el v =>
      (World.update_element el (Element.set_width v) w, [obs_width el v], tt)
  | SetHeight el v =>
      (World.update_element el (Element.set_height v) w,
       [obs_height el v], tt)
  | GetContext el =>
      (w, [obs_getContext el],
       match World.dom w !! el with
       | Some e => Element.has2d e
       | None => false
       end)
  | Ctx el op =>
      (World.update_element el (Element.draw op) w, [obs_ctx el op], tt)
  | Paint el args =>
      let '(ms, picked) := World.paint w el args in
      let w := World.update_element el (Element.draw (painted args)) w in
      let this := World.this w in
      (World.set_this
         (Layer.set_pickedFeatures
            ((fun acc => acc ++ picked) <$> Layer.pickedFeatures this) this)
         w,
       [obs_paint el args], ms)
  | CallDone done =>
      (match done with
       | done_default => w
       | done_showTile showTile element =>
           World.set_shown (World.shown w ++ [(showTile, element)]) w
       end,
       [obs_done done], tt)
  end.

Inductive Outcome (A : Type) : Type :=
| Returned (a : A)
| Thrown (msg : string)
| Suspended {X : Type} (s : Susp X) (k : X -> Prog A).

Arguments Returned {A} a.
Arguments Thrown {A} msg.
Arguments Suspended {A X} s k.

(** A program runs synchronously until it returns, throws or suspends. *)
Fixpoint run {A} (p : Prog A) (w : World.t)
  : World.t * list Obs * Outcome A :=
  match p with
  | Ret a => (w, [], Returned a)
  | Throw msg => (w, [], Thrown msg)
  | Yield s k => (w, [obs_suspend (point_of s) w], Suspended s k)
  | Vis e k =>
      let '(w1, obs1, x) := handle e w in
      let '(w2, obs2, out) := run (k x) w1 in
      (w2, obs1 ++ obs2, out)
  end.

(** What happens while an invocation is suspended: the rest of the system
    changes the world ([meanwhile]), and the suspension gets its answer. *)
Module Answers.
Record t := mk {
  settled : PromiseId -> Settlement;   (* how each fetch settled *)
  layoutTime : R;                      (* what [labelers.add] returns *)
  invalidated : list string            (* the tiles it invalidates *)
}.
End Answers.

Module Resumption.
Record t := mk {
  answers : Answers.t;
  meanwhile : World.t -> World.t
}.
End Resumption.

Definition answer {X} (s : Susp X) (a : Answers.t) : X :=
  match s in Susp X return X with
  | AwaitAllSettled _ => Answers.settled a
  | AwaitTasks _ => tt
  | LabelersAdd _ _ => Answers.layoutTime a
  | Timer _ => tt
  end.

(** One invocation, resumed as [sched] tells. *)
Fixpoint exec {A} (sched : list Resumption.t) (p : Prog A) (w : World.t)
  : World.t * list Obs * Outcome A :=
  let '(w1, obs1, out) := run p w in
  match out, sched with
  | Suspended s k, r :: sched' =>
      let w2 := Resumption.meanwhile r w1 in
      let '(w3, obs3, out3) := exec sched' (k (answer s (Resumption.answers r))) w2 in
      (w3, obs1 ++ obs_resume (point_of s) w2 :: obs3, out3)
  | _, _ => (w1, obs1, out)
  end.

(** The classes of effects the staleness claims speak of. *)
Definition mutates_canvas (el : ElemId) (o : Obs) : Prop :=
  match o with
  | obs_width el' _ | obs_height el' _ | obs_ctx el' _ | obs_paint el' _ =>
      el' = el
  | _ => False
  end.

Definition is_done (o : Obs) : Prop :=
  match o with obs_done _ => True | _ => False end.

(** Label retrieval, the delay, the paint and the debug overlay. *)
Definition later_stage (o : Obs) : Prop :=
  match o with
  | obs_getIndex _ | obs_suspend (at_timer _) _ | obs_paint _ _
  | obs_ctx _ _ | obs_width _ _ | obs_height _ _ | obs_getContext _ => True
  | _ => False
  end.

Definition is_log (o : Obs) : Prop :=
  match o with obs_log _ => True | _ => False end.

Definition is_resume (o : Obs) : Prop :=
  match o with obs_resume _ _ => True | _ => False end.

(** The staleness condition of the gates, on a state of the world. *)
Definition stale_in (w : World.t) (element : ElemId) (key : string)
    (coords : Coords.t) : Prop :=
  World.key_of element w <> Some key \/
  Layer.lastRequestedZ (World.this w) <> Some (Coords.z coords).

(** ** The layer among its invocations *)

(** A suspended invocation of [renderTile]: its arguments, when it
    suspended, and how it goes on. *)
Module Invocation.
Record t := mk {
  coords : Coords.t;
  element : ElemId;
  key : string;
  done : DoneCallback;
  since : R;
  X : Type;
  on : Susp X;
  resume : X -> Prog unit
}.
End Invocation.

(** A pending [setTimeout] of [_onLayerClick]. *)
Module Timeout.
Record t := mk { due : R; event : ClickEvent.t }.
End Timeout.

Module Sys.
Record t := mk {
  world : World.t;
  pending : list Invocation.t;
  timeouts : list Timeout.t;
  now : R
}.

Definition set_world (v : World.t) (s : t) : t :=
  mk v (pending s) (timeouts s) (now s).
Definition set_pending (v : list Invocation.t) (s : t) : t :=
  mk (world s) v (timeouts s) (now s).
Definition set_timeouts (v : list Timeout.t) (s : t) : t :=
  mk (world s) (pending s) v (now s).
Definition set_now (v : R) (s : t) : t :=
  mk (world s) (pending s) (timeouts s) v.

Definition on_world (f : World.t -> World.t) (s : t) : t :=
  set_world (f (world s)) s.
Definition this (s : t) : Layer.t := World.this (world s).
End Sys.

(** An invocation that has run as far as it synchronously can: if it
    suspended it joins the pending ones, otherwise it is over. *)
Definition settle (coords : Coords.t) (element : ElemId) (key : string)
    (done : DoneCallback) (out : Outcome unit) (s : Sys.t) : Sys.t :=
  match out with
  | Suspended on k =>
      Sys.set_pending
        (Sys.pending s ++
         [Invocation.mk coords element key done (Sys.now s) _ on k]) s
  | Returned _ | Thrown _ => s
  end.

(** A call [this.renderTile(coords, element, key, done)] that is not
    awaited: the body runs to its first suspension, the rest is left to the
    scheduler.  ([renderTile] reaches [await] before [labelers.add], so no
    callback runs here.) *)
Definition call_renderTile (coords : Coords.t) (element : ElemId)
    (key : string) (done : DoneCallback) (s : Sys.t) : Sys.t :=
  let '(w, _, out) := run (renderTile coords element key done) (Sys.world s) in
  settle coords element key done out (Sys.set_world w s).

(** [rerenderTile(key)] *)
Definition rerenderTile (key : string) (s : Sys.t) : Sys.t :=
  let super := Layer.super (Sys.this s) in
  foldl (fun s kv =>
    let unwrappedK := kv.1 in
    let wrappedCoord :=
      GridLayer._wrapCoords super
        (GridLayer._keyToTileCoords super unwrappedK) in
    if decide (key = GridLayer._tileCoordsToKey super wrappedCoord)
    then call_renderTile wrappedCoord (Tile.el kv.2) key done_default s
    else s) s (Layer._tiles (Sys.this s)).

(** [rerenderTiles()] *)
Definition rerenderTiles (s : Sys.t) : Sys.t :=
  let super := Layer.super (Sys.this s) in
  foldl (fun s kv =>
    let unwrappedK := kv.1 in
    let wrappedCoord :=
      GridLayer._wrapCoords super
        (GridLayer._keyToTileCoords super unwrappedK) in
    let key := GridLayer._tileCoordsToKey super wrappedCoord in
    call_renderTile wrappedCoord (Tile.el kv.2) key done_default s)
    s (Layer._tiles (Sys.this s)).

(** [this.onTilesInvalidated], the callback given to [Labelers]. *)
Definition onTilesInvalidated (tiles : list string) (s : Sys.t) : Sys.t :=
  foldl (fun s t => rerenderTile t s) s tiles.

(** [L.DomUtil.create("canvas", "leaflet-tile")]: a new element, at the
    next free reference. *)
Definition create_canvas (w : World.t) : ElemId * World.t :=
  (length (World.dom w),
   World.set_dom
     (World.dom w ++
      [Element.mk None false None 300 150 (World.canvas2d w) false false []])
     w).

(** [createTile(coords, showTile)] *)
Definition createTile (coords : Coords.t) (showTile : nat) (s : Sys.t)
  : ElemId * Sys.t :=
  let '(element, w) := create_canvas (Sys.world s) in
  let this := World.this w in
  let w := World.update_element element
             (fun e => Element.mk (Element.key e) (Element.removed e)
                         (Layer.lang this) (Element.width e)
                         (Element.height e) (Element.has2d e)
                         (Element.attached e) (Element.loaded e)
                         (Element.drawn e)) w in
  let key := GridLayer._tileCoordsToKey (Layer.super this) coords in
  let w := World.update_element element
             (fun e => Element.mk (Some key) (Element.removed e)
                         (Element.lang e) (Element.width e)
                         (Element.height e) (Element.has2d e)
                         (Element.attached e) (Element.loaded e)
                         (Element.drawn e)) w in
  (element,
   call_renderTile coords element key (done_showTile showTile element)
     (Sys.set_world w s)).

(** [_removeTile(key)] *)
Definition _removeTile (key : string) (w : World.t) : World.t :=
  let this := World.this w in
  match JsMap.get key (Layer._tiles this) with
  | None => w
  | Some tile =>
      let w := World.update_element (Tile.el tile)
                 (fun e => Element.mk None true (Element.lang e) 0 0
                             (Element.has2d e) false false (Element.drawn e))
                 w in
      let w := World.set_this
                 (Layer.set_tiles (JsMap.delete key (Layer._tiles this)) this)
                 w in
      World.set_fired
        (World.fired w ++
         [fire_tileunload (Tile.el tile)
            (GridLayer._keyToTileCoords (Layer.super this) key)]) w
  end.

(** The host tracks an element: [this._tiles[key] = { el, coords, current }]. *)
Definition track (key : string) (tile : Tile.t) (s : Sys.t) : Sys.t :=
  Sys.on_world (fun w =>
    World.set_this
      (Layer.set_tiles (JsMap.set key tile (Layer._tiles (World.this w)))
         (World.this w)) w) s.

(** Leaflet's [GridLayer._addTile], as far as the layer is concerned:
    [createTile] on the wrapped coordinates, and the element is tracked
    under the key of the unwrapped ones. *)
Definition _addTile (coords : Coords.t) (showTile : nat) (s : Sys.t)
  : Sys.t :=
  let super := Layer.super (Sys.this s) in
  let key := GridLayer._tileCoordsToKey super coords in
  let '(tile, s) :=
    createTile (GridLayer._wrapCoords super coords) showTile s in
  track key (Tile.mk tile coords true) s.

(** Leaflet's [GridLayer.redraw]: every tile is removed, and the tiles in
    view ([visible], by the host) are added anew. *)
Definition redraw (visible : list (Coords.t * nat)) (s : Sys.t) : Sys.t :=
  match Layer._map (Sys.this s) with
  | None => s
  | Some _ =>
      let s := Sys.on_world (fun w =>
        foldl (fun w k => _removeTile k w) w
              (JsMap.keys (Layer._tiles (World.this w)))) s in
      foldl (fun s cv => _addTile cv.1 cv.2 s) s visible
  end.

Definition PICK_WINDOW : R := 1000.

(** [_onLayerClick(event)] *)
Definition _onLayerClick (event : ClickEvent.t)
    (visible : list (Coords.t * nat)) (s : Sys.t) : Sys.t :=
  match Layer._map (Sys.this s) with
  | None => s   (* [this._map.getZoom()] throws *)
  | Some _map =>
      let s := Sys.on_world (fun w =>
        let this := World.this w in
        let this := Layer.set_pointer
          (Some (_getPointer (Layer.tileSize this) (HostMap.getZoom _map)
                   event)) this in
        let this := Layer.set_pickedFeatures (Some []) this in
        World.set_this this w) s in
      (* FIXME: we need to redraw to get picked features now *)
      let s := redraw visible s in
      (* Check for intersected features *)
      Sys.set_timeouts
        (Sys.timeouts s ++ [Timeout.mk (Sys.now s + PICK_WINDOW) event]) s
  end.

(** The callback [_onLayerClick] hands to [setTimeout]. *)
Definition pickTimeout (event : ClickEvent.t) (w : World.t) : World.t :=
  match Layer.pickedFeatures (World.this w) with
  | None => w   (* [this.pickedFeatures.length] throws *)
  | Some pickedFeatures =>
      let w :=
        match pickedFeatures with
        | picked :: _ =>
            World.set_fired
              (World.fired w ++
               [fire_click event (PickedFeature.feature picked)]) w
        | [] => w
        end in
      (* Avoid checking again on next draw *)
      World.set_this (Layer.set_pointer None (World.this w)) w
  end.

(** A suspended invocation goes on with [q]: it runs to its next
    suspension.  At [labelers.add] the callback runs and the invocation
    goes on at once, with the layout time. *)
Definition advance (coords : Coords.t) (element : ElemId) (key : string)
    (done : DoneCallback) (a : Answers.t) (q : Prog unit) (s : Sys.t)
  : Sys.t :=
  let '(w1, _, out) := run q (Sys.world s) in
  let s := Sys.set_world w1 s in
  match out with
  | Suspended on k =>
      match on in Susp X return (X -> Prog unit) -> Sys.t with
      | LabelersAdd z tilemap => fun k =>
          let s := onTilesInvalidated (Answers.invalidated a) s in
          let '(w2, _, out2) := run (k (Answers.layoutTime a)) (Sys.world s) in
          settle coords element key done out2 (Sys.set_world w2 s)
      | on' => fun k => settle coords element key done (Suspended on' k) s
      end k
  | Returned _ | Thrown _ => s
  end.

(** Whether a suspended invocation may be resumed now. *)
Definition ready (inv : Invocation.t) (now : R) : bool :=
  match Invocation.on inv with
  | Timer duration => bool_decide (Invocation.since inv + duration <= now)%R
  | _ => true
  end.

(** What happens to a layer: calls by the host, the passing of time, and
    the scheduler resuming an invocation or running a timeout. *)
Inductive Action :=
| host_addTile (coords : Coords.t) (showTile : nat)
| host_removeTile (key : string)
| host_setMap (_map : option HostMap.t)
| call_rerenderTile (key : string)
| call_rerenderTiles
| click (event : ClickEvent.t) (visible : list (Coords.t * nat))
| timeout_fires (i : nat)
| resumes (i : nat) (a : Answers.t)
| elapses (dt : R).

Definition set_map (m : option HostMap.t) (l : Layer.t) : Layer.t :=
  Layer.mk (Layer.paintRules l) (Layer.labelRules l)
    (Layer.backgroundColor l) (Layer.lastRequestedZ l) (Layer.tasks l)
    (Layer.views l) (Layer.debug l) (Layer.tileSize l) (Layer.tileDelay l)
    (Layer.lang l) (Layer.xray l) (Layer.pointer l)
    (Layer.pickedFeatures l) m (Layer._tiles l) (Layer.super l).

Definition step (a : Action) (s : Sys.t) : Sys.t :=
  match a with
  | host_addTile coords showTile => _addTile coords showTile s
  | host_removeTile key => Sys.on_world (_removeTile key) s
  | host_setMap m =>
      Sys.on_world (fun w => World.set_this (set_map m (World.this w)) w) s
  | call_rerenderTile key => rerenderTile key s
  | call_rerenderTiles => rerenderTiles s
  | click event visible => _onLayerClick event visible s
  | timeout_fires i =>
      match Sys.timeouts s !! i with
      | Some t =>
          if bool_decide (Timeout.due t <= Sys.now s)%R
          then Sys.on_world (pickTimeout (Timeout.event t))
                 (Sys.set_timeouts (delete i (Sys.timeouts s)) s)
          else s
      | None => s
      end
  | resumes i a =>
      match Sys.pending s !! i with
      | Some inv =>
          if ready inv (Sys.now s)
          then advance (Invocation.coords inv) (Invocation.element inv)
                 (Invocation.key inv) (Invocation.done inv) a
                 (Invocation.resume inv (answer (Invocation.on inv) a))
                 (Sys.set_pending (delete i (Sys.pending s)) s)
          else s
      | None => s
      end
  | elapses dt =>
      if bool_decide (0 <= dt)%R then Sys.set_now (Sys.now s + dt) s else s
  end.

Definition steps (acts : list Action) (s : Sys.t) : Sys.t :=
  foldl (fun s a => step a s) s acts.

(** ** The constructor *)

Module Options.
Record t := mk {
  bounds : option (list (list R));
  attribution : option string;
  debug : option string;
  lang : option string;
  tileDelay : option R;
  noWrap : bool;
  paintRules : option (list PaintRule);
  labelRules : option (list LabelRule);
  tasks : option (list TaskRef);
  sources : nat;               (* [url], [sources], [maxDataZoom] *)
  theme : option string;
  backgroundColor : option string
}.
End Options.

(** What the constructor takes from its surroundings: the window, the
    default style, [sourcesToViews] and the base class. *)
Module Env.
Record t := mk {
  devicePixelRatio : R;
  theme_paintRules : string -> list PaintRule;
  theme_labelRules : string -> list LabelRule;
  theme_background : string -> string;
  sourcesToViews : Options.t -> JsMap.t View;
  super : GridLayer.t
}.
End Env.

(** [new LeafletLayer(options)] *)
Definition LeafletLayer (env : Env.t) (options : Options.t) : Layer.t :=
  let '(paintRules, labelRules, backgroundColor) :=
    match Options.theme options with
    | Some theme =>
        if bool_decide (theme <> "")
        then (Env.theme_paintRules env theme,
              Env.theme_labelRules env theme,
              Some (Env.theme_background env theme))
        else (default [] (Options.paintRules options),
              default [] (Options.labelRules options),
              Options.backgroundColor options)
    | None => (default [] (Options.paintRules options),
               default [] (Options.labelRules options),
               Options.backgroundColor options)
    end in
  Layer.mk paintRules labelRules backgroundColor
    None                                      (* lastRequestedZ *)
    (default [] (Options.tasks options))      (* tasks *)
    (Env.sourcesToViews env options)          (* views *)
    (Options.debug options)
    (256 * Env.devicePixelRatio env)          (* tileSize *)
    (number_or (Options.tileDelay options) 3) (* tileDelay *)
    (Options.lang options)
    false None None None [] (Env.super env).

(** A layer fresh from its constructor, with nothing tracked, pending or
    logged. *)
Definition start (env : Env.t) (options : Options.t)
    (getDisplayTile : View -> Coords.t -> PromiseId)
    (getIndex : Z -> LabelData)
    (paint : ElemId -> PaintArgs.t -> R * list PickedFeature.t)
    (canvas2d : bool) : Sys.t :=
  Sys.mk
    (World.mk (LeafletLayer env options) [] [] [] [] getDisplayTile getIndex
       paint canvas2d)
    [] [] 0.

(** ** Predicates on programs and traces *)

(** A program without suspension points. *)
Fixpoint sync {A} (p : Prog A) : Prop :=
  match p with
  | Ret _ | Throw _ => True
  | Vis _ k => forall x, sync (k x)
  | Yield _ _ => False
  end.

(** Every way a program can go on after a suspension satisfies [P]. *)
Fixpoint gated {A} (P : Prog A -> Prop) (p : Prog A) : Prop :=
  match p with
  | Ret _ | Throw _ => True
  | Vis _ k => forall x, gated P (k x)
  | Yield _ k => forall x, P (k x) /\ gated P (k x)
  end.

(** The operations that touch a canvas element or signal its readiness. *)
Definition ev_confined (el : ElemId) {X} (e : Ev X) : Prop :=
  match e with
  | SetWidth el' _ | SetHeight el' _ | Ctx el' _ | Paint el' _ => el' = el
  | CallDone (done_showTile _ el') => el' = el
  | _ => True
  end.

(** A program that touches no other element than [el]. *)
Fixpoint confined (el : ElemId) {A} (p : Prog A) : Prop :=
  match p with
  | Ret _ | Throw _ => True
  | Vis e k => ev_confined el e /\ forall x, confined el (k x)
  | Yield _ k => forall x, confined el (k x)
  end.

(** [console.error] of each of [logs], in order. *)
Definition add_logs (logs : list Logged) (w : World.t) : World.t :=
  foldl (fun w l => World.set_console (World.console w ++ [l]) w) w logs.

(** A program that, run in a state that is stale for [element], [key] and
    [coords], returns at once, having at most logged. *)
Definition aborts_when_stale (element : ElemId) (key : string)
    (coords : Coords.t) (q : Prog unit) : Prop :=
  forall w, stale_in w element key coords ->
    exists logs, run q w = (add_logs logs w, map obs_log logs, Returned tt).

(** The errors an invocation logged. *)
Definition errors_logged (obs : list Obs) : list JsError.t :=
  omap (fun o => match o with
                 | obs_log (log_error e) => Some e
                 | _ => None
                 end) obs.

(** ** The prepared tile map, in the words of the specification *)

(** One entry per source whose fetch fulfilled, bound to the one-element
    sequence of its result; none for a source whose fetch rejected. *)
Definition fulfilled_sources (views : JsMap.t View)
    (fetch : View -> PromiseId) (settled : PromiseId -> Settlement)
  : PreparedTileMap :=
  omap (fun kv => match settled (fetch kv.2) with
                  | Fulfilled v => Some (kv.1, [v])
                  | Rejected _ => None
                  end) views.

(** The rejections that are logged: all but those named ["AbortError"]. *)
Definition logged_rejections (views : JsMap.t View)
    (fetch : View -> PromiseId) (settled : PromiseId -> Settlement)
  : list JsError.t :=
  omap (fun kv => match settled (fetch kv.2) with
                  | Fulfilled _ => None
                  | Rejected e =>
                      if decide (JsError.name e = "AbortError")
                      then None else Some e
                  end) views.

(** The staleness condition, as the gate computes it. *)
Definition stale_inb (w : World.t) (element : ElemId) (key : string)
    (coords : Coords.t) : bool :=
  bool_decide (World.key_of element w <> Some key) ||
  bool_decide (Layer.lastRequestedZ (World.this w) <> Some (Coords.z coords)).

(** What the loop over the tile responses logs, and the map it builds. *)
Definition logged_of (rs : list TileResponse) : list Logged :=
  omap (fun r => match r with
                 | fulfilled _ _ => None
                 | rejected reason _ =>
                     if decide (JsError.name reason = "AbortError")
                     then None else Some (log_error reason)
                 end) rs.

Definition tilemap_of (tm : PreparedTileMap) (rs : list TileResponse)
  : PreparedTileMap :=
  foldl (fun tm r => match r with
                     | fulfilled value k => JsMap.set k [value] tm
                     | rejected _ _ => tm
                     end) tm rs.

(** A program that does nothing but draw on [el]. *)
Fixpoint draws_only (el : ElemId) {A} (p : Prog A) : Prop :=
  match p with
  | Ret _ | Throw _ => True
  | Vis e k =>
      match e with Ctx el' _ => el' = el | _ => False end /\
      forall x, draws_only el (k x)
  | Yield _ _ => False
  end.

(** A program that cannot throw. *)
Fixpoint no_throw {A} (p : Prog A) : Prop :=
  match p with
  | Ret _ => True
  | Throw _ => False
  | Vis _ k => forall x, no_throw (k x)
  | Yield _ k => forall x, no_throw (k x)
  end.

(** Whether [element.getContext("2d")] gives a context. *)
Definition has2d_of (el : ElemId) (w : World.t) : bool :=
  match World.dom w !! el with
  | Some e => Element.has2d e
  | None => false
  end.

(** ** The shape of an execution of [renderTile] *)

Definition is_suspended {A} (out : Outcome A) : Prop :=
  match out with Suspended _ _ => True | _ => False end.

(** What an invocation does before the paint stage: it sets the zoom,
    starts the fetches, logs, reads the label index, suspends and is
    resumed.  The tile map it hands to [labelers.add] satisfies [TM]; the
    delay it waits for is [priority], of the state it suspends in. *)
Definition early_ok (coords : Coords.t) (TM : PreparedTileMap -> Prop)
    (o : Obs) : Prop :=
  match o with
  | obs_setZ _ | obs_fetch _ _ | obs_log (log_error _) | obs_getIndex _
  | obs_resume _ _ => True
  | obs_suspend (at_timer d) w0 =>
      exists _map, Layer._map (World.this w0) = Some _map /\
        d = priority coords (HostMap.tileRangeCenter _map)
              (Layer.tileDelay (World.this w0))
  | obs_suspend (at_add z tm) _ => z = Coords.z coords /\ TM tm
  | obs_suspend _ _ => True
  | _ => False
  end.

(** An execution is a run-up ([early]) that either is all there is, for one
    of the reasons listed, or is followed by the paint stage, run in the
    state [wp] the invocation was resumed in after its delay. *)
Definition Shape (coords : Coords.t) (element : ElemId) (key : string)
    (done : DoneCallback) (TM : PreparedTileMap -> Prop)
    (LOGS : list JsError.t) (start_stale start_nomap direct : Prop)
    (w_start w' : World.t) (obs : list Obs) (out : Outcome unit) : Prop :=
  exists early,
    Forall (early_ok coords TM) early /\
    errors_logged early = LOGS /\
    ((obs = early /\
      (is_suspended out \/ start_stale \/ start_nomap \/
       (exists s wr, In (obs_resume s wr) early /\
                     stale_in wr element key coords) \/
       (exists z tm wr, In (obs_resume (at_add z tm) wr) early /\
                        Layer._map (World.this wr) = None)) /\
      (is_suspended out \/ out = Returned tt))
     \/
     (exists wp tm lt ld obsP,
        obs = early ++ obsP /\
        run (paintTile coords element done tm lt ld) wp = (w', obsP, out) /\
        TM tm /\
        ((direct /\ wp = w_start) \/
         (exists d, In (obs_resume (at_timer d) wp) early)))).

(** The errors among what was logged. *)
Definition errors_of (logs : list Logged) : list JsError.t :=
  omap (fun l => match l with log_error e => Some e | _ => None end) logs.

Definition is_paint (o : Obs) : Prop :=
  match o with obs_paint _ _ => True | _ => False end.

(** ** Invariants of the pending invocations *)

(** The callbacks the layer passes to [renderTile] for [element]. *)
Definition done_ok (element : ElemId) (done : DoneCallback) : Prop :=
  match done with
  | done_default => True
  | done_showTile _ el => el = element
  end.

(** What holds of the rest of an invocation of
    [renderTile(coords, element, key, _)]: resumed in a stale state it
    returns at once, now and after every later suspension, and it touches
    no other element than its own. *)
Definition task_ok (element : ElemId) (key : string) (coords : Coords.t)
    (q : Prog unit) : Prop :=
  aborts_when_stale element key coords q /\
  gated (aborts_when_stale element key coords) q /\
  confined element q.

Definition inv_ok (inv : Invocation.t) : Prop :=
  forall x,
    task_ok (Invocation.element inv) (Invocation.key inv)
            (Invocation.coords inv) (Invocation.resume inv x).

(** What a synchronous run leaves as it is. *)
Definition preserved (w w' : World.t) : Prop :=
  (forall el, World.key_of el w' = World.key_of el w) /\
  length (World.dom w') = length (World.dom w) /\
  Layer._tiles (World.this w') = Layer._tiles (World.this w) /\
  Layer.super (World.this w') = Layer.super (World.this w) /\
  Layer._map (World.this w') = Layer._map (World.this w).

(** What a run that is confined to another element leaves of [el]. *)
Definition untouched (el : ElemId) (w w' : World.t) : Prop :=
  World.drawn_on el w' = World.drawn_on el w /\
  (forall f, In (f, el) (World.shown w') -> In (f, el) (World.shown w)).

(** The pending invocations are in order. *)
Definition wf (s : Sys.t) : Prop := Forall inv_ok (Sys.pending s).

(** An element that exists and has no key (it was removed). *)
Definition dead (el : ElemId) (w : World.t) : Prop :=
  World.key_of el w = None /\ (el < length (World.dom w))%nat.

(** A change of the world that leaves a dead element dead and as it was. *)
Definition spares (el : ElemId) (w w' : World.t) : Prop :=
  dead el w -> dead el w' /\ untouched el w w'.

(** A step of the system that keeps the pending invocations in order and
    spares a dead element. *)
Definition keeps (el : ElemId) (s s' : Sys.t) : Prop :=
  wf s -> wf s' /\ spares el (Sys.world s) (Sys.world s').



(** ** The pick cycle *)

(** What a redraw leaves as it is. *)
Definition pick_state (s : Sys.t) :=
  (Layer.pointer (Sys.this s), Layer.pickedFeatures (Sys.this s),
   Layer.super (Sys.this s), Layer._map (Sys.this s),
   Sys.timeouts s, Sys.now s).

(** [n] canvases were made and [n] renders started. *)
Definition grows (n : nat) (s s' : Sys.t) : Prop :=
  length (Sys.pending s') = (length (Sys.pending s) + n)%nat /\
  length (World.dom (Sys.world s')) = (length (World.dom (Sys.world s)) + n)%nat.

(** Every tracked tile has a canvas made since there were [n0], for one of
    the coordinates in view. *)
Definition tracked_anew (n0 : nat) (visible : list (Coords.t * nat))
    (s : Sys.t) : Prop :=
  forall k tile,
    JsMap.get k (Layer._tiles (Sys.this s)) = Some tile ->
    (n0 <= Tile.el tile)%nat /\
    exists cv, In cv visible /\
      k = GridLayer._tileCoordsToKey (Layer.super (Sys.this s)) cv.1.

(** ** A host, and states to run the layer in *)

(** Leaflet's [GridLayer] key functions: [_tileCoordsToKey] gives
    [x + ":" + y + ":" + z], [_keyToTileCoords] reads it back, and
    [_wrapCoords] wraps the column into [0, 2^z) when the world wraps. *)
Module Leaflet.
Definition number (z : Z) : string := NilZero.string_of_int (Z.to_int z).

Definition parse (s : string) : Z :=
  match NilZero.int_of_string s with
  | Some i => Z.of_int i
  | None => 0
  end.

Fixpoint split (s : string) (cur : string) : list string :=
  match s with
  | EmptyString => [cur]
  | String c s' =>
      if Ascii.eqb c (Ascii.Ascii false true false true true true false false) then cur :: split s' ""
      else split s' (cur ++ String c "")
  end.

Definition _tileCoordsToKey (coords : Coords.t) : string :=
  number (Coords.x coords) ++ ":" ++ number (Coords.y coords) ++ ":"
  ++ number (Coords.z coords).

Definition _keyToTileCoords (key : string) : Coords.t :=
  match split key "" with
  | [x; y; z] => Coords.mk (parse x) (parse y) (parse z)
  | _ => Coords.mk 0 0 0
  end.

Definition _wrapCoords (wrapX : bool) (coords : Coords.t) : Coords.t :=
  if wrapX
  then Coords.mk (Coords.x coords mod 2 ^ Coords.z coords)
                 (Coords.y coords) (Coords.z coords)
  else coords.

Definition gridLayer (wrapX : bool) : GridLayer.t :=
  GridLayer.mk _tileCoordsToKey _keyToTileCoords (_wrapCoords wrapX).
End Leaflet.

Module Example.
(** Options with everything left out but two sources. *)
Definition options : Options.t :=
  Options.mk None None None None None false None None None 0 None None.

Definition env : Env.t :=
  Env.mk 2 (fun _ => []) (fun _ => []) (fun _ => "#fff")
    (fun _ => [("roads", 1%nat); ("water", 2%nat)])
    (Leaflet.gridLayer false).

Definition tile : PreparedTile.t :=
  PreparedTile.mk 0 (Point.mk 0 0) 0 1 256 (Coords.mk 0 0 0).

(** A layer fresh from its constructor; every fetch gives a promise of
    its own. *)
Definition fresh (canvas2d : bool) : Sys.t :=
  start env options (fun v _ => v) (fun _ => 0%nat) (fun _ _ => (0%R, []))
        canvas2d.

Definition hostMap : HostMap.t := HostMap.mk 0 (Point.mk 0 0).

(** The first source resolves, the second rejects, and not because it
    was aborted. *)
Definition failed : JsError.t := JsError.mk "TypeError" "Failed to fetch".

Definition answers : Answers.t :=
  Answers.mk (fun p => if decide (p = 1%nat) then Fulfilled tile
                       else Rejected failed)
             5 [].

(** Nothing else happens while the invocation is suspended. *)
Definition undisturbed : Resumption.t := Resumption.mk answers (fun w => w).

(** The tile is removed while the invocation is suspended. *)
Definition removed : Resumption.t :=
  Resumption.mk answers (_removeTile "0:0:0").

Definition coords : Coords.t := Coords.mk 0 0 0.

(** The layer on a map at zoom 0. *)
Definition on_map (canvas2d : bool) : Sys.t :=
  steps [host_setMap (Some hostMap)] (fresh canvas2d).

(** ... with the tile [0:0:0] added. *)
Definition shown (canvas2d : bool) : Sys.t :=
  steps [host_addTile coords 7%nat] (on_map canvas2d).

(** An invocation of [renderTile] for that tile, resumed four times
    with nothing else happening. *)
Definition rendered (canvas2d : bool) : World.t * list Obs * Outcome unit :=
  exec [undisturbed; undisturbed; undisturbed; undisturbed]
    (renderTile coords 0 "0:0:0" (done_showTile 7 0))
    (Sys.world (shown canvas2d)).

(** ... and resumed once, the tile having been removed. *)
Definition superseded : World.t * list Obs * Outcome unit :=
  exec [removed] (renderTile coords 0 "0:0:0" (done_showTile 7 0))
    (Sys.world (shown true)).


Definition click1 : ClickEvent.t := ClickEvent.mk 0 0 1.
Definition click2 : ClickEvent.t := ClickEvent.mk 10 10 2.
End Example.

(** Checks on a trace, as booleans. *)
Definition resumes_all (f : SuspPoint -> World.t -> bool) (obs : list Obs)
  : bool :=
  forallb (fun o => match o with obs_resume s w => f s w | _ => true end) obs.

Definition gate_passes (element : ElemId) (key : string) (coords : Coords.t)
    (s : SuspPoint) (w : World.t) : bool :=
  negb (stale_inb w element key coords).

Definition on_map_after_add (s : SuspPoint) (w : World.t) : bool :=
  match s with
  | at_add _ _ => bool_decide (Layer._map (World.this w) <> None)
  | _ => true
  end.

Definition context_after_timer (element : ElemId) (s : SuspPoint)
    (w : World.t) : bool :=
  match s with
  | at_timer _ => has2d_of element w
  | _ => true
  end.

Definition paints_or_signals (o : Obs) : bool :=
  match o with obs_paint _ _ | obs_done _ => true | _ => false end.

(** The state an execution was resumed in at position [i] of its trace,
    tested with [f]. *)
Definition resumed_at (f : World.t -> bool) (i : nat) (obs : list Obs) : bool :=
  match obs !! i with
  | Some (obs_resume _ wr) => f wr
  | _ => false
  end.



Definition paint_at (i : nat) (obs : list Obs) : bool :=
  match obs !! i with
  | Some (obs_paint _ _) => true
  | _ => false
  end.


(** The layer is taken off its map while an invocation is suspended. *)
Definition taken_off : Resumption.t :=
  Resumption.mk Example.answers
    (fun w => World.set_this (set_map None (World.this w)) w).

(** The render of the example, the layer being taken off the map while
    [labelers.add] runs. *)
Definition rendered_off_map : World.t * list Obs * Outcome unit :=
  exec [Example.undisturbed; Example.undisturbed; taken_off;
        Example.undisturbed]
    (renderTile Example.coords 0 "0:0:0" (done_showTile 7 0))
    (Sys.world (Example.shown true)).

(** ** Further definitions *)

(** The arguments of the call of [renderTile] an invocation comes from. *)
Definition call_of (inv : Invocation.t)
  : Coords.t * ElemId * string * DoneCallback :=
  (Invocation.coords inv, Invocation.element inv, Invocation.key inv,
   Invocation.done inv).

(** The call [rerenderTile] and [rerenderTiles] make for a tracked tile:
    [this.renderTile(wrappedCoord, this._tiles[unwrappedK].el, key)]. *)
Definition rerender_call (super : GridLayer.t) (kv : string * Tile.t)
  : Coords.t * ElemId * string * DoneCallback :=
  let wrappedCoord :=
    GridLayer._wrapCoords super (GridLayer._keyToTileCoords super kv.1) in
  (wrappedCoord, Tile.el kv.2, GridLayer._tileCoordsToKey super wrappedCoord,
   done_default).

(** The zoom level of the last of a sequence of calls, if there is one. *)
Definition last_zoom (calls : list (Coords.t * ElemId * string * DoneCallback))
    (z0 : option Z) : option Z :=
  match last calls with
  | Some c => Some (Coords.z c.1.1.1)
  | None => z0
  end.

(** What the continuations of a program satisfy, by the suspension point
    they follow. *)
Fixpoint gated_at {A} (P : SuspPoint -> Prog A -> Prop) (p : Prog A) : Prop :=
  match p with
  | Ret _ | Throw _ => True
  | Vis _ k => forall x, gated_at P (k x)
  | Yield s k => forall x, P (point_of s) (k x) /\ gated_at P (k x)
  end.

(** How [renderTile] goes on after each of its suspension points; the
    tile map it has built by then has no empty entry. *)
Definition stage_after (coords : Coords.t) (element : ElemId) (key : string)
    (done : DoneCallback) (s : SuspPoint) (q : Prog unit) : Prop :=
  match s with
  | at_fetch ps =>
      exists promises settled,
        promises.*2 = ps /\
        q = renderTile_afterFetch coords element key done promises settled
  | at_tasks _ =>
      exists tm,
        (forall kv, kv ∈ tm -> kv.2 <> []) /\
        q = renderTile_afterTasks coords element key done tm
  | at_add z tm =>
      exists lt,
        (forall kv, kv ∈ tm -> kv.2 <> []) /\
        q = renderTile_afterAdd coords element key done tm lt
  | at_timer _ =>
      exists tm lt ld,
        (forall kv, kv ∈ tm -> kv.2 <> []) /\
        q = renderTile_afterTimer coords element key done tm lt ld
  end.

(** The first things an invocation does: it sets the zoom and starts the
    fetches. *)
Definition is_request (o : Obs) : Prop :=
  match o with obs_setZ _ | obs_fetch _ _ => True | _ => False end.

(** The suspension points of [renderTile], in the order of its text. *)
Inductive Stage := fetch_barrier | task_barrier | label_layout | delay.

Definition stage_of (s : SuspPoint) : Stage :=
  match s with
  | at_fetch _ => fetch_barrier
  | at_tasks _ => task_barrier
  | at_add _ _ => label_layout
  | at_timer _ => delay
  end.

(** The suspensions in a trace. *)
Definition suspensions (obs : list Obs) : list Stage :=
  omap (fun o => match o with
                 | obs_suspend s _ => Some (stage_of s)
                 | _ => None
                 end) obs.

#[global] Instance Stage_eq_dec : EqDecision Stage.
Proof. solve_decision. Defined.

(** The state an execution was resumed in after [stage], at position [i]
    of its trace, tested with [f]. *)
Definition resumed_after (stage : Stage) (f : World.t -> bool) (i : nat)
    (obs : list Obs) : bool :=
  match obs !! i with
  | Some (obs_resume s wr) => bool_decide (stage_of s = stage) && f wr
  | _ => false
  end.

(** What holds of the execution of [renderTile] from one of its stages
    on: [k] suspension points are behind. *)
Definition late_facts (k : nat) (sched : list Resumption.t) (obs : list Obs)
    (out : Outcome unit) : Prop :=
  Forall (fun o => ~ is_request o) obs /\
  suspensions obs `prefix_of`
    drop k [fetch_barrier; task_barrier; label_layout; delay] /\
  ((4 - k <= length sched)%nat -> out = Returned tt).

(** The text lines drawn in a trace: where [fillText] puts them. *)
Definition text_at (o : Obs) : option (R * Z) :=
  match o with
  | obs_ctx _ (fillText _ x y) => Some (x, y)
  | _ => None
  end.

Definition text_lines (obs : list Obs) : list (R * Z) := omap text_at obs.

(** [n] lines at abscissa 4, 14 apart, the first at [y]. *)
Definition stacked_from (y : Z) (n : nat) : list (R * Z) :=
  map (fun i => (4%R, y + 14 * Z.of_nat i)) (seq 0 n).

(** The lines the overlay writes for a source: two, and one more when the
    pointer is in the tile. *)
Definition lines_per_source {A} (pointer : option A) : nat :=
  match pointer with Some _ => 3 | None => 2 end.

(** The number of text lines of the debug overlay: the tile and its box,
    the pointer if it is in the tile, the lines of every source, and the
    paint and layout times when they exceed 8 ms. *)
Definition overlay_lines {A} (pointer : option A) (sources : nat)
    (paintingTime layoutTime : R) : nat :=
  2 + match pointer with Some _ => 1 | None => 0 end
  + lines_per_source pointer * sources
  + (if bool_decide (8 < paintingTime)%R then 1 else 0)
  + (if bool_decide (8 < layoutTime)%R then 1 else 0).

(** An operation of the overlay other than [save] and [restore], on [el]. *)
Definition plain_op (el : ElemId) (o : Obs) : Prop :=
  exists op, o = obs_ctx el op /\ op <> ctx_save /\ op <> ctx_restore.

(** ** [queryTileFeaturesDebug] *)

(** A call that returns or throws. *)
Inductive Completion (A : Type) : Type :=
| Normal (a : A)
| Abrupt (error : string).

Arguments Normal {A} a.
Arguments Abrupt {A} error.

(** [queryTileFeaturesDebug(lng, lat, brushSize = 16)]; [queryFeatures] is
    [view.queryFeatures] of [../view].  The zoom is read of the map once
    for every source, in the loop. *)
Definition queryTileFeaturesDebug
    (queryFeatures : View -> R -> R -> Z -> R -> list PickedFeature.t)
    (this : Layer.t) (lng lat : R) (brushSize : option R)
  : Completion (JsMap.t (list PickedFeature.t)) :=
  let brushSize := default 16%R brushSize in
  foldl (fun acc kv =>
    match acc with
    | Normal featuresBySourceName =>
        let sourceName := kv.1 in
        let view := kv.2 in
        match Layer._map this with
        | None => Abrupt "TypeError: this._map is undefined"
        | Some _map =>
            Normal (JsMap.set sourceName
                      (queryFeatures view lng lat (HostMap.getZoom _map)
                         brushSize)
                      featuresBySourceName)
        end
    | Abrupt error => Abrupt error
    end) (Normal []) (Layer.views this).

(** ** The readiness signals *)

(** The calls [showTile(undefined, element)] in a trace. *)
Definition signal_of (o : Obs) : option (nat * ElemId) :=
  match o with
  | obs_done (done_showTile showTile element) => Some (showTile, element)
  | _ => None
  end.

Definition signals (obs : list Obs) : list (nat * ElemId) :=
  omap signal_of obs.

(** What a call of [done] signals. *)
Definition signal (done : DoneCallback) : list (nat * ElemId) :=
  match done with
  | done_default => []
  | done_showTile showTile element => [(showTile, element)]
  end.

(** A program that calls no callback. *)
Fixpoint quiet {A} (p : Prog A) : Prop :=
  match p with
  | Ret _ | Throw _ => True
  | Vis e k =>
      match e with CallDone _ => False | _ => True end /\
      forall x, quiet (k x)
  | Yield _ k => forall x, quiet (k x)
  end.

(** A program that calls no callback but [done], and returns when it has
    called it. *)
Fixpoint done_last (done : DoneCallback) {A} (p : Prog A) : Prop :=
  match p with
  | Ret _ | Throw _ => True
  | Vis e k =>
      match e with
      | CallDone d => d = done /\ forall x, exists a, k x = Ret a
      | _ => forall x, done_last done (k x)
      end
  | Yield _ k => forall x, done_last done (k x)
  end.

(** The signals the pending invocations may still give. *)
Definition owed (pending : list Invocation.t) : list (nat * ElemId) :=
  flat_map (fun inv => signal (Invocation.done inv)) pending.

(** Signals for pairwise distinct elements among the first [n]. *)
Definition distinct (n : nat) (l : list (nat * ElemId)) : Prop :=
  NoDup l.*2 /\ Forall (fun el => (el < n)%nat) l.*2.

(** No element is signalled twice, nor will be: the elements signalled,
    those of the callbacks still pending and those of [extra], the
    callback of an invocation that is running, are pairwise distinct
    elements of the document, and every pending invocation calls its own
    callback only, last. *)
Definition once_with (extra : list (nat * ElemId)) (s : Sys.t) : Prop :=
  Forall (fun inv => forall x,
            done_last (Invocation.done inv) (Invocation.resume inv x))
         (Sys.pending s) /\
  distinct (length (World.dom (Sys.world s)))
    (World.shown (Sys.world s) ++ owed (Sys.pending s) ++ extra).

Definition signals_once (s : Sys.t) : Prop := once_with [] s.
Lemma Math_floor_bound (x : R) : (Math_floor x <= x < Math_floor x + 1)%R.
Proof. unfold Math_floor. apply Zfloor_bound. Qed.

Lemma shl_1_small (n : Z) : 0 <= n <= 30 -> shl 1 n = 2 ^ n.
Proof.
  intros Hn. unfold shl.
  assert (H1 : ToInt32 1 = 1) by reflexivity.
  rewrite H1, Z.mod_small by lia.
  rewrite Z.shiftl_1_l. unfold ToInt32.
  assert (0 < 2 ^ n <= 2 ^ 30) by
    (split; [apply Z.pow_pos_nonneg; lia | apply Z.pow_le_mono_r; lia]).
  rewrite Z.mod_small; lia.
Qed.


(** ** Programs: running, binding, gates *)

Lemma run_bind {A B} (p : Prog A) (f : A -> Prog B) (w : World.t) :
  run (bind p f) w =
  let '(w1, obs1, out) := run p w in
  match out with
  | Returned a =>
      let '(w2, obs2, out2) := run (f a) w1 in (w2, obs1 ++ obs2, out2)
  | Thrown msg => (w1, obs1, Thrown msg)
  | Suspended s k => (w1, obs1, Suspended s (fun x => bind (k x) f))
  end.
Proof.
  revert w. induction p as [a | X e k IH | X s k IH | msg]; intros w; simpl.
  - destruct (run (f a) w) as [[w2 obs2] out2]. reflexivity.
  - destruct (handle e w) as [[w1 obs1] x]. rewrite IH.
    destruct (run (k x) w1) as [[w2 obs2] out]. destruct out as [a | msg | Y s k'].
    + destruct (run (f a) w2) as [[w3 obs3] out3]. now rewrite app_assoc.
    + reflexivity.
    + reflexivity.
  - reflexivity.
  - reflexivity.
Qed.

Lemma run_no_resume {A} (p : Prog A) (w w' : World.t) obs out :
  run p w = (w', obs, out) -> Forall (fun o => ~ is_resume o) obs.
Proof.
  revert w w' obs out.
  induction p as [a | X e k IH | X s k IH | msg]; intros w w' obs out; simpl.
  - intros [= <- <- <-]. constructor.
  - destruct (handle e w) as [[w1 obs1] x] eqn:He.
    destruct (run (k x) w1) as [[w2 obs2] out2] eqn:Hr.
    intros [= <- <- <-]. apply Forall_app. split; [| eapply IH; eauto].
    destruct e; simpl in He;
      try (destruct (World.paint w el args)); inversion He; subst;
      repeat constructor; simpl; tauto.
  - intros [= <- <- <-]. repeat constructor. simpl. tauto.
  - intros [= <- <- <-]. constructor.
Qed.

Lemma gated_run {A} (P : Prog A -> Prop) (p : Prog A) (w : World.t) :
  gated P p ->
  match (run p w).2 with
  | Suspended s k => forall x, P (k x) /\ gated P (k x)
  | _ => True
  end.
Proof.
  revert w.
  induction p as [a | Y e k' IH | Y s' k' IH | msg]; intros w Hg; simpl.
  - exact I.
  - destruct (handle e w) as [[w1 obs1] x].
    specialize (IH x w1 (Hg x)).
    destruct (run (k' x) w1) as [[w2 obs2] out2]. exact IH.
  - exact Hg.
  - exact I.
Qed.

Lemma gated_sync {A} (P : Prog A -> Prop) (p : Prog A) : sync p -> gated P p.
Proof.
  induction p as [a | X e k IH | X s k IH | msg]; simpl; auto.
  intros [].
Qed.

Lemma gated_bind_sync {A B} (P : Prog B -> Prop) (p : Prog A)
    (f : A -> Prog B) :
  sync p -> (forall a, gated P (f a)) -> gated P (bind p f).
Proof.
  induction p as [a | X e k IH | X s k IH | msg]; simpl; auto.
  intros [].
Qed.

Lemma sync_for_of {A S} (xs : list A) (acc : S) (body : S -> A -> Prog S) :
  (forall acc x, sync (body acc x)) -> sync (for_of xs acc body).
Proof.
  intros Hb. revert acc. induction xs as [| x xs IH]; intros acc; simpl.
  - exact I.
  - specialize (Hb acc x). revert Hb.
    generalize (body acc x) as p.
    induction p as [a | X e k IHp | X s k IHp | msg]; simpl; auto.
Qed.

Lemma app_resume_split (l1 l2 pre post : list Obs) (m1 m : Obs) :
  Forall (fun o => ~ is_resume o) l1 -> is_resume m ->
  l1 ++ m1 :: l2 = pre ++ m :: post ->
  (pre = l1 /\ m1 = m /\ l2 = post) \/
  (exists pre', pre = l1 ++ m1 :: pre' /\ l2 = pre' ++ m :: post).
Proof.
  revert pre. induction l1 as [| o l1 IH]; intros pre Hl1 Hm Heq; simpl in *.
  - destruct pre as [| o' pre]; simpl in *.
    + inversion Heq; subst. left. auto.
    + inversion Heq; subst. right. eauto.
  - inversion Hl1 as [| ? ? Ho Hl1']; subst.
    destruct pre as [| o' pre]; simpl in *.
    + inversion Heq; subst. contradiction.
    + inversion Heq; subst.
      destruct (IH pre Hl1' Hm H1) as [(-> & -> & ->) | (pre' & -> & ->)].
      * left. auto.
      * right. eauto.
Qed.

Lemma exec_returned {A} (sched : list Resumption.t) (p : Prog A) w w1 obs a :
  run p w = (w1, obs, Returned a) -> exec sched p w = (w1, obs, Returned a).
Proof. intros H. destruct sched; simpl; rewrite H; reflexivity. Qed.

Lemma exec_thrown {A} (sched : list Resumption.t) (p : Prog A) w w1 obs m :
  run p w = (w1, obs, Thrown m) -> exec sched p w = (w1, obs, Thrown m).
Proof. intros H. destruct sched; simpl; rewrite H; reflexivity. Qed.

(** Where an execution is resumed, it goes on with a program that
    satisfies the gate property, from the state it is resumed in. *)
Lemma exec_resume_inv {A} (P : Prog A -> Prop) (sched : list Resumption.t) :
  forall (p : Prog A) w w' obs out pre s wr post,
    gated P p ->
    exec sched p w = (w', obs, out) ->
    obs = pre ++ obs_resume s wr :: post ->
    exists q sched', P q /\ exec sched' q wr = (w', post, out).
Proof.
  induction sched as [| r sched IH]; intros p w w' obs out pre s wr post Hg;
    simpl; destruct (run p w) as [[w1 obs1] out1] eqn:Hrun.
  - intros Hex ->.
    assert (Hno := run_no_resume _ _ _ _ _ Hrun).
    assert (obs1 = pre ++ obs_resume s wr :: post) as ->
        by (destruct out1; congruence).
    apply Forall_app in Hno as [_ Hno]. inversion Hno; subst.
    exfalso. simpl in *. tauto.
  - assert (Hno := run_no_resume _ _ _ _ _ Hrun).
    destruct out1 as [a | msg | X s1 k].
    + intros [= <- <- <-] ->.
      apply Forall_app in Hno as [_ Hno]. inversion Hno; subst.
      exfalso. simpl in *. tauto.
    + intros [= <- <- <-] ->.
      apply Forall_app in Hno as [_ Hno]. inversion Hno; subst.
      exfalso. simpl in *. tauto.
    + destruct (exec sched (k (answer s1 (Resumption.answers r)))
                  (Resumption.meanwhile r w1)) as [[w3 obs3] out3] eqn:Hex.
      intros [= <- <- <-] Heq.
      pose proof (gated_run P p w Hg) as Hk. rewrite Hrun in Hk. simpl in Hk.
      destruct (Hk (answer s1 (Resumption.answers r))) as [HP Hg'].
      apply app_resume_split in Heq; [| assumption | exact I].
      destruct Heq as [(-> & Hm & ->) | (pre' & -> & ->)].
      * inversion Hm; subst. eauto.
      * eapply IH; eauto.
Qed.

(** ** [renderTile]: its loops and its gates *)

Lemma stale_inb_spec w element key coords :
  stale_inb w element key coords = true <-> stale_in w element key coords.
Proof.
  unfold stale_inb, stale_in. rewrite orb_true_iff, !bool_decide_eq_true.
  reflexivity.
Qed.

Lemma run_stale w element key coords :
  run (stale element key coords) w =
  (w, [], Returned (stale_inb w element key coords)).
Proof.
  unfold stale, stale_inb. simpl.
  destruct (bool_decide (World.key_of element w <> Some key)); reflexivity.
Qed.

Lemma add_logs_app logs1 logs2 w :
  add_logs (logs1 ++ logs2) w = add_logs logs2 (add_logs logs1 w).
Proof. unfold add_logs. apply foldl_app. Qed.

Lemma add_logs_fields logs w :
  World.this (add_logs logs w) = World.this w /\
  World.dom (add_logs logs w) = World.dom w /\
  World.shown (add_logs logs w) = World.shown w /\
  World.fired (add_logs logs w) = World.fired w /\
  World.console (add_logs logs w) = World.console w ++ logs.
Proof.
  revert w. induction logs as [| l logs IH]; intros w; simpl.
  - rewrite app_nil_r. auto.
  - destruct (IH (World.set_console (World.console w ++ [l]) w))
      as (-> & -> & -> & -> & ->).
    simpl. rewrite <- app_assoc. auto.
Qed.

Lemma stale_in_add_logs logs w element key coords :
  stale_in (add_logs logs w) element key coords <->
  stale_in w element key coords.
Proof.
  unfold stale_in, World.key_of.
  destruct (add_logs_fields logs w) as (-> & -> & _). reflexivity.
Qed.

Lemma run_request_loop coords views acc w :
  run (for_of views acc (request coords)) w =
  (w, map (fun kv => obs_fetch kv.2 coords) views,
   Returned (acc ++ map (fun kv => (kv.1, World.getDisplayTile w kv.2 coords))
                        views)).
Proof.
  revert acc. induction views as [| kv views IH]; intros acc; simpl.
  - now rewrite app_nil_r.
  - rewrite IH. simpl. now rewrite <- app_assoc.
Qed.

Lemma run_collect_loop rs tm w :
  run (for_of rs tm collect) w =
  (add_logs (logged_of rs) w, map obs_log (logged_of rs),
   Returned (tilemap_of tm rs)).
Proof.
  revert tm w. induction rs as [| r rs IH]; intros tm w; simpl.
  - reflexivity.
  - destruct r as [value k | reason k]; simpl.
    + rewrite IH. reflexivity.
    + destruct (decide (JsError.name reason = "AbortError")); simpl.
      * rewrite IH. reflexivity.
      * rewrite IH. reflexivity.
Qed.
Lemma sync_bind {A B} (p : Prog A) (f : A -> Prog B) :
  sync p -> (forall a, sync (f a)) -> sync (bind p f).
Proof.
  induction p as [a | X e k IH | X s k IH | msg]; simpl; auto.
Qed.

Lemma sync_trigger {X} (e : Ev X) : sync (trigger e).
Proof. simpl. auto. Qed.

Lemma sync_stale element key coords : sync (stale element key coords).
Proof.
  unfold stale. simpl. intros x.
  destruct (bool_decide (x <> Some key)); simpl; auto.
Qed.

Ltac sync_step :=
  match goal with
  | |- sync (bind _ _) => apply sync_bind; [| intros ?]
  | |- sync (mbind _ _) => apply sync_bind; [| intros ?]
  | |- sync (for_of _ _ _) => apply sync_for_of; intros ? ?
  | |- sync (trigger _) => apply sync_trigger
  | |- sync (Ret _) => exact I
  | |- sync (Throw _) => exact I
  | |- sync (when ?c _) => unfold when; destruct c
  | |- sync (if ?c then _ else _) => destruct c
  | |- sync (match ?c with _ => _ end) => destruct c
  end.

Lemma sync_debugOverlay coords element debug bbox origin pointer tm pt lt :
  sync (debugOverlay coords element debug bbox origin pointer tm pt lt).
Proof. unfold debugOverlay. repeat sync_step. Qed.

Lemma sync_paintTile coords element done tm lt ld :
  sync (paintTile coords element done tm lt ld).
Proof.
  unfold paintTile. repeat sync_step; apply sync_debugOverlay.
Qed.
Lemma gate_aborts element key coords (rest : Prog unit) :
  aborts_when_stale element key coords
    (s ← stale element key coords; if s : bool then Ret tt else rest).
Proof.
  intros w Hst. exists []. unfold mbind, Prog_bind.
  rewrite run_bind, run_stale.
  apply stale_inb_spec in Hst. rewrite Hst. reflexivity.
Qed.

Lemma gate_gated (P : Prog unit -> Prop) element key coords (rest : Prog unit) :
  gated P rest ->
  gated P (s ← stale element key coords; if s : bool then Ret tt else rest).
Proof.
  intros Hg. apply gated_bind_sync; [apply sync_stale |].
  intros []; simpl; auto.
Qed.

Lemma collect_then_gate_aborts element key coords rs (rest : PreparedTileMap -> Prog unit) :
  aborts_when_stale element key coords
    (tm ← for_of rs [] collect;
     s ← stale element key coords; if s : bool then Ret tt else rest tm).
Proof.
  intros w Hst. exists (logged_of rs). unfold mbind, Prog_bind.
  rewrite run_bind, run_collect_loop, run_bind, run_stale.
  apply (stale_in_add_logs (logged_of rs)) in Hst.
  apply stale_inb_spec in Hst. rewrite Hst. simpl. now rewrite app_nil_r.
Qed.

Ltac prog_cbn := cbn [gated sync confined bind mbind Prog_bind trigger await].

Lemma afterTimer_gated P coords element key done tm lt ld :
  gated P (renderTile_afterTimer coords element key done tm lt ld).
Proof. apply gate_gated, gated_sync, sync_paintTile. Qed.

Lemma afterAdd_gated coords element key done tm lt :
  gated (aborts_when_stale element key coords)
        (renderTile_afterAdd coords element key done tm lt).
Proof.
  apply gate_gated. prog_cbn. intros ld this.
  destruct (Layer._map this); prog_cbn; auto.
  intros []. split; [apply gate_aborts | apply afterTimer_gated].
Qed.

Lemma afterTasks_gated coords element key done tm :
  gated (aborts_when_stale element key coords)
        (renderTile_afterTasks coords element key done tm).
Proof.
  apply gate_gated. prog_cbn. intros lt.
  split; [apply gate_aborts | apply afterAdd_gated].
Qed.

Lemma sync_collect_loop rs tm : sync (for_of rs tm collect).
Proof.
  apply sync_for_of. intros acc []; simpl; auto.
  destruct (decide _); simpl; auto.
Qed.

Lemma afterFetch_gated coords element key done promises settled :
  gated (aborts_when_stale element key coords)
        (renderTile_afterFetch coords element key done promises settled).
Proof.
  apply gated_bind_sync; [apply sync_collect_loop |].
  intros tm. apply gate_gated. prog_cbn. intros this [].
  split; [apply gate_aborts | apply afterTasks_gated].
Qed.

Lemma renderTile_gated coords element key done :
  gated (aborts_when_stale element key coords)
        (renderTile coords element key done).
Proof.
  unfold renderTile. prog_cbn. intros [] this.
  apply gated_bind_sync.
  { apply sync_for_of. intros acc x. simpl. auto. }
  intros promises. prog_cbn. intros settled.
  split; [apply collect_then_gate_aborts | apply afterFetch_gated].
Qed.

(** C1.  Whenever [renderTile] is resumed (after the fetches settled, after
    the tasks settled, after [labelers.add] returned, after the timer) in a
    state where [element.key] differs from [key] or [lastRequestedZ]
    differs from [coords.z], it returns: from there on it does nothing
    but log the fetch rejections; it does not touch the canvas, does not
    call [done], and runs none of the later stages. *)
Theorem renderTile_stale_gate coords element key done sched w w' obs out
    pre s wr post :
  exec sched (renderTile coords element key done) w = (w', obs, out) ->
  obs = pre ++ obs_resume s wr :: post ->
  stale_in wr element key coords ->
  out = Returned tt /\
  World.dom w' = World.dom wr /\
  World.shown w' = World.shown wr /\
  World.this w' = World.this wr /\
  Forall (fun o => is_log o /\ ~ mutates_canvas element o /\
                   ~ is_done o /\ ~ later_stage o) post.
Proof.
  intros Hex Hobs Hst.
  destruct (exec_resume_inv _ sched _ _ _ _ _ _ _ _ _
              (renderTile_gated coords element key done) Hex Hobs)
    as (q & sched' & Hq & Hex').
  destruct (Hq wr Hst) as (logs & Hrun).
  rewrite (exec_returned _ _ _ _ _ _ Hrun) in Hex'.
  injection Hex' as <- <- <-.
  destruct (add_logs_fields logs wr) as (-> & -> & -> & _).
  repeat split; try reflexivity.
  apply Forall_forall. intros o Ho. apply list_elem_of_In, in_map_iff in Ho.
  destruct Ho as (l & <- & _). simpl. tauto.
Qed.
(** *** The stages, as equations *)

Ltac run_cbn :=
  unfold mbind, Prog_bind;
  cbn [bind mbind Prog_bind trigger await run handle].

Lemma run_renderTile coords element key done w :
  let w0 := World.set_this
              (Layer.set_lastRequestedZ (Some (Coords.z coords))
                 (World.this w)) w in
  let promises :=
    map (fun kv => (kv.1, World.getDisplayTile w kv.2 coords))
        (Layer.views (World.this w)) in
  run (renderTile coords element key done) w =
  (w0,
   obs_setZ (Coords.z coords)
   :: map (fun kv => obs_fetch kv.2 coords) (Layer.views (World.this w))
   ++ [obs_suspend (at_fetch (promises.*2)) w0],
   Suspended (AwaitAllSettled (promises.*2))
     (renderTile_afterFetch coords element key done promises)).
Proof.
  intros w0 promises. unfold renderTile. run_cbn.
  rewrite run_bind, run_request_loop. run_cbn.
  reflexivity.
Qed.

Lemma run_gate_pass element key coords (rest : Prog unit) w :
  stale_inb w element key coords = false ->
  run (s ← stale element key coords; if s : bool then Ret tt else rest) w =
  run rest w.
Proof.
  intros H. unfold mbind, Prog_bind. rewrite run_bind, run_stale, H.
  destruct (run rest w) as [[w2 obs2] out2]. reflexivity.
Qed.

Lemma run_gate_stop element key coords (rest : Prog unit) w :
  stale_inb w element key coords = true ->
  run (s ← stale element key coords; if s : bool then Ret tt else rest) w =
  (w, [], Returned tt).
Proof.
  intros H. unfold mbind, Prog_bind. rewrite run_bind, run_stale, H.
  reflexivity.
Qed.

Lemma stale_inb_add_logs logs w element key coords :
  stale_inb (add_logs logs w) element key coords =
  stale_inb w element key coords.
Proof.
  unfold stale_inb, World.key_of.
  destruct (add_logs_fields logs w) as (-> & -> & _). reflexivity.
Qed.

Lemma run_afterTimer coords element key done tm lt ld w :
  run (renderTile_afterTimer coords element key done tm lt ld) w =
  if stale_inb w element key coords then (w, [], Returned tt)
  else run (paintTile coords element done tm lt ld) w.
Proof.
  unfold renderTile_afterTimer.
  destruct (stale_inb w element key coords) eqn:H.
  - now apply run_gate_stop.
  - now apply run_gate_pass.
Qed.

Lemma run_afterAdd coords element key done tm lt w :
  run (renderTile_afterAdd coords element key done tm lt) w =
  if stale_inb w element key coords then (w, [], Returned tt)
  else match Layer._map (World.this w) with
       | None => (w, [obs_getIndex (Coords.z coords)], Returned tt)
       | Some _map =>
           let d := priority coords (HostMap.tileRangeCenter _map)
                      (Layer.tileDelay (World.this w)) in
           (w, [obs_getIndex (Coords.z coords); obs_suspend (at_timer d) w],
            Suspended (Timer d)
              (fun _ => renderTile_afterTimer coords element key done tm lt
                          (World.getIndex w (Coords.z coords))))
       end.
Proof.
  unfold renderTile_afterAdd.
  destruct (stale_inb w element key coords) eqn:H.
  - now apply run_gate_stop.
  - rewrite run_gate_pass by assumption. run_cbn.
    destruct (Layer._map (World.this w)); reflexivity.
Qed.

Lemma run_afterTasks coords element key done tm w :
  run (renderTile_afterTasks coords element key done tm) w =
  if stale_inb w element key coords then (w, [], Returned tt)
  else (w, [obs_suspend (at_add (Coords.z coords) tm) w],
        Suspended (LabelersAdd (Coords.z coords) tm)
          (renderTile_afterAdd coords element key done tm)).
Proof.
  unfold renderTile_afterTasks.
  destruct (stale_inb w element key coords) eqn:H.
  - now apply run_gate_stop.
  - rewrite run_gate_pass by assumption. reflexivity.
Qed.

Lemma run_afterFetch coords element key done promises settled w :
  let rs := map (reflect_tile settled) promises in
  let w1 := add_logs (logged_of rs) w in
  run (renderTile_afterFetch coords element key done promises settled) w =
  if stale_inb w element key coords
  then (w1, map obs_log (logged_of rs), Returned tt)
  else (w1,
        map obs_log (logged_of rs) ++
        [obs_suspend (at_tasks (Layer.tasks (World.this w1))) w1],
        Suspended (AwaitTasks (Layer.tasks (World.this w1)))
          (fun _ => renderTile_afterTasks coords element key done
                      (tilemap_of [] rs))).
Proof.
  intros rs w1. unfold renderTile_afterFetch. fold rs.
  unfold mbind at 1, Prog_bind at 1.
  rewrite run_bind, run_collect_loop. fold w1.
  rewrite <- (stale_inb_add_logs (logged_of rs) w). fold w1.
  destruct (stale_inb w1 element key coords) eqn:H.
  - rewrite run_gate_stop by assumption. now rewrite app_nil_r.
  - rewrite run_gate_pass by assumption. run_cbn.
    reflexivity.
Qed.
(** *** The paint stage *)

Lemma draws_only_bind el {A B} (p : Prog A) (f : A -> Prog B) :
  draws_only el p -> (forall a, draws_only el (f a)) ->
  draws_only el (bind p f).
Proof.
  induction p as [a | X e k IH | X s k IH | msg]; simpl; auto.
  intros [He Hk] Hf. split; auto.
Qed.

Lemma draws_only_for_of el {A S} (xs : list A) (acc : S)
    (body : S -> A -> Prog S) :
  (forall acc x, draws_only el (body acc x)) ->
  draws_only el (for_of xs acc body).
Proof.
  intros Hb. revert acc. induction xs as [| x xs IH]; intros acc.
  - exact I.
  - cbn [for_of]. apply draws_only_bind; auto.
Qed.

Lemma no_throw_bind {A B} (p : Prog A) (f : A -> Prog B) :
  no_throw p -> (forall a, no_throw (f a)) -> no_throw (bind p f).
Proof.
  induction p as [a | X e k IH | X s k IH | msg]; simpl; auto.
Qed.

Lemma no_throw_for_of {A S} (xs : list A) (acc : S)
    (body : S -> A -> Prog S) :
  (forall acc x, x ∈ xs -> no_throw (body acc x)) ->
  no_throw (for_of xs acc body).
Proof.
  revert acc. induction xs as [| x xs IH]; intros acc Hb.
  - exact I.
  - cbn [for_of]. apply no_throw_bind.
    + apply Hb. left.
    + intros a. apply IH. intros acc' x' Hx. apply Hb. now right.
Qed.

Lemma run_draws_only el {A} (p : Prog A) w :
  draws_only el p ->
  exists w1 ops out,
    run p w = (w1, map (obs_ctx el) ops, out) /\
    match out with Suspended _ _ => False | _ => True end /\
    World.this w1 = World.this w /\ World.paint w1 = World.paint w.
Proof.
  revert w. induction p as [a | X e k IH | X s k IH | msg]; intros w; simpl.
  - intros _. exists w, [], (Returned a). auto.
  - intros [He Hk]. destruct e; try contradiction. subst el0.
    simpl. destruct (IH tt (World.update_element el (Element.draw op) w)
                       (Hk tt)) as (w1 & ops & out & -> & Hout & Ht & Hp).
    exists w1, (op :: ops), out. rewrite Ht, Hp. auto.
  - intros [].
  - intros _. exists w, [], (Thrown msg). auto.
Qed.

Lemma run_no_throw {A} (p : Prog A) w :
  no_throw p ->
  match (run p w).2 with Thrown _ => False | _ => True end.
Proof.
  revert w. induction p as [a | X e k IH | X s k IH | msg]; intros w; simpl;
    auto.
  intros Hk. destruct (handle e w) as [[w1 obs1] x].
  specialize (IH x w1 (Hk x)).
  destruct (run (k x) w1) as [[w2 obs2] out]. exact IH.
Qed.

Ltac draws_step :=
  match goal with
  | |- draws_only _ (bind _ _) => apply draws_only_bind; [| intros ?]
  | |- draws_only _ (mbind _ _) => apply draws_only_bind; [| intros ?]
  | |- draws_only _ (for_of _ _ _) => apply draws_only_for_of; intros ? ?
  | |- draws_only _ (trigger (Ctx _ _)) => simpl; auto
  | |- draws_only _ (Ret _) => exact I
  | |- draws_only _ (Throw _) => exact I
  | |- draws_only _ (if ?c then _ else _) => destruct c
  | |- draws_only _ (match ?c with _ => _ end) => destruct c
  end.

Lemma draws_only_debugOverlay coords element debug bbox origin pointer tm
    pt lt :
  draws_only element
    (debugOverlay coords element debug bbox origin pointer tm pt lt).
Proof. unfold debugOverlay. repeat draws_step. Qed.

Ltac no_throw_step :=
  match goal with
  | |- no_throw (bind _ _) => apply no_throw_bind; [| intros ?]
  | |- no_throw (mbind _ _) => apply no_throw_bind; [| intros ?]
  | |- no_throw (trigger _) => simpl; auto
  | |- no_throw (Ret _) => exact I
  | |- no_throw (if ?c then _ else _) => destruct c
  | |- no_throw (match ?c with Some _ => _ | None => _ end) => destruct c
  end.

Lemma no_throw_debugOverlay coords element debug bbox origin pointer
    (tm : PreparedTileMap) pt lt :
  (forall kv, kv ∈ tm -> kv.2 <> []) ->
  no_throw (debugOverlay coords element debug bbox origin pointer tm pt lt).
Proof.
  intros Htm. unfold debugOverlay. repeat no_throw_step.
  apply no_throw_for_of. intros acc kv Hkv. specialize (Htm kv Hkv).
  destruct (kv.2) as [| v0 vs]; [congruence |].
  repeat no_throw_step.
Qed.
Lemma has2d_of_update el f w :
  (forall e, Element.has2d (f e) = Element.has2d e) ->
  has2d_of el (World.update_element el f w) = has2d_of el w.
Proof.
  intros Hf. unfold has2d_of, World.update_element. simpl.
  rewrite list_lookup_alter_eq.
  destruct (World.dom w !! el) as [e |]; simpl; auto.
Qed.

Lemma run_draws_returns el {A} (p : Prog A) w :
  draws_only el p -> no_throw p ->
  exists w1 ops a, run p w = (w1, map (obs_ctx el) ops, Returned a).
Proof.
  intros Hd Hn. destruct (run_draws_only el p w Hd) as (w1 & ops & out & Hr & Ho & _).
  pose proof (run_no_throw p w Hn) as Ht. rewrite Hr in Ht. simpl in Ht.
  destruct out as [a | m | X s k]; try contradiction. eauto.
Qed.

Lemma run_overlay_done coords element done (dbg : option string) bbox origin
    pointer (tm : PreparedTileMap) pt lt w :
  exists w1 overlay out,
    run (when (truthy dbg)
           (debugOverlay coords element (default "" dbg) bbox origin pointer
              tm pt lt);;
         trigger (CallDone done)) w =
    (w1,
     map (obs_ctx element) overlay ++
     match out with Returned _ => [obs_done done] | _ => [] end,
     out) /\
    match out with Suspended _ _ => False | _ => True end /\
    ((forall kv, kv ∈ tm -> kv.2 <> []) -> out = Returned tt).
Proof.
  unfold mbind, Prog_bind. rewrite run_bind. unfold when.
  destruct (truthy dbg).
  - destruct (run_draws_only element _ w
                (draws_only_debugOverlay coords element (default "" dbg) bbox
                   origin pointer tm pt lt))
      as (w1 & ops & out & Hr & Ho & _).
    pose proof (fun H => run_no_throw _ w
                  (no_throw_debugOverlay coords element (default "" dbg) bbox
                     origin pointer tm pt lt H)) as Hn.
    rewrite Hr in *. simpl in Hn.
    destruct out as [[] | m | X s k]; try contradiction.
    + eexists _, ops, (Returned tt). run_cbn. split; [reflexivity |]. auto.
    + exists w1, ops, (Thrown m). rewrite app_nil_r.
      split; [reflexivity |]. split; [exact I |].
      intros H. destruct (Hn H).
  - eexists _, [], (Returned tt). run_cbn. split; [reflexivity |]. auto.
Qed.

Lemma run_when_draws el (c : bool) (p : Prog unit) w :
  draws_only el p -> no_throw p ->
  exists w1 ops,
    run (when c p) w = (w1, map (obs_ctx el) ops, Returned tt) /\
    World.this w1 = World.this w /\ World.paint w1 = World.paint w.
Proof.
  intros Hd Hn. unfold when. destruct c.
  - destruct (run_draws_only el p w Hd) as (w1 & ops & out & Hr & Ho & Hw).
    pose proof (run_no_throw p w Hn) as Ht. rewrite Hr in Ht. simpl in Ht.
    destruct out as [[] | m | X s k]; try contradiction. eauto.
  - exists w, []. auto.
Qed.

(** The trace of the paint stage. *)
Lemma run_paintTile coords element done tm lt ld w :
  let ts := Layer.tileSize (World.this w) in
  exists w1 obs out,
    run (paintTile coords element done tm lt ld) w = (w1, obs, out) /\
    if has2d_of element w
    then exists args bg overlay,
        obs = [obs_width element ts; obs_height element ts;
               obs_getContext element;
               obs_ctx element (setTransform (ts / 256) 0 0 (ts / 256) 0 0);
               obs_ctx element (clearRect 0 0 256 256)]
              ++ map (obs_ctx element) bg
              ++ obs_paint element args
              :: map (obs_ctx element) overlay
              ++ match out with Returned _ => [obs_done done] | _ => [] end
        /\ PaintArgs.bbox args = bboxWithBuffer_of coords
        /\ PaintArgs.origin args = origin_of coords
        /\ PaintArgs.preparedTilemap args = tm
        /\ PaintArgs.z args = Coords.z coords
        /\ match out with Suspended _ _ => False | _ => True end
        /\ ((forall kv, kv ∈ tm -> kv.2 <> []) -> out = Returned tt)
    else obs = [obs_width element ts; obs_height element ts;
                obs_getContext element;
                obs_log (log_string "Failed to get Canvas context")]
         /\ out = Returned tt.
Proof.
  intros ts. subst ts. unfold paintTile. run_cbn.
  set (w2 := World.update_element element (Element.set_height _) _).
  assert (H2 : has2d_of element w2 = has2d_of element w)
    by (unfold w2; rewrite !has2d_of_update; auto).
  unfold has2d_of at 1 in H2. rewrite H2. clear H2.
  destruct (has2d_of element w); cbn [negb].
  - run_cbn.
    match goal with
    | |- context [run (bind (when ?c ?p) ?f) ?w0] =>
        rewrite (run_bind (when c p) f w0);
        destruct (run_when_draws element c p w0)
          as (wb & bg & Hbg & Hthis & Hpaint);
        [simpl; auto | simpl; auto |]
    end.
    rewrite Hbg. run_cbn.
    match goal with
    | |- context [World.paint wb element ?a] =>
        set (args := a); destruct (World.paint wb element args) as [ms picked]
    end.
    match goal with
    | |- context [run (bind (when ?c ?p) ?f) ?w0] =>
        destruct (run_overlay_done coords element done
                    (Layer.debug (World.this w)) (bbox_of coords)
                    (origin_of coords)
                    match Layer.pointer (World.this w) with
                    | Some ptr =>
                        if pointerInTile ptr (bbox_of coords)
                        then Some ptr else None
                    | None => None
                    end tm ms lt w0)
          as (w1 & overlay & out & Hov & Hout & Hret)
    end.
    unfold mbind, Prog_bind in Hov. rewrite Hov.
    eexists _, _, out. split; [reflexivity |].
    exists args, bg, overlay. repeat split; auto.
  - run_cbn. eexists _, _, _. split; [reflexivity |]. auto.
Qed.
(** *** Executions, stage by stage *)

Lemma run_sync_not_suspended {A} (p : Prog A) w :
  sync p -> ~ is_suspended (run p w).2.
Proof.
  revert w. induction p as [a | X e k IH | X s k IH | msg]; intros w; simpl;
    auto.
  intros Hk. destruct (handle e w) as [[w1 obs1] x].
  specialize (IH x w1 (Hk x)).
  destruct (run (k x) w1) as [[w2 obs2] out]. exact IH.
Qed.

Lemma exec_not_suspended {A} sched (p : Prog A) w :
  ~ is_suspended (run p w).2 -> exec sched p w = run p w.
Proof.
  intros H. destruct (run p w) as [[w1 obs1] out] eqn:Hr.
  destruct out as [a | m | X s k].
  - now apply exec_returned.
  - now apply exec_thrown.
  - exfalso. apply H. exact I.
Qed.

Lemma stale_inb_false w element key coords :
  stale_inb w element key coords = false <->
  ~ stale_in w element key coords.
Proof.
  rewrite <- stale_inb_spec. destruct (stale_inb w element key coords);
    split; intros; congruence.
Qed.

Lemma shape_afterTimer coords element key done tm lt ld sched w w' obs out :
  exec sched (renderTile_afterTimer coords element key done tm lt ld) w
  = (w', obs, out) ->
  Shape coords element key done (fun t => t = tm) []
        (stale_in w element key coords) False True w w' obs out.
Proof.
  rewrite exec_not_suspended.
  2:{ apply run_sync_not_suspended. unfold renderTile_afterTimer.
      repeat sync_step; auto using sync_stale, sync_paintTile. }
  rewrite run_afterTimer.
  destruct (stale_inb w element key coords) eqn:Hs.
  - intros [= <- <- <-]. exists []. split; [constructor |].
    split; [reflexivity |]. left. apply stale_inb_spec in Hs.
    split; [reflexivity |]. split; [right; left; exact Hs | right; reflexivity].
  - intros Hrun. exists []. split; [constructor |].
    split; [reflexivity |]. right. exists w, tm, lt, ld, obs.
    repeat split; auto.
Qed.
Lemma errors_logged_app l1 l2 :
  errors_logged (l1 ++ l2) = errors_logged l1 ++ errors_logged l2.
Proof. unfold errors_logged. apply omap_app. Qed.

Lemma early_ok_weaken coords (TM TM' : PreparedTileMap -> Prop) o :
  (forall t, TM t -> TM' t) -> early_ok coords TM o -> early_ok coords TM' o.
Proof.
  intros H. destruct o as [| | | | | | | | | | s w0 |]; simpl; auto.
  destruct s; simpl; auto. intros [? ?]. auto.
Qed.

(** An execution that is resumed goes on as the next stage does. *)
Lemma shape_resume coords element key done (TM TM' : PreparedTileMap -> Prop)
    L (st nm direct st' nm' direct' : Prop) pre s w_start w2 w' obs3 out :
  Shape coords element key done TM L st nm direct w2 w' obs3 out ->
  (forall t, TM t -> TM' t) ->
  Forall (early_ok coords TM') pre ->
  (st -> stale_in w2 element key coords) ->
  (nm -> exists z tm, s = at_add z tm /\ Layer._map (World.this w2) = None) ->
  (direct -> exists d, s = at_timer d) ->
  Shape coords element key done TM' (errors_logged pre ++ L)
        st' nm' direct' w_start w'
        (pre ++ obs_resume s w2 :: obs3) out.
Proof.
  intros (early & Hearly & Hlogs & Hcases) HTM Hpre Hst Hnm Hdirect.
  exists (pre ++ obs_resume s w2 :: early). split; [| split].
  - apply Forall_app. split; [assumption |]. constructor; [exact I |].
    eapply Forall_impl; [exact Hearly |]. intros o. now apply early_ok_weaken.
  - rewrite errors_logged_app. simpl. now rewrite Hlogs.
  - destruct Hcases as [(-> & Hwhy & Hout) |
                        (wp & tm & lt & ld & obsP & -> & Hrun & Htm & Hwp)].
    + left. split; [reflexivity |]. split; [| assumption].
      destruct Hwhy as [Hsus | [Hs | [Hn | [Hr | Hr]]]].
      * now left.
      * right. right. right. left. exists s, w2. split; [| auto].
        apply in_or_app. right. now left.
      * destruct (Hnm Hn) as (z & tm & -> & Hmap).
        right. right. right. right. exists z, tm, w2. split; [| auto].
        apply in_or_app. right. now left.
      * destruct Hr as (s' & wr & Hin & Hstale).
        right. right. right. left. exists s', wr. split; [| auto].
        apply in_or_app. right. now right.
      * destruct Hr as (z & tm & wr & Hin & Hmap).
        right. right. right. right. exists z, tm, wr. split; [| auto].
        apply in_or_app. right. now right.
    + right. exists wp, tm, lt, ld, obsP. split; [| split; [| split]]; auto.
      * now rewrite <- app_assoc.
      * right. destruct Hwp as [[Hd ->] | (d & Hin)].
        -- destruct (Hdirect Hd) as (d & ->). exists d.
           apply in_or_app. right. now left.
        -- exists d. apply in_or_app. right. now right.
Qed.

Lemma exec_eq {A} sched (p : Prog A) w :
  exec sched p w =
  let '(w1, obs1, out) := run p w in
  match out, sched with
  | Suspended s k, r :: sched' =>
      let w2 := Resumption.meanwhile r w1 in
      let '(w3, obs3, out3) :=
        exec sched' (k (answer s (Resumption.answers r))) w2 in
      (w3, obs1 ++ obs_resume (point_of s) w2 :: obs3, out3)
  | _, _ => (w1, obs1, out)
  end.
Proof. destruct sched; reflexivity. Qed.

Lemma shape_afterAdd coords element key done tm lt sched w w' obs out :
  exec sched (renderTile_afterAdd coords element key done tm lt) w
  = (w', obs, out) ->
  Shape coords element key done (fun t => t = tm) []
        (stale_in w element key coords)
        (Layer._map (World.this w) = None) False w w' obs out.
Proof.
  rewrite exec_eq, run_afterAdd.
  destruct (stale_inb w element key coords) eqn:Hs.
  { intros [= <- <- <-]. exists []. split; [constructor |].
    split; [reflexivity |]. left. apply stale_inb_spec in Hs.
    split; [reflexivity |]. split; [right; left; exact Hs | right; reflexivity]. }
  destruct (Layer._map (World.this w)) as [_map |] eqn:Hmap.
  2:{ intros [= <- <- <-]. exists [obs_getIndex (Coords.z coords)].
      split; [repeat constructor |]. split; [reflexivity |]. left.
      split; [reflexivity |]. split; [| right; reflexivity]. 
      right. right. left. reflexivity. }
  cbv zeta.
  set (d := priority coords (HostMap.tileRangeCenter _map)
              (Layer.tileDelay (World.this w))).
  assert (Hpre : Forall (early_ok coords (fun t => t = tm))
                   [obs_getIndex (Coords.z coords); obs_suspend (at_timer d) w])
    by (repeat constructor; simpl; eauto).
  destruct sched as [| r sched].
  { intros [= <- <- <-].
    exists [obs_getIndex (Coords.z coords); obs_suspend (at_timer d) w].
    split; [exact Hpre |]. split; [reflexivity |].
    left. split; [reflexivity |]. split; left; exact I. }
  destruct (exec sched _ _) as [[w3 obs3] out3] eqn:Hex.
  intros [= <- <- <-]. apply shape_afterTimer in Hex.
  eapply (shape_resume _ _ _ _ _ _ _ _ _ _ _ _ _
            [obs_getIndex (Coords.z coords); obs_suspend (at_timer d) w])
    in Hex.
  - simpl in Hex. exact Hex.
  - auto.
  - exact Hpre.
  - auto.
  - intros [].
  - simpl. eauto.
Qed.
Lemma shape_afterTasks coords element key done tm sched w w' obs out :
  exec sched (renderTile_afterTasks coords element key done tm) w
  = (w', obs, out) ->
  Shape coords element key done (fun t => t = tm) []
        (stale_in w element key coords) False False w w' obs out.
Proof.
  rewrite exec_eq, run_afterTasks.
  destruct (stale_inb w element key coords) eqn:Hs.
  { intros [= <- <- <-]. exists []. split; [constructor |].
    split; [reflexivity |]. left. apply stale_inb_spec in Hs.
    split; [reflexivity |]. split; [right; left; exact Hs | right; reflexivity]. }
  assert (Hpre : Forall (early_ok coords (fun t => t = tm))
                   [obs_suspend (at_add (Coords.z coords) tm) w])
    by (repeat constructor; simpl; eauto).
  destruct sched as [| r sched].
  { intros [= <- <- <-].
    exists [obs_suspend (at_add (Coords.z coords) tm) w].
    split; [exact Hpre |]. split; [reflexivity |].
    left. split; [reflexivity |]. split; left; exact I. }
  cbv zeta. destruct (exec sched _ _) as [[w3 obs3] out3] eqn:Hex.
  intros [= <- <- <-]. apply shape_afterAdd in Hex.
  eapply (shape_resume _ _ _ _ _ _ _ _ _ _ _ _ _
            [obs_suspend (at_add (Coords.z coords) tm) w]) in Hex.
  - simpl in Hex. exact Hex.
  - auto.
  - exact Hpre.
  - auto.
  - simpl. eauto.
  - intros [].
Qed.

Lemma errors_logged_logs logs :
  errors_logged (map obs_log logs) = errors_of logs.
Proof.
  induction logs as [| [e | s] logs IH]; [reflexivity | |].
  - change (e :: errors_logged (map obs_log logs) = e :: errors_of logs).
    now f_equal.
  - exact IH.
Qed.

Lemma logged_of_errors rs :
  Forall (fun l => exists e, l = log_error e) (logged_of rs).
Proof.
  unfold logged_of. induction rs as [| [v k | e k] rs IH]; simpl; auto.
  destruct (decide _); auto. constructor; eauto.
Qed.

Lemma shape_afterFetch coords element key done promises settled sched
    w w' obs out :
  let rs := map (reflect_tile settled) promises in
  exec sched (renderTile_afterFetch coords element key done promises settled)
       w = (w', obs, out) ->
  Shape coords element key done (fun t => t = tilemap_of [] rs)
        (errors_of (logged_of rs))
        (stale_in w element key coords) False False w w' obs out.
Proof.
  intros rs. rewrite exec_eq, run_afterFetch. fold rs.
  assert (Hlogs : Forall (early_ok coords (fun t => t = tilemap_of [] rs))
                    (map obs_log (logged_of rs))).
  { apply Forall_map. eapply Forall_impl; [apply logged_of_errors |].
    intros l (e & ->). exact I. }
  destruct (stale_inb w element key coords) eqn:Hs.
  { intros [= <- <- <-]. exists (map obs_log (logged_of rs)).
    split; [exact Hlogs |]. split; [apply errors_logged_logs |].
    left. apply stale_inb_spec in Hs.
    split; [reflexivity |]. split; [right; left; exact Hs | right; reflexivity]. }
  set (w1 := add_logs (logged_of rs) w).
  assert (Hpre : Forall (early_ok coords (fun t => t = tilemap_of [] rs))
                   (map obs_log (logged_of rs) ++
                    [obs_suspend (at_tasks (Layer.tasks (World.this w1))) w1])).
  { apply Forall_app. split; [exact Hlogs |]. repeat constructor. }
  assert (Herr : errors_logged
                   (map obs_log (logged_of rs) ++
                    [obs_suspend (at_tasks (Layer.tasks (World.this w1))) w1])
                 = errors_of (logged_of rs)).
  { rewrite errors_logged_app, errors_logged_logs. simpl.
    now rewrite app_nil_r. }
  destruct sched as [| r sched].
  { intros [= <- <- <-]. eexists. split; [exact Hpre |].
    split; [exact Herr |].
    left. split; [reflexivity |]. split; left; exact I. }
  cbv zeta. destruct (exec sched _ _) as [[w3 obs3] out3] eqn:Hex.
  intros [= <- <- <-]. apply shape_afterTasks in Hex.
  eapply (shape_resume _ _ _ _ _ _ _ _ _ _ _ _ _
            (map obs_log (logged_of rs) ++
             [obs_suspend (at_tasks (Layer.tasks (World.this w1))) w1]))
    in Hex.
  - rewrite Herr, app_nil_r in Hex. simpl in Hex. exact Hex.
  - auto.
  - exact Hpre.
  - auto.
  - intros [].
  - intros [].
Qed.
Lemma errors_logged_fetches coords (views : JsMap.t View) :
  errors_logged (map (fun kv => obs_fetch kv.2 coords) views) = [].
Proof. induction views as [| kv l IH]; [reflexivity | exact IH]. Qed.

Lemma shape_renderTile coords element key done sched w w' obs out :
  let promises :=
    map (fun kv => (kv.1, World.getDisplayTile w kv.2 coords))
        (Layer.views (World.this w)) in
  exec sched (renderTile coords element key done) w = (w', obs, out) ->
  Shape coords element key done
    (fun t => exists r sched', sched = r :: sched' /\
       t = tilemap_of []
             (map (reflect_tile (Answers.settled (Resumption.answers r)))
                  promises))
    (match sched with
     | [] => []
     | r :: _ =>
         errors_of
           (logged_of
              (map (reflect_tile (Answers.settled (Resumption.answers r)))
                   promises))
     end)
    False False False w w' obs out.
Proof.
  intros promises. rewrite exec_eq, run_renderTile. fold promises.
  set (w0 := World.set_this _ w).
  set (pre := obs_setZ (Coords.z coords)
              :: map (fun kv => obs_fetch kv.2 coords)
                     (Layer.views (World.this w))
              ++ [obs_suspend (at_fetch promises.*2) w0]).
  assert (Hpre : forall TM, Forall (early_ok coords TM) pre).
  { intros TM. unfold pre. constructor; [exact I |].
    apply Forall_app. split; [| repeat constructor].
    apply Forall_map. apply Forall_forall. intros kv _. exact I. }
  assert (Herr : errors_logged pre = []).
  { unfold pre. change (errors_logged
       (map (fun kv => obs_fetch kv.2 coords) (Layer.views (World.this w)) ++
        [obs_suspend (at_fetch promises.*2) w0]) = []).
    rewrite errors_logged_app. simpl. rewrite app_nil_r.
    apply errors_logged_fetches. }
  destruct sched as [| r sched].
  { intros [= <- <- <-]. exists pre. split; [apply Hpre |].
    split; [exact Herr |].
    left. split; [reflexivity |]. split; left; exact I. }
  cbv zeta. destruct (exec sched _ _) as [[w3 obs3] out3] eqn:Hex.
  intros [= <- <- <-]. apply shape_afterFetch in Hex.
  eapply (shape_resume _ _ _ _ _ _ _ _ _ _ _ _ _ pre) in Hex.
  - rewrite Herr in Hex. simpl in Hex. exact Hex.
  - intros t ->. eauto.
  - apply Hpre.
  - auto.
  - intros [].
  - intros [].
Qed.

(** *** The tile map and the log, against their specification *)

Lemma JsMap_set_fresh {V} k (v : V) m :
  k ∉ JsMap.keys m -> JsMap.set k v m = m ++ [(k, v)].
Proof.
  induction m as [| [k' v'] m IH]; simpl; intros Hk; [reflexivity |].
  destruct (decide (k' = k)) as [-> | Hne].
  - exfalso. apply Hk. left.
  - f_equal. apply IH. intros Hin. apply Hk. now right.
Qed.

Lemma tilemap_of_fulfilled views fetch settled acc :
  NoDup (JsMap.keys acc ++ JsMap.keys views) ->
  tilemap_of acc
    (map (reflect_tile settled) (map (fun kv => (kv.1, fetch kv.2)) views))
  = acc ++ fulfilled_sources views fetch settled.
Proof.
  revert acc. induction views as [| [k v] views IH]; intros acc Hnd; simpl.
  - now rewrite app_nil_r.
  - unfold reflect_tile at 1. simpl.
    apply NoDup_app in Hnd as (Hacc & Hdisj & Hviews).
    apply NoDup_cons in Hviews as [Hk Hviews].
    destruct (settled (fetch v)) as [value | reason]; simpl.
    + rewrite JsMap_set_fresh.
      2:{ intros Hin. apply (Hdisj k Hin). left. }
      rewrite IH.
      * now rewrite <- app_assoc.
      * unfold JsMap.keys. rewrite fmap_app. simpl.
        rewrite <- app_assoc. simpl.
        apply NoDup_app. split; [assumption |]. split.
        -- intros x Hx Hx'. apply elem_of_cons in Hx' as [-> | Hx'].
           ++ apply (Hdisj k Hx). left.
           ++ apply (Hdisj x Hx). now right.
        -- now apply NoDup_cons.
    + apply IH. apply NoDup_app. split; [assumption |]. split; [| assumption].
      intros x Hx Hx'. apply (Hdisj x Hx). now right.
Qed.

Lemma logged_of_rejections views fetch settled :
  errors_of
    (logged_of
       (map (reflect_tile settled)
            (map (fun kv => (kv.1, fetch kv.2)) views)))
  = logged_rejections views fetch settled.
Proof.
  induction views as [| [k v] views IH]; [reflexivity |].
  unfold logged_rejections, logged_of, errors_of in *. simpl.
  unfold reflect_tile at 1. simpl.
  destruct (settled (fetch v)) as [value | reason]; simpl; [exact IH |].
  destruct (decide _); simpl; [exact IH |]. now f_equal.
Qed.
Lemma paintTile_trace coords element done tm lt ld wp w' obsP out :
  run (paintTile coords element done tm lt ld) wp = (w', obsP, out) ->
  let ts := Layer.tileSize (World.this wp) in
  (has2d_of element wp = false /\
   obsP = [obs_width element ts; obs_height element ts;
           obs_getContext element;
           obs_log (log_string "Failed to get Canvas context")] /\
   out = Returned tt) \/
  (has2d_of element wp = true /\
   exists args bg overlay,
     obsP = [obs_width element ts; obs_height element ts;
             obs_getContext element;
             obs_ctx element (setTransform (ts / 256) 0 0 (ts / 256) 0 0);
             obs_ctx element (clearRect 0 0 256 256)]
            ++ map (obs_ctx element) bg
            ++ obs_paint element args
            :: map (obs_ctx element) overlay
            ++ match out with Returned _ => [obs_done done] | _ => [] end
     /\ PaintArgs.bbox args = bboxWithBuffer_of coords
     /\ PaintArgs.origin args = origin_of coords
     /\ PaintArgs.preparedTilemap args = tm
     /\ PaintArgs.z args = Coords.z coords
     /\ ~ is_suspended out
     /\ ((forall kv, kv ∈ tm -> kv.2 <> []) -> out = Returned tt)).
Proof.
  intros Hrun ts.
  destruct (run_paintTile coords element done tm lt ld wp)
    as (w1 & obs1 & out1 & Hrun1 & H).
  rewrite Hrun in Hrun1. injection Hrun1 as <- <- <-.
  destruct (has2d_of element wp).
  - right. split; [reflexivity |].
    destruct H as (args & bg & overlay & H1 & H2 & H3 & H4 & H5 & H6 & H7).
    exists args, bg, overlay. repeat split; auto.
    destruct out; auto.
  - left. destruct H. auto.
Qed.

(** Where an element with property [P] sits in a list that has only one. *)
Lemma app_cons_unique {A} (P : A -> Prop) (l1 l2 pre post : list A) x x' :
  l1 ++ x :: l2 = pre ++ x' :: post ->
  P x' -> Forall (fun a => ~ P a) l1 -> Forall (fun a => ~ P a) l2 ->
  pre = l1 /\ x' = x /\ post = l2.
Proof.
  revert pre. induction l1 as [| a l1 IH]; intros pre Heq Hx' H1 H2.
  - destruct pre as [| y pre]; simpl in Heq.
    + injection Heq as -> ->. auto.
    + injection Heq as -> ->. exfalso.
      apply Forall_app in H2 as [_ H2]. inversion H2; subst. contradiction.
  - inversion H1 as [| ? ? Ha H1']; subst.
    destruct pre as [| y pre]; simpl in Heq.
    + injection Heq as <- _. contradiction.
    + injection Heq as -> Heq.
      destruct (IH pre Heq Hx' H1' H2) as (-> & -> & ->). auto.
Qed.

Lemma early_not_paint coords TM early :
  Forall (early_ok coords TM) early ->
  Forall (fun o => ~ is_paint o) early /\ Forall (fun o => ~ is_done o) early.
Proof.
  intros H. split; eapply Forall_impl; try exact H;
    intros o Ho; destruct o; simpl in *; tauto.
Qed.

Lemma ctx_not_paint el ops :
  Forall (fun o => ~ is_paint o) (map (obs_ctx el) ops) /\
  Forall (fun o => ~ is_done o) (map (obs_ctx el) ops).
Proof. split; apply Forall_map, Forall_forall; intros op _; simpl; tauto. Qed.
(** ** The system: what a step preserves *)

Lemma preserved_refl w : preserved w w.
Proof. unfold preserved. auto. Qed.

Lemma preserved_trans w1 w2 w3 :
  preserved w1 w2 -> preserved w2 w3 -> preserved w1 w3.
Proof.
  unfold preserved. intros (K1 & L1 & T1 & S1 & M1) (K2 & L2 & T2 & S2 & M2).
  repeat split; try congruence; intros el; now rewrite K2, K1.
Qed.

Lemma untouched_refl el w : untouched el w w.
Proof. unfold untouched. auto. Qed.

Lemma untouched_trans el w1 w2 w3 :
  untouched el w1 w2 -> untouched el w2 w3 -> untouched el w1 w3.
Proof.
  unfold untouched. intros (D1 & S1) (D2 & S2). split; [congruence | auto].
Qed.

Lemma key_of_update el el' f w :
  (forall e, Element.key (f e) = Element.key e) ->
  World.key_of el (World.update_element el' f w) = World.key_of el w.
Proof.
  intros Hf. unfold World.key_of, World.update_element. simpl.
  destruct (decide (el' = el)) as [-> | Hne].
  - rewrite list_lookup_alter_eq.
    destruct (World.dom w !! el); simpl; auto.
  - now rewrite list_lookup_alter_ne.
Qed.

Lemma drawn_on_update_ne el el' f w :
  el' <> el ->
  World.drawn_on el (World.update_element el' f w) = World.drawn_on el w.
Proof.
  intros Hne. unfold World.drawn_on, World.update_element. simpl.
  now rewrite list_lookup_alter_ne.
Qed.

Lemma drawn_on_update_same el el' f w :
  (forall e, Element.drawn (f e) = Element.drawn e) ->
  World.drawn_on el (World.update_element el' f w) = World.drawn_on el w.
Proof.
  intros Hf. unfold World.drawn_on, World.update_element. simpl.
  destruct (decide (el' = el)) as [-> | Hne].
  - rewrite list_lookup_alter_eq.
    destruct (World.dom w !! el); simpl; auto.
  - now rewrite list_lookup_alter_ne.
Qed.

Lemma preserved_update el f w :
  (forall e, Element.key (f e) = Element.key e) ->
  preserved w (World.update_element el f w).
Proof.
  intros Hf. repeat split; try reflexivity.
  - intros el'. now apply key_of_update.
  - unfold World.update_element. simpl. apply length_alter.
Qed.

Lemma handle_preserved {X} (e : Ev X) w :
  preserved w (handle e w).1.1.
Proof.
  destruct e; simpl; try apply preserved_refl;
    try (repeat split; reflexivity);
    try (apply preserved_update; intros []; reflexivity).
  - match goal with
    | |- context [World.paint ?w0 ?e ?a] =>
        destruct (World.paint w0 e a) as [ms picked]; simpl;
        apply (preserved_trans _
                 (World.update_element e (Element.draw (painted a)) w0));
        [apply preserved_update; intros []; reflexivity |
         repeat split; reflexivity]
    end.
  - destruct done; [apply preserved_refl | repeat split; reflexivity].
Qed.

Lemma run_preserved {A} (p : Prog A) w : preserved w (run p w).1.1.
Proof.
  revert w. induction p as [a | X e k IH | X s k IH | msg]; intros w; simpl;
    try apply preserved_refl.
  pose proof (handle_preserved e w) as He.
  destruct (handle e w) as [[w1 obs1] x]. simpl in He.
  specialize (IH x w1). destruct (run (k x) w1) as [[w2 obs2] out].
  simpl in *. eapply preserved_trans; eauto.
Qed.

Lemma handle_untouched {X} (e : Ev X) el0 el w :
  ev_confined el0 e -> el <> el0 -> untouched el w (handle e w).1.1.
Proof.
  intros Hc Hne.
  destruct e; simpl in *; subst; try apply untouched_refl;
    try (split; [now apply drawn_on_update_ne | now auto]);
    try (split; [reflexivity | now auto]).
  - match goal with
    | |- context [World.paint ?w0 ?e ?a] =>
        destruct (World.paint w0 e a) as [ms picked]
    end.
    simpl. split; [| auto].
    unfold World.drawn_on. simpl. now rewrite list_lookup_alter_ne.
  - destruct done as [| f el']; [apply untouched_refl |]. subst.
    split; [reflexivity |]. simpl. intros f' Hin.
    apply in_app_or in Hin as [Hin | [Hin | []]]; [assumption |].
    congruence.
Qed.

Lemma run_confined {A} (p : Prog A) el0 el w :
  confined el0 p -> el <> el0 ->
  untouched el w (run p w).1.1 /\
  match (run p w).2 with
  | Suspended s k => forall x, confined el0 (k x)
  | _ => True
  end.
Proof.
  revert w. induction p as [a | X e k IH | X s k IH | msg]; intros w Hc Hne;
    simpl in *; try (split; [apply untouched_refl | auto]).
  destruct Hc as [He Hk].
  pose proof (handle_untouched e el0 el w He Hne) as Hu.
  destruct (handle e w) as [[w1 obs1] x]. simpl in Hu.
  destruct (IH x w1 (Hk x) Hne) as [Hu' Hk'].
  destruct (run (k x) w1) as [[w2 obs2] out]. simpl in *.
  split; [eapply untouched_trans; eauto | exact Hk'].
Qed.

Lemma run_confined_cont {A} (p : Prog A) el0 w :
  confined el0 p ->
  match (run p w).2 with
  | Suspended s k => forall x, confined el0 (k x)
  | _ => True
  end.
Proof.
  revert w. induction p as [a | X e k IH | X s k IH | msg]; intros w Hc;
    simpl in *; auto.
  destruct Hc as [He Hk].
  destruct (handle e w) as [[w1 obs1] x].
  specialize (IH x w1 (Hk x)).
  destruct (run (k x) w1) as [[w2 obs2] out]. exact IH.
Qed.
Lemma confined_bind el {A B} (p : Prog A) (f : A -> Prog B) :
  confined el p -> (forall a, confined el (f a)) -> confined el (bind p f).
Proof.
  induction p as [a | X e k IH | X s k IH | msg]; simpl; auto.
  intros [He Hk] Hf. split; auto.
Qed.

Lemma confined_for_of el {A S} (xs : list A) (acc : S)
    (body : S -> A -> Prog S) :
  (forall acc x, confined el (body acc x)) ->
  confined el (for_of xs acc body).
Proof.
  intros Hb. revert acc. induction xs as [| x xs IH]; intros acc.
  - exact I.
  - cbn [for_of]. apply confined_bind; auto.
Qed.

Lemma draws_only_confined el {A} (p : Prog A) :
  draws_only el p -> confined el p.
Proof.
  induction p as [a | X e k IH | X s k IH | msg]; simpl; auto.
  - intros [He Hk]. split; auto. destruct e; simpl; auto; contradiction.
  - intros [].
Qed.

Ltac confined_step :=
  match goal with
  | |- confined _ (bind _ _) => apply confined_bind; [| intros ?]
  | |- confined _ (mbind _ _) => apply confined_bind; [| intros ?]
  | |- confined _ (for_of _ _ _) => apply confined_for_of; intros ? ?
  | |- confined _ (trigger _) => simpl; auto
  | |- confined _ (await _) => simpl; auto
  | |- confined _ (Ret _) => exact I
  | |- confined _ (Throw _) => exact I
  | |- confined _ (when ?c _) => unfold when; destruct c
  | |- confined _ (if ?c then _ else _) => destruct c
  | |- confined _ (match ?c with _ => _ end) => destruct c
  end.

Lemma confined_stale el element key coords :
  confined el (stale element key coords).
Proof. unfold stale. repeat confined_step. Qed.

Lemma confined_paintTile coords element done tm lt ld :
  done_ok element done ->
  confined element (paintTile coords element done tm lt ld).
Proof.
  intros Hd. unfold paintTile.
  repeat confined_step;
    try (apply draws_only_confined, draws_only_debugOverlay);
    try (destruct done; simpl in *; auto).
Qed.

Lemma confined_afterTimer coords element key done tm lt ld :
  done_ok element done ->
  confined element (renderTile_afterTimer coords element key done tm lt ld).
Proof.
  intros Hd. unfold renderTile_afterTimer.
  apply confined_bind; [apply confined_stale |].
  intros []; [exact I | now apply confined_paintTile].
Qed.

Lemma confined_afterAdd coords element key done tm lt :
  done_ok element done ->
  confined element (renderTile_afterAdd coords element key done tm lt).
Proof.
  intros Hd. unfold renderTile_afterAdd.
  apply confined_bind; [apply confined_stale |].
  intros []; [exact I |]. prog_cbn. split; [exact I |]. intros ld.
  split; [exact I |]. intros this.
  destruct (Layer._map this); prog_cbn; auto.
  intros []. now apply confined_afterTimer.
Qed.

Lemma confined_afterTasks coords element key done tm :
  done_ok element done ->
  confined element (renderTile_afterTasks coords element key done tm).
Proof.
  intros Hd. unfold renderTile_afterTasks.
  apply confined_bind; [apply confined_stale |].
  intros []; [exact I |]. prog_cbn. intros lt. now apply confined_afterAdd.
Qed.

Lemma confined_afterFetch coords element key done promises settled :
  done_ok element done ->
  confined element
    (renderTile_afterFetch coords element key done promises settled).
Proof.
  intros Hd. unfold renderTile_afterFetch.
  apply confined_bind.
  { apply confined_for_of. intros acc []; simpl; auto.
    destruct (decide _); simpl; auto. }
  intros tm. apply confined_bind; [apply confined_stale |].
  intros []; [exact I |]. prog_cbn. split; [exact I |]. intros this [].
  now apply confined_afterTasks.
Qed.

Lemma afterFetch_ok coords element key done promises settled :
  done_ok element done ->
  task_ok element key coords
    (renderTile_afterFetch coords element key done promises settled).
Proof.
  intros Hd. split; [| split].
  - apply collect_then_gate_aborts.
  - apply afterFetch_gated.
  - now apply confined_afterFetch.
Qed.

(** A suspended invocation that is in order stays so when it goes on. *)
Lemma task_ok_cont element key coords (q : Prog unit) w :
  task_ok element key coords q ->
  match (run q w).2 with
  | Suspended s k => forall x, task_ok element key coords (k x)
  | _ => True
  end.
Proof.
  intros (_ & Hg & Hc).
  pose proof (gated_run _ q w Hg) as H1.
  pose proof (run_confined_cont q element w Hc) as H2.
  destruct (run q w) as [[w1 obs1] out]. simpl in *.
  destruct out as [a | m | X s k]; auto.
  intros x. destruct (H1 x) as [Ha Hg']. repeat split; auto.
Qed.

(** [this.renderTile(...)], not awaited: the zoom is recorded, the fetches
    are started, and the invocation is pending. *)
Lemma call_renderTile_eq coords element key done s :
  let w := Sys.world s in
  let promises :=
    map (fun kv => (kv.1, World.getDisplayTile w kv.2 coords))
        (Layer.views (World.this w)) in
  call_renderTile coords element key done s =
  Sys.mk
    (World.set_this
       (Layer.set_lastRequestedZ (Some (Coords.z coords)) (World.this w)) w)
    (Sys.pending s ++
     [Invocation.mk coords element key done (Sys.now s) _
        (AwaitAllSettled (promises.*2))
        (renderTile_afterFetch coords element key done promises)])
    (Sys.timeouts s) (Sys.now s).
Proof.
  intros w promises. unfold call_renderTile. rewrite run_renderTile.
  reflexivity.
Qed.
Lemma spares_refl el w : spares el w w.
Proof. intros H. split; [assumption | apply untouched_refl]. Qed.

Lemma spares_trans el w1 w2 w3 :
  spares el w1 w2 -> spares el w2 w3 -> spares el w1 w3.
Proof.
  intros H12 H23 Hd. destruct (H12 Hd) as [Hd2 Hu2].
  destruct (H23 Hd2) as [Hd3 Hu3]. split; [assumption |].
  eapply untouched_trans; eauto.
Qed.

Lemma spares_foldl {A} el (f : World.t -> A -> World.t) (xs : list A) w :
  (forall w x, spares el w (f w x)) -> spares el w (foldl f w xs).
Proof.
  intros Hf. revert w. induction xs as [| x xs IH]; intros w; simpl.
  - apply spares_refl.
  - eapply spares_trans; [apply Hf | apply IH].
Qed.

(** A change that keeps the elements and the readiness callbacks. *)
Lemma spares_same el w w' :
  World.dom w' = World.dom w -> World.shown w' = World.shown w ->
  spares el w w'.
Proof.
  intros Hdom Hshown [Hk Hl]. unfold dead, untouched, World.key_of,
    World.drawn_on. rewrite Hdom, Hshown. auto.
Qed.

Lemma spares_preserved_untouched el w w' :
  preserved w w' -> untouched el w w' -> spares el w w'.
Proof.
  intros (Hk & Hl & _) Hu [Hkey Hlen]. split; [| assumption].
  split; [now rewrite Hk | now rewrite Hl].
Qed.

Lemma spares_add_logs el logs w : spares el w (add_logs logs w).
Proof.
  destruct (add_logs_fields logs w) as (_ & Hd & Hs & _).
  now apply spares_same.
Qed.

(** Resuming an invocation that is in order spares a dead element: if it
    is the invocation's own, the gate fails; if not, the invocation does
    not touch it. *)
Lemma spares_run el element key coords (q : Prog unit) w :
  task_ok element key coords q -> spares el w (run q w).1.1.
Proof.
  intros (Ha & _ & Hc) Hd. destruct (decide (el = element)) as [-> | Hne].
  - destruct (Ha w) as (logs & ->).
    { left. destruct Hd as [-> _]. discriminate. }
    simpl. now apply spares_add_logs.
  - apply spares_preserved_untouched; [apply run_preserved | | assumption].
    now apply (run_confined q element el w Hc Hne).
Qed.

Lemma spares_update_key_none el el' f w :
  (forall e, Element.key (f e) = None) ->
  (forall e, Element.drawn (f e) = Element.drawn e) ->
  spares el w (World.update_element el' f w).
Proof.
  intros Hk Hdr [Hkey Hlen]. split; [split |].
  - unfold World.key_of, World.update_element in *. simpl.
    destruct (decide (el' = el)) as [-> | Hne].
    + rewrite list_lookup_alter_eq.
      destruct (World.dom w !! el); simpl; auto.
    + now rewrite list_lookup_alter_ne.
  - unfold World.update_element. simpl. now rewrite length_alter.
  - split; [now apply drawn_on_update_same | auto].
Qed.

Lemma spares_set_this el l w w' :
  spares el w w' -> spares el w (World.set_this l w').
Proof.
  intros H. eapply spares_trans; [exact H |]. now apply spares_same.
Qed.

Lemma spares_set_fired el l w w' :
  spares el w w' -> spares el w (World.set_fired l w').
Proof.
  intros H. eapply spares_trans; [exact H |]. now apply spares_same.
Qed.

Lemma spares_removeTile el key w : spares el w (_removeTile key w).
Proof.
  unfold _removeTile. destruct (JsMap.get key _) as [tile |];
    [| apply spares_refl].
  apply spares_set_fired, spares_set_this.
  apply spares_update_key_none; intros []; reflexivity.
Qed.

Lemma spares_create_canvas el w : spares el w (create_canvas w).2.
Proof.
  intros [Hkey Hlen]. unfold create_canvas, dead, untouched, World.key_of,
    World.drawn_on in *. simpl.
  rewrite lookup_app_l by assumption. rewrite length_app. simpl.
  repeat split; auto. lia.
Qed.

Lemma spares_update_other el el' f w :
  el' <> el -> spares el w (World.update_element el' f w).
Proof.
  intros Hne [Hkey Hlen]. split; [split |].
  - unfold World.key_of, World.update_element in *. simpl.
    now rewrite list_lookup_alter_ne.
  - unfold World.update_element. simpl. now rewrite length_alter.
  - split; [now apply drawn_on_update_ne | auto].
Qed.
Lemma keeps_refl el s : keeps el s s.
Proof. intros H. split; [assumption | apply spares_refl]. Qed.

Lemma keeps_trans el s1 s2 s3 :
  keeps el s1 s2 -> keeps el s2 s3 -> keeps el s1 s3.
Proof.
  intros H12 H23 Hwf. destruct (H12 Hwf) as [Hwf2 Hs2].
  destruct (H23 Hwf2) as [Hwf3 Hs3]. split; [assumption |].
  eapply spares_trans; eauto.
Qed.

Lemma keeps_foldl {A} el (f : Sys.t -> A -> Sys.t) (xs : list A) s :
  (forall s x, keeps el s (f s x)) -> keeps el s (foldl f s xs).
Proof.
  intros Hf. revert s. induction xs as [| x xs IH]; intros s; simpl.
  - apply keeps_refl.
  - eapply keeps_trans; [apply Hf | apply IH].
Qed.

(** A change of the world alone. *)
Lemma keeps_on_world el f s :
  spares el (Sys.world s) (f (Sys.world s)) -> keeps el s (Sys.on_world f s).
Proof. intros H Hwf. split; [exact Hwf | exact H]. Qed.

Lemma keeps_call_renderTile el coords element key done s :
  done_ok element done ->
  keeps el s (call_renderTile coords element key done s).
Proof.
  intros Hd Hwf. rewrite call_renderTile_eq. split.
  - unfold wf. simpl. apply Forall_app. split; [exact Hwf |].
    constructor; [| constructor]. intros x. now apply afterFetch_ok.
  - simpl. now apply spares_same.
Qed.

Lemma keeps_rerenderTile el key s : keeps el s (rerenderTile key s).
Proof.
  unfold rerenderTile. apply keeps_foldl. intros s' kv.
  destruct (decide _); [| apply keeps_refl].
  now apply keeps_call_renderTile.
Qed.

Lemma keeps_rerenderTiles el s : keeps el s (rerenderTiles s).
Proof.
  unfold rerenderTiles. apply keeps_foldl. intros s' kv.
  now apply keeps_call_renderTile.
Qed.

Lemma keeps_onTilesInvalidated el tiles s :
  keeps el s (onTilesInvalidated tiles s).
Proof.
  unfold onTilesInvalidated. apply keeps_foldl. intros s' t.
  apply keeps_rerenderTile.
Qed.

Lemma keeps_createTile el coords showTile s :
  keeps el s (createTile coords showTile s).2.
Proof.
  unfold createTile, create_canvas. cbn [fst snd].
  set (element := length (World.dom (Sys.world s))).
  eapply keeps_trans; [| apply keeps_call_renderTile; reflexivity].
  intros Hwf. split; [exact Hwf |]. cbn [Sys.world Sys.set_world].
  intros Hd. assert (Hne : element <> el) by (destruct Hd; unfold element; lia).
  revert Hd. eapply spares_trans; [| eapply spares_trans].
  - apply spares_create_canvas.
  - apply (spares_update_other el element); exact Hne.
  - apply (spares_update_other el element); exact Hne.
Qed.

Lemma keeps_track el key tile s : keeps el s (track key tile s).
Proof. apply keeps_on_world. now apply spares_same. Qed.

Lemma keeps_addTile el coords showTile s :
  keeps el s (_addTile coords showTile s).
Proof.
  unfold _addTile.
  pose proof (keeps_createTile el
                (GridLayer._wrapCoords (Layer.super (Sys.this s)) coords)
                showTile s) as H.
  destruct (createTile _ showTile s) as [tile s1]. simpl in H.
  eapply keeps_trans; [exact H | apply keeps_track].
Qed.

Lemma keeps_redraw el visible s : keeps el s (redraw visible s).
Proof.
  unfold redraw. destruct (Layer._map (Sys.this s)); [| apply keeps_refl].
  eapply keeps_trans; [| apply keeps_foldl; intros s' cv; apply keeps_addTile].
  intros Hwf. split; [exact Hwf |]. simpl.
  apply spares_foldl. intros w k. apply spares_removeTile.
Qed.

Lemma keeps_set_timeouts el l s s' :
  keeps el s s' -> keeps el s (Sys.set_timeouts l s').
Proof. intros H Hwf. destruct (H Hwf). split; assumption. Qed.

Lemma keeps_click el event visible s :
  keeps el s (_onLayerClick event visible s).
Proof.
  unfold _onLayerClick. destruct (Layer._map (Sys.this s));
    [| apply keeps_refl].
  apply keeps_set_timeouts. eapply keeps_trans; [| apply keeps_redraw].
  intros Hwf. split; [exact Hwf |]. now apply spares_same.
Qed.

Lemma spares_pickTimeout el event w : spares el w (pickTimeout event w).
Proof.
  unfold pickTimeout. destruct (Layer.pickedFeatures _) as [[| p l] |];
    try apply spares_refl; now apply spares_same.
Qed.

Lemma wf_settle coords element key done out s :
  (match out with
   | Suspended s k => forall x, task_ok element key coords (k x)
   | _ => True
   end) ->
  wf s -> wf (settle coords element key done out s).
Proof.
  intros Hout Hwf. destruct out as [a | m | X on k]; try exact Hwf.
  unfold wf. simpl. apply Forall_app. split; [exact Hwf |].
  constructor; [| constructor]. exact Hout.
Qed.

Lemma keeps_advance el coords element key done a q s :
  task_ok element key coords q ->
  keeps el s (advance coords element key done a q s).
Proof.
  intros Hq Hwf. unfold advance.
  pose proof (spares_run el element key coords q (Sys.world s) Hq) as Hsp.
  pose proof (task_ok_cont element key coords q (Sys.world s) Hq) as Hk.
  destruct (run q (Sys.world s)) as [[w1 obs1] out]. simpl in Hsp, Hk.
  destruct out as [r | m | X on k]; [now split | now split |].
  destruct on as [ps | ts | z tm | d];
    try (split; [apply wf_settle; [exact Hk | exact Hwf] | exact Hsp]).
  destruct (keeps_onTilesInvalidated el (Answers.invalidated a)
              (Sys.set_world w1 s) Hwf) as [Hwf1 Hsp1].
  set (s1 := onTilesInvalidated (Answers.invalidated a) (Sys.set_world w1 s))
    in *.
  pose proof (spares_run el element key coords _ (Sys.world s1)
                (Hk (Answers.layoutTime a))) as Hsp2.
  pose proof (task_ok_cont element key coords _ (Sys.world s1)
                (Hk (Answers.layoutTime a))) as Hk2.
  destruct (run (k (Answers.layoutTime a)) (Sys.world s1))
    as [[w2 obs2] out2]. simpl in Hsp2, Hk2.
  split.
  - apply wf_settle; [exact Hk2 | exact Hwf1].
  - assert (Hw : Sys.world
                   (settle coords element key done out2 (Sys.set_world w2 s1))
                 = w2) by (destruct out2; reflexivity).
    rewrite Hw. eapply spares_trans; [exact Hsp |].
    eapply spares_trans; [exact Hsp1 | exact Hsp2].
Qed.

Lemma keeps_step el a s : keeps el s (step a s).
Proof.
  destruct a as [coords showTile | key | m | key | | event visible | i | i a
                 | dt]; simpl.
  - apply keeps_addTile.
  - apply keeps_on_world, spares_removeTile.
  - apply keeps_on_world. now apply spares_same.
  - apply keeps_rerenderTile.
  - apply keeps_rerenderTiles.
  - apply keeps_click.
  - destruct (Sys.timeouts s !! i) as [t |]; [| apply keeps_refl].
    destruct (bool_decide _); [| apply keeps_refl].
    intros Hwf. split; [exact Hwf | apply spares_pickTimeout].
  - destruct (Sys.pending s !! i) as [inv |] eqn:Hi; [| apply keeps_refl].
    destruct (ready inv (Sys.now s)); [| apply keeps_refl].
    intros Hwf.
    pose proof (Forall_lookup_1 _ _ _ _ Hwf Hi) as Hinv.
    apply (keeps_advance el (Invocation.coords inv) (Invocation.element inv)
             (Invocation.key inv) (Invocation.done inv) a
             (Invocation.resume inv (answer (Invocation.on inv) a))
             (Sys.set_pending (delete i (Sys.pending s)) s)).
    + apply Hinv.
    + unfold wf. simpl. now apply Forall_delete.
  - destruct (bool_decide _); [| apply keeps_refl].
    intros Hwf. split; [exact Hwf | apply spares_refl].
Qed.

Lemma keeps_steps el acts s : keeps el s (steps acts s).
Proof.
  unfold steps. apply keeps_foldl. intros s' a. apply keeps_step.
Qed.
Lemma JsMap_get_set {V} k (v : V) m : JsMap.get k (JsMap.set k v m) = Some v.
Proof.
  induction m as [| [k' v'] m IH]; simpl.
  - now rewrite decide_True.
  - destruct (decide (k' = k)) as [-> | Hne]; simpl.
    + now rewrite decide_True.
    + now rewrite decide_False.
Qed.

Lemma JsMap_get_delete {V} k (m : JsMap.t V) :
  JsMap.get k (JsMap.delete k m) = None.
Proof.
  unfold JsMap.delete. induction m as [| [k' v'] m IH]; simpl; auto.
  rewrite filter_cons. simpl. destruct (decide (k' <> k)) as [Hne | Heq].
  - simpl. now rewrite decide_False.
  - exact IH.
Qed.

Lemma alter_last {A} (f : A -> A) (l : list A) x :
  alter f (length l) (l ++ [x]) = l ++ [f x].
Proof.
  replace (length l) with (length l + 0)%nat by lia.
  now rewrite alter_app_r.
Qed.


(** What [createTile] does. *)
Lemma createTile_facts coords showTile s :
  let w := Sys.world s in
  let this := World.this w in
  let key := GridLayer._tileCoordsToKey (Layer.super this) coords in
  let el := length (World.dom w) in
  let done := done_showTile showTile el in
  let promises :=
    map (fun kv => (kv.1, World.getDisplayTile w kv.2 coords))
        (Layer.views this) in
  let s1 := (createTile coords showTile s).2 in
  (createTile coords showTile s).1 = el /\
  World.dom (Sys.world s1) =
    World.dom w ++
    [Element.mk (Some key) false (Layer.lang this) 300 150
       (World.canvas2d w) false false []] /\
  World.shown (Sys.world s1) = World.shown w /\
  World.this (Sys.world s1) =
    Layer.set_lastRequestedZ (Some (Coords.z coords)) this /\
  Sys.pending s1 =
    Sys.pending s ++
    [Invocation.mk coords el key done (Sys.now s) _
       (AwaitAllSettled (promises.*2))
       (renderTile_afterFetch coords el key done promises)] /\
  Sys.timeouts s1 = Sys.timeouts s /\ Sys.now s1 = Sys.now s.
Proof.
  intros w this key el done promises s1. subst s1.
  unfold createTile, create_canvas. cbn [fst snd].
  rewrite call_renderTile_eq. cbn [fst snd Sys.world Sys.set_world
    Sys.pending Sys.timeouts Sys.now World.dom World.shown World.this
    World.set_this World.set_dom World.update_element World.getDisplayTile
    Layer.views Layer.super Layer.lang].
  fold w. rewrite !alter_last. cbn.
  repeat split; reflexivity.
Qed.
Lemma wf_steps_from_idle acts s : Sys.pending s = [] -> wf (steps acts s).
Proof.
  intros H. apply (keeps_steps 0%nat acts s). unfold wf. rewrite H.
  constructor.
Qed.








Lemma fulfilled_sources_singletons views fetch settled kv :
  kv ∈ fulfilled_sources views fetch settled -> exists v, kv.2 = [v].
Proof.
  unfold fulfilled_sources. intros H. apply list_elem_of_omap in H.
  destruct H as (kv' & _ & H). destruct (settled (fetch kv'.2)); [| discriminate].
  injection H as <-. simpl. eauto.
Qed.

Lemma errors_logged_none obs :
  Forall (fun o => match o with obs_log (log_error _) => False | _ => True end)
         obs ->
  errors_logged obs = [].
Proof.
  induction 1 as [| o obs Ho _ IH]; [reflexivity |].
  unfold errors_logged in *. simpl.
  destruct o as [| | [e | s] | | | | | | | | |]; simpl in *; auto; contradiction.
Qed.

Lemma paint_stage_errors coords element done tm lt ld wp w' obsP out :
  run (paintTile coords element done tm lt ld) wp = (w', obsP, out) ->
  errors_logged obsP = [].
Proof.
  intros Hrun. apply errors_logged_none. apply paintTile_trace in Hrun.
  destruct Hrun as [(_ & -> & _) | (_ & args & bg & overlay & -> & _)].
  - repeat constructor.
  - rewrite !Forall_app, !Forall_cons, !Forall_app.
    repeat split; try exact I;
      try (apply Forall_map, Forall_forall; intros; exact I).
    + constructor.
    + destruct out; repeat constructor.
Qed.

Lemma paint_stage_paint coords element done tm lt ld wp w' obsP out el args :
  run (paintTile coords element done tm lt ld) wp = (w', obsP, out) ->
  In (obs_paint el args) obsP ->
  el = element /\ PaintArgs.preparedTilemap args = tm.
Proof.
  intros Hrun Hin. apply paintTile_trace in Hrun.
  destruct Hrun as [(_ & -> & _) |
                    (_ & args' & bg & overlay & -> & _ & _ & Htm & _)].
  - simpl in Hin. intuition discriminate.
  - apply in_app_or in Hin as [Hin | Hin].
    { simpl in Hin. intuition discriminate. }
    apply in_app_or in Hin as [Hin | Hin].
    { apply in_map_iff in Hin as (? & ? & _). discriminate. }
    destruct Hin as [Hin | Hin].
    { injection Hin as <- <-. auto. }
    apply in_app_or in Hin as [Hin | Hin].
    { apply in_map_iff in Hin as (? & ? & _). discriminate. }
    destruct out; simpl in Hin; intuition discriminate.
Qed.



(** ** The pick cycle *)

Lemma removeTile_tiles key w :
  Layer._tiles (World.this (_removeTile key w))
  = JsMap.delete key (Layer._tiles (World.this w)).
Proof.
  unfold _removeTile.
  destruct (JsMap.get key (Layer._tiles (World.this w))) as [tile |] eqn:Hget;
    [reflexivity |].
  unfold JsMap.delete. symmetry.
  induction (Layer._tiles (World.this w)) as [| [k v] m IH]; [reflexivity |].
  simpl in Hget. rewrite filter_cons. simpl.
  destruct (decide (k = key)) as [-> | Hne]; [discriminate |].
  rewrite decide_True by assumption. f_equal. now apply IH.
Qed.

Lemma removeTile_light key w :
  let w' := _removeTile key w in
  Layer.pointer (World.this w') = Layer.pointer (World.this w) /\
  Layer.pickedFeatures (World.this w') = Layer.pickedFeatures (World.this w) /\
  Layer.super (World.this w') = Layer.super (World.this w) /\
  Layer._map (World.this w') = Layer._map (World.this w) /\
  length (World.dom w') = length (World.dom w).
Proof.
  unfold _removeTile.
  destruct (JsMap.get key (Layer._tiles (World.this w))) as [tile |]; simpl;
    repeat split; auto.
  apply length_alter.
Qed.

Lemma removeAll_light ks w :
  let w' := foldl (fun w k => _removeTile k w) w ks in
  Layer.pointer (World.this w') = Layer.pointer (World.this w) /\
  Layer.pickedFeatures (World.this w') = Layer.pickedFeatures (World.this w) /\
  Layer.super (World.this w') = Layer.super (World.this w) /\
  Layer._map (World.this w') = Layer._map (World.this w) /\
  length (World.dom w') = length (World.dom w).
Proof.
  revert w. induction ks as [| k ks IH]; intros w; simpl; [auto |].
  destruct (IH (_removeTile k w)) as (-> & -> & -> & -> & ->).
  apply removeTile_light.
Qed.

Lemma removeAll_tiles_sub ks w kv :
  kv ∈ Layer._tiles (World.this (foldl (fun w k => _removeTile k w) w ks)) ->
  kv ∈ Layer._tiles (World.this w) /\ kv.1 ∉ ks.
Proof.
  revert w. induction ks as [| k ks IH]; intros w; simpl.
  - intros H. split; [assumption |]. apply not_elem_of_nil.
  - intros H. apply IH in H as [Hin Hks]. rewrite removeTile_tiles in Hin.
    unfold JsMap.delete in Hin. apply list_elem_of_filter in Hin as [Hne Hin].
    split; [assumption |]. apply not_elem_of_cons. auto.
Qed.

Lemma removeAll_tiles w :
  Layer._tiles
    (World.this
       (foldl (fun w k => _removeTile k w) w
              (JsMap.keys (Layer._tiles (World.this w))))) = [].
Proof.
  destruct (Layer._tiles (World.this (foldl _ w _))) as [| kv l] eqn:H;
    [reflexivity |].
  exfalso.
  assert (Hin : kv ∈ Layer._tiles
                  (World.this
                     (foldl (fun w k => _removeTile k w) w
                        (JsMap.keys (Layer._tiles (World.this w))))))
    by (rewrite H; left).
  apply removeAll_tiles_sub in Hin as [Hin Hnot]. apply Hnot.
  unfold JsMap.keys. now apply list_elem_of_fmap_2.
Qed.

Lemma JsMap_get_set_ne {V} k k' (v : V) m :
  k <> k' -> JsMap.get k' (JsMap.set k v m) = JsMap.get k' m.
Proof.
  intros Hne. induction m as [| [k0 v0] m IH]; simpl.
  - now rewrite decide_False.
  - destruct (decide (k0 = k)) as [-> | Hne0]; simpl.
    + now rewrite !decide_False.
    + destruct (decide (k0 = k')); auto.
Qed.

Lemma addTile_facts coords showTile s :
  let s' := _addTile coords showTile s in
  let super := Layer.super (Sys.this s) in
  pick_state s' = pick_state s /\ grows 1 s s' /\
  Layer._tiles (Sys.this s') =
    JsMap.set (GridLayer._tileCoordsToKey super coords)
      (Tile.mk (length (World.dom (Sys.world s))) coords true)
      (Layer._tiles (Sys.this s)).
Proof.
  unfold _addTile.
  destruct (createTile_facts
              (GridLayer._wrapCoords (Layer.super (Sys.this s)) coords)
              showTile s)
    as (Hel & Hdom & _ & Hthis & Hpending & Htime & Hnow).
  destruct (createTile _ showTile s) as [tile s1]. simpl in *. subst tile.
  unfold pick_state, grows, track, Sys.on_world, Sys.this. simpl.
  rewrite Hthis, Hpending, Hdom, Htime, Hnow, !length_app. simpl.
  repeat split; auto; lia.
Qed.

Lemma addTiles_facts visible s :
  let s' := foldl (fun s cv => _addTile cv.1 cv.2 s) s visible in
  pick_state s' = pick_state s /\ grows (length visible) s s' /\
  forall k tile,
    JsMap.get k (Layer._tiles (Sys.this s')) = Some tile ->
    JsMap.get k (Layer._tiles (Sys.this s)) = Some tile \/
    ((length (World.dom (Sys.world s)) <= Tile.el tile)%nat /\
     exists cv, In cv visible /\
       k = GridLayer._tileCoordsToKey (Layer.super (Sys.this s)) cv.1).
Proof.
  revert s. induction visible as [| cv visible IH]; intros s; simpl.
  - unfold grows. repeat split; auto.
  - destruct (addTile_facts cv.1 cv.2 s) as (Hp & [Hg1 Hg2] & Htiles).
    destruct (IH (_addTile cv.1 cv.2 s)) as (Hp' & [Hg1' Hg2'] & Htiles').
    assert (Hsuper : Layer.super (Sys.this (_addTile cv.1 cv.2 s))
                     = Layer.super (Sys.this s))
      by (unfold pick_state in Hp; congruence).
    split; [congruence |]. split; [split; lia |].
    intros k tile Hget. apply Htiles' in Hget as [Hget | (Hle & cv' & Hin & ->)].
    + rewrite Htiles in Hget.
      destruct (decide (GridLayer._tileCoordsToKey (Layer.super (Sys.this s))
                          cv.1 = k)) as [<- | Hne].
      * rewrite JsMap_get_set in Hget. injection Hget as <-.
        right. simpl. split; [lia |]. eauto.
      * rewrite JsMap_get_set_ne in Hget by assumption. now left.
    + right. split; [lia |]. exists cv'. rewrite Hsuper. auto.
Qed.

Lemma redraw_facts visible s :
  Layer._map (Sys.this s) <> None ->
  let s' := redraw visible s in
  pick_state s' = pick_state s /\ grows (length visible) s s' /\
  tracked_anew (length (World.dom (Sys.world s))) visible s'.
Proof.
  intros Hmap. unfold redraw.
  destruct (Layer._map (Sys.this s)) as [m |] eqn:Hm; [| contradiction].
  set (s1 := Sys.on_world _ s).
  destruct (removeAll_light (JsMap.keys (Layer._tiles (World.this (Sys.world s))))
              (Sys.world s)) as (Hptr & Hpick & Hsuper & Hmap' & Hlen).
  assert (Htiles1 : Layer._tiles (Sys.this s1) = [])
    by apply removeAll_tiles.
  assert (Hp1 : pick_state s1 = pick_state s).
  { unfold pick_state, s1, Sys.this, Sys.on_world. simpl.
    now rewrite Hptr, Hpick, Hsuper, Hmap'. }
  destruct (addTiles_facts visible s1) as (Hp & [Hg1 Hg2] & Htiles).
  split; [congruence |]. split.
  - split; [exact Hg1 |]. rewrite Hg2. unfold s1. simpl. now rewrite Hlen.
  - intros k tile Hget.
    assert (Hsup : Layer.super (Sys.this (foldl (fun s cv => _addTile cv.1 cv.2 s)
                                             s1 visible))
                   = Layer.super (Sys.this s1))
      by (unfold pick_state in Hp; congruence).
    apply Htiles in Hget as [Hget | (Hle & cv & Hin & ->)].
    + rewrite Htiles1 in Hget. discriminate.
    + split.
      * unfold s1 in Hle. simpl in Hle. rewrite Hlen in Hle. exact Hle.
      * exists cv. rewrite Hsup. auto.
Qed.

(** C7.  When [renderTile] reaches the paint stage for the tile [(z, x, y)],
    the bounding box it passes to [paint] is the tile's extent in the
    256-unit space, [256 x, 256 y] to [256 (x + 1), 256 (y + 1)], widened
    by 16 units on each side, and the origin is [(256 x, 256 y)]; the
    canvas was sized to [tileSize] and its context scaled by
    [tileSize / 256] just before, which for a layer from the constructor
    is the device pixel ratio. *)
Theorem paint_bbox_buffered coords element key done sched w w' obs out
    pre el args post :
  exec sched (renderTile coords element key done) w = (w', obs, out) ->
  obs = pre ++ obs_paint el args :: post ->
  el = element /\
  PaintArgs.bbox args =
    BBox.mk (256 * Coords.x coords - 16) (256 * Coords.y coords - 16)
            (256 * (Coords.x coords + 1) + 16)
            (256 * (Coords.y coords + 1) + 16) /\
  PaintArgs.origin args =
    Point.mk (IZR (256 * Coords.x coords)) (IZR (256 * Coords.y coords)) /\
  (exists d wp early bg,
     let ts := Layer.tileSize (World.this wp) in
     In (obs_resume (at_timer d) wp) early /\
     pre = early ++
           [obs_width element ts; obs_height element ts;
            obs_getContext element;
            obs_ctx element (setTransform (ts / 256) 0 0 (ts / 256) 0 0);
            obs_ctx element (clearRect 0 0 256 256)] ++
           map (obs_ctx element) bg) /\
  (forall env options,
     (Layer.tileSize (LeafletLayer env options) / 256)%R
     = Env.devicePixelRatio env).
Proof.
  intros Hex Hobs. apply shape_renderTile in Hex.
  destruct Hex as (early & Hearly & _ & Hcases).
  destruct (early_not_paint _ _ _ Hearly) as [Hnp _].
  assert (Hdpr : forall env options,
            (Layer.tileSize (LeafletLayer env options) / 256)%R
            = Env.devicePixelRatio env).
  { intros env options. unfold LeafletLayer.
    destruct (Options.theme options) as [theme |];
      [destruct (bool_decide (theme <> "")) |]; simpl; lra. }
  destruct Hcases as [(-> & _) |
                      (wp & tm & lt & ld & obsP & -> & Hrun & _ & Hwp)].
  { exfalso. rewrite Hobs in Hnp. apply Forall_app in Hnp as [_ Hnp].
    inversion Hnp; subst. simpl in *. tauto. }
  destruct Hwp as [[[] _] | (d & Hd)].
  apply paintTile_trace in Hrun.
  destruct Hrun as [(_ & -> & _) |
                    (_ & args' & bg & overlay & -> & Hb & Ho & _)].
  { exfalso. apply (f_equal (Forall (fun o => ~ is_paint o))) in Hobs.
    assert (Hall : Forall (fun o => ~ is_paint o)
                     (pre ++ obs_paint el args :: post)).
    { rewrite <- Hobs. apply Forall_app. split; [assumption |].
      repeat constructor; simpl; tauto. }
    apply Forall_app in Hall as [_ Hall]. inversion Hall; subst.
    simpl in *. tauto. }
  rewrite !app_assoc in Hobs. 
  apply (app_cons_unique is_paint) in Hobs.
  - destruct Hobs as (-> & Heq & _). injection Heq as -> ->.
    repeat split; auto.
    exists d, wp, early, bg. split; [assumption |].
    now rewrite <- !app_assoc.
  - exact I.
  - apply Forall_app. split; [| apply ctx_not_paint].
    apply Forall_app. split; [assumption |].
    repeat constructor; simpl; tauto.
  - apply Forall_app. split; [apply ctx_not_paint |].
    destruct out; repeat constructor; simpl; tauto.
Qed.

Lemma paint_stage_no_suspend coords element done tm lt ld wp w' obsP out s w0 :
  run (paintTile coords element done tm lt ld) wp = (w', obsP, out) ->
  ~ In (obs_suspend s w0) obsP.
Proof.
  intros Hrun Hin. apply paintTile_trace in Hrun.
  destruct Hrun as [(_ & -> & _) |
                    (_ & args' & bg & overlay & -> & _)].
  - simpl in Hin. intuition discriminate.
  - repeat (apply in_app_or in Hin as [Hin | Hin] || simpl in Hin).
    + intuition discriminate.
    + apply in_map_iff in Hin as (? & ? & _). discriminate.
    + destruct Hin as [Hin | Hin]; [discriminate |].
      apply in_app_or in Hin as [Hin | Hin].
      * apply in_map_iff in Hin as (? & ? & _). discriminate.
      * destruct out; simpl in Hin; intuition discriminate.
Qed.

(** C9.  An explicit [tileDelay: 0] does not give a delay factor of zero:
    the constructor's [options.tileDelay || 3] takes every falsy value,
    zero included, to the default 3, so no layer has a zero factor. *)
Theorem tileDelay_zero_is_default env options :
  Options.tileDelay options = Some 0%R ->
  Layer.tileDelay (LeafletLayer env options) = 3%R /\
  (forall options', Layer.tileDelay (LeafletLayer env options') <> 0%R).
Proof.
  assert (Hd : forall o, Layer.tileDelay (LeafletLayer env o)
                         = number_or (Options.tileDelay o) 3).
  { intros o. unfold LeafletLayer.
    destruct (Options.theme o) as [theme |];
      [destruct (bool_decide (theme <> "")) |]; reflexivity. }
  intros H0. split.
  - rewrite Hd, H0. unfold number_or.
    destruct (Req_dec_T 0 0) as [_ | Hne]; [reflexivity | now destruct Hne].
  - intros o. rewrite Hd. unfold number_or.
    destruct (Options.tileDelay o) as [r |]; [| lra].
    destruct (Req_dec_T r 0); [lra | assumption].
Qed.


(** C5, at a click west of the antimeridian: the longitude is not wrapped,
    the normalized abscissa is negative and so is the tile column. *)
Theorem getPointer_west_of_antimeridian :
  let ev := ClickEvent.mk 0 (-190) 0 in
  Point.x (normalized ev) = (- 1 / 36)%R /\
  Point.y (normalized ev) = (1 / 2)%R /\
  Pointer.tileX (_getPointer 256 0 ev) = (- 1)%R.
Proof.
  assert (Hx : Point.x (normalize (project 0 (-190))) = (- 1 / 36)%R).
  { unfold normalize, project, MAXCOORD, EARTH_R. simpl.
    pose proof PI_neq0. field. assumption. }
  assert (Hy : Point.y (normalize (project 0 (-190))) = (1 / 2)%R).
  { assert (Hc : Rmax (Rmin MAX_LATITUDE 0) (- MAX_LATITUDE) = 0%R).
    { unfold MAX_LATITUDE. rewrite Rmin_right by lra.
      rewrite Rmax_left by lra. reflexivity. }
    unfold normalize, project. cbn [Point.x Point.y]. rewrite Hc.
    rewrite Rmult_0_l, sin_0.
    replace ((1 + 0) / (1 - 0))%R with 1%R by field.
    rewrite ln_1. unfold MAXCOORD, EARTH_R. pose proof PI_neq0. field.
    assumption. }
  assert (Hn : normalized (ClickEvent.mk 0 (-190) 0)
               = normalize (project 0 (-190))).
  { unfold normalized, wrapX. cbn [ClickEvent.lat ClickEvent.lng].
    rewrite Hx. destruct (Rlt_dec 1 (-1 / 36)); [lra | reflexivity]. }
  cbv zeta. rewrite Hn. split; [exact Hx |]. split; [exact Hy |].
  unfold _getPointer, onZoom. cbn [Pointer.tileX Point.mult Point.x].
  rewrite Hn, Hx. unfold Math_floor. f_equal.
  change (shl 1 0) with 1. apply Zfloor_eq. simpl. lra.
Qed.


(** C2.  The tile map [renderTile] builds has one entry per source whose
    fetch fulfilled, bound to the one-element sequence of its result, and
    none for a source whose fetch rejected; a rejection named
    ["AbortError"] is not logged, every other one is; and a rejected
    source does not stop the render: if every staleness gate passes, the
    layer is on a map when the label index has been read and the canvas
    gives a 2D context, the tile is painted and [done] is called. *)
Theorem rejected_source_is_omitted coords element key done r sched
    w w' obs out :
  let views := Layer.views (World.this w) in
  let fetch := fun v => World.getDisplayTile w v coords in
  let settled := Answers.settled (Resumption.answers r) in
  NoDup (JsMap.keys views) ->
  exec (r :: sched) (renderTile coords element key done) w = (w', obs, out) ->
  (forall z tm w0, In (obs_suspend (at_add z tm) w0) obs ->
     tm = fulfilled_sources views fetch settled) /\
  (forall el args, In (obs_paint el args) obs ->
     PaintArgs.preparedTilemap args = fulfilled_sources views fetch settled) /\
  errors_logged obs = logged_rejections views fetch settled /\
  (~ is_suspended out ->
   (forall s wr, In (obs_resume s wr) obs ->
      ~ stale_in wr element key coords) ->
   (forall z tm wr, In (obs_resume (at_add z tm) wr) obs ->
      Layer._map (World.this wr) <> None) ->
   (forall d wr, In (obs_resume (at_timer d) wr) obs ->
      has2d_of element wr = true) ->
   out = Returned tt /\
   (exists args, In (obs_paint element args) obs) /\
   In (obs_done done) obs).
Proof.
  intros views fetch settled Hnd Hex. apply shape_renderTile in Hex.
  destruct Hex as (early & Hearly & Hlogs & Hcases).
  assert (HTM : forall tm,
            (exists r' sched', r :: sched = r' :: sched' /\
               tm = tilemap_of []
                      (map (reflect_tile
                              (Answers.settled (Resumption.answers r')))
                           (map (fun kv => (kv.1, fetch kv.2)) views))) ->
            tm = fulfilled_sources views fetch settled).
  { intros tm (r' & sched' & Heq & ->). injection Heq as <- _.
    exact (tilemap_of_fulfilled views fetch settled [] Hnd). }
  assert (Hlogs' : errors_logged early = logged_rejections views fetch settled).
  { rewrite Hlogs. exact (logged_of_rejections views fetch settled). }
  match type of Hearly with
  | Forall ?P early =>
      assert (Hearly' : forall o, In o early -> P o)
        by (intros o Ho; rewrite Forall_forall in Hearly; apply Hearly;
            now apply list_elem_of_In)
  end.
  destruct Hcases as [(-> & Hwhy & _) |
                      (wp & tm & lt & ld & obsP & -> & Hrun & Htm & Hwp)].
  - split; [| split; [| split]].
    + intros z tm w0 Hin. apply HTM. now apply (Hearly' _ Hin).
    + intros el args Hin. destruct (Hearly' _ Hin).
    + exact Hlogs'.
    + intros Hns Hstale Hmap _. exfalso.
      destruct Hwhy as [H | [[] | [[] | [H | H]]]].
      * contradiction.
      * destruct H as (s & wr & Hin & Hst). now apply (Hstale s wr).
      * destruct H as (z & tm & wr & Hin & Hm). now apply (Hmap z tm wr).
  - apply HTM in Htm. subst tm. split; [| split; [| split]].
    + intros z tm w0 Hin. apply in_app_or in Hin as [Hin | Hin].
      * apply HTM. now apply (Hearly' _ Hin).
      * exfalso. eapply paint_stage_no_suspend; eauto.
    + intros el args Hin. apply in_app_or in Hin as [Hin | Hin].
      * destruct (Hearly' _ Hin).
      * now destruct (paint_stage_paint _ _ _ _ _ _ _ _ _ _ _ _ Hrun Hin).
    + rewrite errors_logged_app, Hlogs'.
      rewrite (paint_stage_errors _ _ _ _ _ _ _ _ _ _ Hrun).
      now rewrite app_nil_r.
    + intros _ _ _ H2d. destruct Hwp as [[[] _] | (d & Hd)].
      assert (Hwp : has2d_of element wp = true).
      { apply (H2d d). apply in_or_app. now left. }
      apply paintTile_trace in Hrun.
      destruct Hrun as [(Hno & _) |
                        (_ & args & bg & overlay & -> & _ & _ & _ & _ & _
                         & Hret)]; [congruence |].
      assert (Hout : out = Returned tt).
      { apply Hret. intros kv Hkv.
        destruct (fulfilled_sources_singletons _ _ _ _ Hkv) as (v & ->).
        discriminate. }
      subst out. split; [reflexivity |]. split.
      * exists args. apply in_or_app. right. apply in_or_app. right.
        apply in_or_app. right. now left.
      * apply in_or_app. right. apply in_or_app. right.
        apply in_or_app. right. right. apply in_or_app. right. now left.
Qed.


(** C3.  A click sets the pointer from the event, empties the accumulator
    of picked features and redraws: every tile then tracked has a canvas
    made for it anew, with a render started.  It also sets a timeout
    1000 ms ahead, next to those already pending, which an earlier click
    may have set and which stay as they are.  When a timeout runs, which
    is not before it is due, a click event with the first picked feature
    is fired if the accumulator is not empty, and the pointer is cleared
    in either case. *)
Theorem click_starts_pick_window event visible s _map :
  Layer._map (Sys.this s) = Some _map ->
  let s' := _onLayerClick event visible s in
  Layer.pointer (Sys.this s')
  = Some (_getPointer (Layer.tileSize (Sys.this s)) (HostMap.getZoom _map)
            event) /\
  Layer.pickedFeatures (Sys.this s') = Some [] /\
  grows (length visible) s s' /\
  tracked_anew (length (World.dom (Sys.world s))) visible s' /\
  Sys.timeouts s'
  = Sys.timeouts s ++ [Timeout.mk (Sys.now s + PICK_WINDOW) event] /\
  PICK_WINDOW = 1000%R /\
  Sys.now s' = Sys.now s /\
  (forall i s2,
     step (timeout_fires i) s2 <> s2 ->
     exists t, Sys.timeouts s2 !! i = Some t /\
       (Timeout.due t <= Sys.now s2)%R /\
       step (timeout_fires i) s2
       = Sys.on_world (pickTimeout (Timeout.event t))
           (Sys.set_timeouts (delete i (Sys.timeouts s2)) s2)) /\
  (forall ev w picked,
     Layer.pickedFeatures (World.this w) = Some picked ->
     Layer.pointer (World.this (pickTimeout ev w)) = None /\
     World.fired (pickTimeout ev w)
     = World.fired w ++
       match picked with
       | p :: _ => [fire_click ev (PickedFeature.feature p)]
       | [] => []
       end).
Proof.
  intros Hmap s'. unfold s', _onLayerClick. rewrite Hmap.
  set (s1 := Sys.on_world _ s).
  assert (Hmap1 : Layer._map (Sys.this s1) <> None)
    by (unfold s1, Sys.this; simpl; unfold Sys.this in Hmap; rewrite Hmap;
        discriminate).
  destruct (redraw_facts visible s1 Hmap1) as (Hp & Hg & Htr).
  unfold pick_state in Hp. injection Hp as Hptr Hpick Hsuper Hm Htime Hnow.
  split; [exact Hptr |]. split; [exact Hpick |]. split; [exact Hg |].
  split; [exact Htr |]. split; [simpl; now rewrite Htime, Hnow |].
  split; [reflexivity |]. split; [exact Hnow |]. split.
  - intros i s2 Hstep. simpl in Hstep |- *.
    destruct (Sys.timeouts s2 !! i) as [t |]; [| contradiction].
    destruct (bool_decide (Timeout.due t <= Sys.now s2)%R) eqn:Hdue;
      [| contradiction].
    apply bool_decide_eq_true in Hdue.
    refine (ex_intro _ t _). auto.
  - intros ev w picked Hpicked. unfold pickTimeout. rewrite Hpicked.
    split; [reflexivity |].
    destruct picked; simpl; [now rewrite app_nil_r | reflexivity].
Qed.
(** ** The claims, at the example *)

Lemma resumes_all_spec f obs :
  resumes_all f obs = true ->
  forall s wr, In (obs_resume s wr) obs -> f s wr = true.
Proof.
  unfold resumes_all. rewrite forallb_forall. intros H s wr Hin.
  exact (H _ Hin).
Qed.

Lemma none_paints_or_signals obs :
  existsb paints_or_signals obs = false ->
  (forall el args, ~ In (obs_paint el args) obs) /\
  (forall done, ~ In (obs_done done) obs).
Proof.
  intros H. split; intros; intros Hin;
    assert (Hex : existsb paints_or_signals obs = true)
      by (apply existsb_exists; eexists; split; [exact Hin | reflexivity]);
    congruence.
Qed.

Lemma exec_result {A} sched (p : Prog A) w :
  exec sched p w = ((exec sched p w).1.1, (exec sched p w).1.2,
                    (exec sched p w).2).
Proof. destruct (exec sched p w) as [[? ?] ?]. reflexivity. Qed.

(** C2, as stated, fails where the canvas gives no 2D context: one source
    resolves and one rejects, every staleness gate passes and the
    invocation returns, but nothing is painted and [done] is not called. *)
Lemma rejected_source_without_context :
  let obs := (Example.rendered false).1.2 in
  let out := (Example.rendered false).2 in
  ~ is_suspended out /\
  (forall s wr, In (obs_resume s wr) obs ->
     ~ stale_in wr 0%nat "0:0:0" Example.coords) /\
  ~ ((exists args, In (obs_paint 0%nat args) obs) /\
     In (obs_done (done_showTile 7 0)) obs).
Proof.
  intros obs out. split; [| split].
  - assert (H : out = Returned tt) by (vm_compute; reflexivity).
    rewrite H. intros [].
  - intros s wr Hin.
    assert (H : resumes_all (gate_passes 0%nat "0:0:0" Example.coords) obs
                = true) by (vm_compute; reflexivity).
    apply (resumes_all_spec _ _ H) in Hin. unfold gate_passes in Hin.
    apply negb_true_iff in Hin. now apply stale_inb_false.
  - assert (H : existsb paints_or_signals obs = false)
      by (vm_compute; reflexivity).
    apply none_paints_or_signals in H as [_ H].
    intros [_ Hd]. exact (H _ Hd).
Qed.
(** C2 at the example: of two sources one resolves and one rejects with a
    [TypeError]; the tile is painted with the one source, the error is
    logged, and [done] is called. *)
Lemma rejected_source_is_omitted_witness :
  let obs := (Example.rendered true).1.2 in
  (forall el args, In (obs_paint el args) obs ->
     PaintArgs.preparedTilemap args = [("roads", [Example.tile])]) /\
  errors_logged obs = [Example.failed] /\
  (Example.rendered true).2 = Returned tt /\
  (exists args, In (obs_paint 0%nat args) obs) /\
  In (obs_done (done_showTile 7 0)) obs.
Proof.
  intros obs.
  assert (Hnd : NoDup (JsMap.keys
                         (Layer.views (World.this (Sys.world (Example.shown true)))))).
  { vm_compute. repeat constructor; rewrite ?elem_of_cons, ?elem_of_nil;
      intros H; intuition discriminate. }
  assert (Heq : exec (Example.undisturbed :: [Example.undisturbed; Example.undisturbed; Example.undisturbed]) (renderTile Example.coords 0%nat "0:0:0"
              (done_showTile 7 0)) (Sys.world (Example.shown true)) = ((Example.rendered true).1.1, obs, (Example.rendered true).2)).
  { exact (exec_result _ _ _). }
  destruct (rejected_source_is_omitted _ _ _ _ _ _ _ _ _ _ Hnd Heq)
    as (_ & Hpaint & Hlog & Hprogress).
  split.
  { intros el args Hin. rewrite (Hpaint el args Hin). vm_compute. reflexivity. }
  split.
  { rewrite Hlog. vm_compute. reflexivity. }
  apply Hprogress.
  - assert (H : (Example.rendered true).2 = Returned tt)
      by (vm_compute; reflexivity).
    rewrite H. intros [].
  - intros s wr Hin.
    assert (H : resumes_all (gate_passes 0%nat "0:0:0" Example.coords) obs
                = true) by (vm_compute; reflexivity).
    apply (resumes_all_spec _ _ H) in Hin. unfold gate_passes in Hin.
    apply negb_true_iff in Hin. now apply stale_inb_false.
  - intros z tm wr Hin.
    assert (H : resumes_all on_map_after_add obs = true)
      by (vm_compute; reflexivity).
    apply (resumes_all_spec _ _ H) in Hin. cbn [on_map_after_add] in Hin.
    now apply bool_decide_eq_true in Hin.
  - intros d wr Hin.
    assert (H : resumes_all (context_after_timer 0%nat) obs = true)
      by (vm_compute; reflexivity).
    exact (resumes_all_spec _ _ H _ _ Hin).
Defined.

Lemma resumed_at_spec f i obs :
  resumed_at f i obs = true ->
  exists s wr, obs = take i obs ++ obs_resume s wr :: drop (S i) obs /\
               f wr = true.
Proof.
  unfold resumed_at. destruct (obs !! i) as [[]|] eqn:Hi; try discriminate.
  intros Hf.
  refine (ex_intro _ _ (ex_intro _ _ (conj _ Hf))).
  symmetry. apply take_drop_middle. exact Hi.
Qed.

(** C1 at the example: the tile is removed while its fetches are in
    flight; on resumption [renderTile] logs the rejection and returns. *)
Lemma renderTile_stale_gate_witness :
  let obs := Example.superseded.1.2 in
  exists s wr,
    obs = take 4 obs ++ obs_resume s wr :: drop 5 obs /\
    stale_in wr 0%nat "0:0:0" Example.coords /\
    Example.superseded.2 = Returned tt /\
    World.dom Example.superseded.1.1 = World.dom wr /\
    World.shown Example.superseded.1.1 = World.shown wr /\
    World.this Example.superseded.1.1 = World.this wr /\
    Forall (fun o => is_log o /\ ~ mutates_canvas 0%nat o /\
                     ~ is_done o /\ ~ later_stage o) (drop 5 obs).
Proof.
  intros obs.
  assert (H : resumed_at (fun wr => stale_inb wr 0%nat "0:0:0" Example.coords)
                4 obs = true) by (vm_compute; reflexivity).
  destruct (resumed_at_spec _ _ _ H) as (s & wr & Hobs & Hst).
  apply stale_inb_spec in Hst.
  assert (Heq : exec [Example.removed]
                  (renderTile Example.coords 0%nat "0:0:0" (done_showTile 7 0))
                  (Sys.world (Example.shown true))
                = (Example.superseded.1.1, obs, Example.superseded.2)).
  { exact (exec_result _ _ _). }
  refine (ex_intro _ s (ex_intro _ wr (conj Hobs (conj Hst _)))).
  exact (renderTile_stale_gate _ _ _ _ _ _ _ _ _ _ _ _ _ Heq Hobs Hst).
Defined.


Lemma paint_at_spec i obs :
  paint_at i obs = true ->
  exists el args, obs = take i obs ++ obs_paint el args :: drop (S i) obs.
Proof.
  unfold paint_at. destruct (obs !! i) as [[]|] eqn:Hi; try discriminate.
  intros _. refine (ex_intro _ _ (ex_intro _ _ _)).
  symmetry. apply take_drop_middle. exact Hi.
Qed.


(** C7 at the example: the paint of tile [(0, 0, 0)]. *)
Lemma paint_bbox_buffered_witness :
  let obs := (Example.rendered true).1.2 in
  exists el args,
    obs = take 18 obs ++ obs_paint el args :: drop 19 obs /\
    el = 0%nat /\
    PaintArgs.bbox args = BBox.mk (-16) (-16) 272 272 /\
    PaintArgs.origin args = Point.mk 0 0.
Proof.
  intros obs.
  assert (H : paint_at 18 obs = true) by (vm_compute; reflexivity).
  destruct (paint_at_spec _ _ H) as (el & args & Hobs).
  assert (Heq : exec [Example.undisturbed; Example.undisturbed;
                      Example.undisturbed; Example.undisturbed]
                  (renderTile Example.coords 0%nat "0:0:0"
                     (done_showTile 7 0))
                  (Sys.world (Example.shown true))
                = ((Example.rendered true).1.1, obs,
                   (Example.rendered true).2)).
  { exact (exec_result _ _ _). }
  destruct (paint_bbox_buffered _ _ _ _ _ _ _ _ _ _ _ _ _ Heq Hobs)
    as (Hel & Hbbox & Horigin & _).
  exact (ex_intro _ el (ex_intro _ args
           (conj Hobs (conj Hel (conj Hbbox Horigin))))).
Defined.


(** C9 at the example: the options of the example with [tileDelay: 0]. *)
Lemma tileDelay_zero_is_default_witness :
  let options :=
    Options.mk None None None None (Some 0%R) false None None None 0 None None in
  Options.tileDelay options = Some 0%R /\
  Layer.tileDelay (LeafletLayer Example.env options) = 3%R.
Proof.
  intros options. split; [reflexivity |].
  exact (proj1 (tileDelay_zero_is_default Example.env options eq_refl)).
Defined.





(** *** Clicks and the passing of time, on the pick state *)

Lemma onLayerClick_pick_state event visible s m :
  Layer._map (Sys.this s) = Some m ->
  pick_state (_onLayerClick event visible s)
  = (Some (_getPointer (Layer.tileSize (Sys.this s)) (HostMap.getZoom m) event),
     Some [], Layer.super (Sys.this s), Some m,
     Sys.timeouts s ++ [Timeout.mk (Sys.now s + PICK_WINDOW) event],
     Sys.now s).
Proof.
  intros Hmap. unfold _onLayerClick. rewrite Hmap.
  set (s1 := Sys.on_world _ s).
  assert (Hmap1 : Layer._map (Sys.this s1) <> None)
    by (unfold s1, Sys.this; simpl; unfold Sys.this in Hmap; rewrite Hmap;
        discriminate).
  destruct (redraw_facts visible s1 Hmap1) as (Hp & _).
  unfold pick_state in Hp |- *. injection Hp as Hptr Hpick Hsuper Hm Htime Hnow.
  unfold Sys.this in *. simpl in *.
  rewrite Hptr, Hpick, Hsuper, Hm, Htime, Hnow, Hmap. reflexivity.
Qed.

Lemma pick_state_inv s ptr picked super m timeouts now :
  pick_state s = (ptr, picked, super, m, timeouts, now) ->
  Layer.pointer (Sys.this s) = ptr /\
  Layer.pickedFeatures (Sys.this s) = picked /\
  Layer._map (Sys.this s) = m /\
  Sys.timeouts s = timeouts /\ Sys.now s = now.
Proof.
  unfold pick_state. intros H. injection H as -> -> _ -> -> ->. auto.
Qed.

Lemma elapses_pick_state dt s :
  (0 <= dt)%R ->
  pick_state (step (elapses dt) s)
  = (Layer.pointer (Sys.this s), Layer.pickedFeatures (Sys.this s),
     Layer.super (Sys.this s), Layer._map (Sys.this s), Sys.timeouts s,
     (Sys.now s + dt)%R).
Proof.
  intros Hdt. simpl. rewrite bool_decide_eq_true_2 by exact Hdt. reflexivity.
Qed.

Lemma timeout_fires_due i t s picked :
  Sys.timeouts s !! i = Some t ->
  (Timeout.due t <= Sys.now s)%R ->
  Layer.pickedFeatures (Sys.this s) = Some picked ->
  let s' := step (timeout_fires i) s in
  Layer.pointer (Sys.this s') = None /\
  Sys.timeouts s' = delete i (Sys.timeouts s).
Proof.
  intros Hi Hdue Hpicked. simpl. rewrite Hi.
  rewrite bool_decide_eq_true_2 by exact Hdue.
  unfold Sys.this in *. simpl. unfold pickTimeout. rewrite Hpicked.
  split; reflexivity.
Qed.

(** C3, as stated, fails in that a second click does not restart the
    window: the timeout of the first click stays pending next to that of
    the second, and when it runs, 1000 ms after the first click and 500 ms
    after the second, it clears the pointer the second click has set. *)
Lemma second_click_keeps_first_window :
  let s := steps [click Example.click1 []; elapses 500;
                  click Example.click2 []] (Example.on_map true) in
  let s' := steps [elapses 500; timeout_fires 0] s in
  Sys.timeouts s = [Timeout.mk (0 + PICK_WINDOW) Example.click1;
                    Timeout.mk (0 + 500 + PICK_WINDOW) Example.click2] /\
  Sys.now s = (0 + 500)%R /\
  Layer.pointer (Sys.this s) <> None /\
  Sys.now s' = (0 + 500 + 500)%R /\
  Layer.pointer (Sys.this s') = None /\
  Sys.timeouts s' = [Timeout.mk (0 + 500 + PICK_WINDOW) Example.click2].
Proof.
  intros s s'.
  set (s0 := Example.on_map true).
  assert (H0 : Layer._map (Sys.this s0) = Some Example.hostMap /\
               Sys.timeouts s0 = [] /\ Sys.now s0 = 0%R)
    by (split; [| split]; reflexivity).
  destruct H0 as (Hmap0 & Htime0 & Hnow0).
  set (s1 := step (click Example.click1 []) s0).
  pose proof (onLayerClick_pick_state Example.click1 [] s0 _ Hmap0) as H1.
  fold (step (click Example.click1 []) s0) in H1. fold s1 in H1.
  rewrite Htime0, Hnow0 in H1.
  apply pick_state_inv in H1.
  destruct H1 as (Hptr1 & Hpick1 & Hmap1 & Htime1 & Hnow1).
  set (s2 := step (elapses 500) s1).
  assert (Hpos : (0 <= 500)%R) by lra.
  pose proof (elapses_pick_state 500 s1 Hpos) as H2. fold s2 in H2.
  rewrite Hptr1, Hpick1, Hmap1, Htime1, Hnow1 in H2.
  apply pick_state_inv in H2.
  destruct H2 as (Hptr2 & Hpick2 & Hmap2 & Htime2 & Hnow2).
  set (s3 := step (click Example.click2 []) s2).
  pose proof (onLayerClick_pick_state Example.click2 [] s2 _ Hmap2) as H3.
  fold (step (click Example.click2 []) s2) in H3. fold s3 in H3.
  rewrite Htime2, Hnow2 in H3.
  apply pick_state_inv in H3.
  destruct H3 as (Hptr3 & Hpick3 & Hmap3 & Htime3 & Hnow3).
  change s with s3 in s' |- *.
  set (s4 := step (elapses 500) s3).
  pose proof (elapses_pick_state 500 s3 Hpos) as H4. fold s4 in H4.
  rewrite Hptr3, Hpick3, Hmap3, Htime3, Hnow3 in H4.
  apply pick_state_inv in H4.
  destruct H4 as (Hptr4 & Hpick4 & Hmap4 & Htime4 & Hnow4).
  assert (Hdue : (Timeout.due (Timeout.mk (0 + PICK_WINDOW) Example.click1)
                  <= Sys.now s4)%R).
  { rewrite Hnow4. unfold PICK_WINDOW. simpl. lra. }
  assert (Hi : Sys.timeouts s4 !! 0%nat
               = Some (Timeout.mk (0 + PICK_WINDOW) Example.click1))
    by (rewrite Htime4; reflexivity).
  destruct (timeout_fires_due 0 _ s4 [] Hi Hdue Hpick4) as (Hptr5 & Htime5).
  change s' with (step (timeout_fires 0) s4).
  split; [exact Htime3 |]. split; [exact Hnow3 |].
  split; [rewrite Hptr3; discriminate |].
  split; [| split; [exact Hptr5 |]].
  - simpl. rewrite Hi. rewrite bool_decide_eq_true_2 by exact Hdue.
    exact Hnow4.
  - rewrite Htime5, Htime4. reflexivity.
Qed.

(** C3 at the example: a click on the layer on a map, with tile
    [(0, 0, 0)] in view. *)
Lemma click_starts_pick_window_witness :
  let s := Example.on_map true in
  let s' := _onLayerClick Example.click1 [(Example.coords, 7%nat)] s in
  Layer._map (Sys.this s) = Some Example.hostMap /\
  Layer.pointer (Sys.this s')
  = Some (_getPointer (Layer.tileSize (Sys.this s)) 0 Example.click1) /\
  Layer.pickedFeatures (Sys.this s') = Some [] /\
  Sys.timeouts s' = [Timeout.mk (Sys.now s + PICK_WINDOW) Example.click1].
Proof.
  intros s s'.
  assert (Hmap : Layer._map (Sys.this s) = Some Example.hostMap)
    by reflexivity.
  destruct (click_starts_pick_window Example.click1 [(Example.coords, 7%nat)]
              s Example.hostMap Hmap)
    as (Hptr & Hpick & _ & _ & Htime & _).
  exact (conj Hmap (conj Hptr (conj Hpick Htime))).
Defined.

(** * Further properties of the code *)

(** ** [_getPointer]: the column of a click *)

Section PointerFacts.
Open Scope R_scope.

(** The normalized abscissa before the wrap is [(lng + 180) / 360]. *)
Lemma normalize_x lat lng :
  Point.x (normalize (project lat lng)) = (lng + 180) / 360.
Proof.
  unfold normalize, project, MAXCOORD, EARTH_R. cbn [Point.x].
  pose proof PI_neq0. field. assumption.
Qed.

Lemma normalize_y_indep lat lng lng' :
  Point.y (normalize (project lat lng)) = Point.y (normalize (project lat lng')).
Proof. reflexivity. Qed.


Lemma normalized_x_range ev :
  -180 <= ClickEvent.lng ev -> ClickEvent.lng ev <> 180 ->
  0 <= Point.x (normalized ev) < 1.
Proof.
  intros Hlo Hne. unfold normalized, wrapX.
  pose proof (normalize_x (ClickEvent.lat ev) (ClickEvent.lng ev)) as Hx.
  destruct (Rlt_dec 1 _) as [Hgt | Hle]; cbn [Point.x].
  - pose proof (Math_floor_bound
                  (Point.x (normalize (project (ClickEvent.lat ev)
                                               (ClickEvent.lng ev))))).
    lra.
  - rewrite Hx in *. split; [lra |].
    destruct (Rle_lt_or_eq_dec _ _ (Rnot_lt_le _ _ Hle)) as [Hlt | Heq];
      [lra | exfalso; apply Hne; lra].
Qed.

Lemma Math_floor_range (x : R) (n : Z) :
  0 <= x < IZR n -> 0 <= Math_floor x <= IZR n - 1.
Proof.
  intros [Hlo Hhi]. unfold Math_floor.
  pose proof (Zfloor_bound x) as [Hf1 Hf2].
  assert (H0 : (0 <= Zfloor x)%Z).
  { apply Zfloor_lub. exact Hlo. }
  assert (H1 : (Zfloor x < n)%Z).
  { apply lt_IZR. lra. }
  split; [apply IZR_le; exact H0 |].
  rewrite <- minus_IZR. apply IZR_le. lia.
Qed.
End PointerFacts.

(** X1.  For a click at a longitude of at least -180 and other than 180,
    whichever the latitude, the normalized abscissa lies in [[0, 1)]; on a
    map at a zoom from 0 to 30 the tile column of the pointer is then one
    of [0 .. 2^zoom - 1]. *)
Theorem getPointer_column_in_range tileSize zoom ev :
  (-180 <= ClickEvent.lng ev)%R -> ClickEvent.lng ev <> 180%R ->
  0 <= zoom <= 30 ->
  (0 <= Point.x (normalized ev) < 1)%R /\
  (0 <= Pointer.tileX (_getPointer tileSize zoom ev) <= IZR (2 ^ zoom) - 1)%R.
Proof.
  intros Hlo Hne Hz.
  pose proof (normalized_x_range ev Hlo Hne) as Hx.
  split; [exact Hx |].
  unfold _getPointer. cbn [Pointer.tileX].
  apply Math_floor_range. unfold onZoom. cbn [Point.mult Point.x].
  rewrite (shl_1_small zoom Hz).
  assert (Hpow : (1 <= IZR (2 ^ zoom))%R).
  { apply IZR_le. pose proof (Z.pow_pos_nonneg 2 zoom). lia. }
  split.
  - apply Rmult_le_pos; lra.
  - rewrite <- (Rmult_1_l (IZR (2 ^ zoom))) at 2.
    apply Rmult_lt_compat_r; lra.
Qed.

Lemma getPointer_column_in_range_witness :
  (0 <= Pointer.tileX (_getPointer 512 3 (ClickEvent.mk 40 190 0))
   <= IZR (2 ^ 3) - 1)%R.
Proof.
  refine (proj2 (getPointer_column_in_range 512 3 (ClickEvent.mk 40 190 0)
                   _ _ _)); cbn [ClickEvent.lng]; try lra. lia.
Defined.

(** ** [_getPointer]: world copies and hemispheres *)

Section PointerSymmetry.
Open Scope R_scope.







End PointerSymmetry.





(** ** The pointer and the tile that is given it *)

Section PointerInTile.
Open Scope R_scope.

(** The global coordinates are the zoom-scaled ones times the tile size. *)
Lemma getPointer_global tileSize zoom ev :
  Pointer.X (_getPointer tileSize zoom ev)
  = Point.x (onZoom zoom ev) * tileSize /\
  Pointer.Y (_getPointer tileSize zoom ev)
  = Point.y (onZoom zoom ev) * tileSize.
Proof. unfold _getPointer. cbn [Pointer.X Pointer.Y]. split; ring. Qed.

Lemma pointerInTile_spec p coords :
  pointerInTile p (bbox_of coords) = true <->
  256 * IZR (Coords.x coords) <= Pointer.X p
                              <= 256 * (IZR (Coords.x coords) + 1) /\
  256 * IZR (Coords.y coords) <= Pointer.Y p
                              <= 256 * (IZR (Coords.y coords) + 1).
Proof.
  unfold pointerInTile, bbox_of.
  cbn [BBox.minX BBox.minY BBox.maxX BBox.maxY].
  rewrite !andb_true_iff, !bool_decide_eq_true.
  rewrite !mult_IZR, !plus_IZR. lra.
Qed.
End PointerInTile.

(** The test, for a pointer of [_getPointer]. *)
Lemma pointerInTile_getPointer ratio zoom ev coords :
  pointerInTile (_getPointer (256 * ratio) zoom ev) (bbox_of coords) = true <->
  (IZR (Coords.x coords) <= ratio * Point.x (onZoom zoom ev)
                         <= IZR (Coords.x coords) + 1)%R /\
  (IZR (Coords.y coords) <= ratio * Point.y (onZoom zoom ev)
                         <= IZR (Coords.y coords) + 1)%R.
Proof.
  rewrite pointerInTile_spec.
  destruct (getPointer_global (256 * ratio) zoom ev) as [-> ->]. lra.
Qed.

(** X4.  The test of [renderTile] for giving the pointer to [paint]
    compares the pointer's global coordinates, which are in device pixels,
    with the tile's box, which is in 256-unit space: for a tile size of
    [256 * ratio] the tile [(x, y)] is given the pointer exactly when the
    zoom-scaled point of the click times [ratio] lies in
    [[x, x + 1] x [y, y + 1]], edges included. *)
Theorem pointer_given_to_tile ratio zoom ev coords :
  pointerInTile (_getPointer (256 * ratio) zoom ev) (bbox_of coords) = true <->
  (IZR (Coords.x coords) <= ratio * Point.x (onZoom zoom ev)
                         <= IZR (Coords.x coords) + 1)%R /\
  (IZR (Coords.y coords) <= ratio * Point.y (onZoom zoom ev)
                         <= IZR (Coords.y coords) + 1)%R.
Proof. apply pointerInTile_getPointer. Qed.

(** X5.  At a device pixel ratio of 1 the tile a pointer names, the one
    at column [tileX] and row [tileY], is given the pointer.  At a ratio
    above 1 it is not, once the column is beyond [1 / (ratio - 1)]: at
    ratio 2, from column 2 on. *)
Theorem pointer_and_its_own_tile zoom ev z :
  let own := Coords.mk (Zfloor (Point.x (onZoom zoom ev)))
                       (Zfloor (Point.y (onZoom zoom ev))) z in
  pointerInTile (_getPointer 256 zoom ev) (bbox_of own) = true /\
  forall ratio,
    (1 < ratio)%R ->
    (1 < Pointer.tileX (_getPointer (256 * ratio) zoom ev) * (ratio - 1))%R ->
    pointerInTile (_getPointer (256 * ratio) zoom ev) (bbox_of own) = false.
Proof.
  intros own.
  pose proof (Math_floor_bound (Point.x (onZoom zoom ev))) as Hx.
  pose proof (Math_floor_bound (Point.y (onZoom zoom ev))) as Hy.
  unfold Math_floor in Hx, Hy. split.
  - replace 256%R with (256 * 1)%R by lra.
    apply pointerInTile_getPointer. cbn [own Coords.x Coords.y]. lra.
  - intros ratio Hr Hcol. apply not_true_is_false. intros Hin.
    apply pointerInTile_getPointer in Hin. cbn [own Coords.x Coords.y] in Hin.
    unfold _getPointer, Math_floor in Hcol. cbn [Pointer.tileX] in Hcol.
    destruct Hin as [[_ Hin] _]. nra.
Qed.

Lemma pointer_and_its_own_tile_witness :
  let ev := ClickEvent.mk 0 0 0 in
  (1 < Pointer.tileX (_getPointer (256 * 2) 2 ev) * (2 - 1))%R /\
  pointerInTile (_getPointer (256 * 2) 2 ev)
    (bbox_of (Coords.mk (Zfloor (Point.x (onZoom 2 ev)))
                        (Zfloor (Point.y (onZoom 2 ev))) 2)) = false.
Proof.
  intros ev.
  assert (Hx : Point.x (onZoom 2 ev) = 2%R).
  { unfold ev, onZoom, normalized, wrapX.
    cbn [ClickEvent.lat ClickEvent.lng].
    pose proof (normalize_x 0 0) as Hn.
    destruct (Rlt_dec 1 _) as [H1 | H1]; [rewrite Hn in H1; lra |].
    cbn [Point.mult Point.x]. rewrite Hn.
    change (shl 1 2) with 4. lra. }
  assert (Hcol : (1 < Pointer.tileX (_getPointer (256 * 2) 2 ev) * (2 - 1))%R).
  { unfold _getPointer, Math_floor. cbn [Pointer.tileX]. rewrite Hx.
    rewrite (Zfloor_eq 2 2) by lra. lra. }
  split; [exact Hcol |].
  apply (proj2 (pointer_and_its_own_tile 2 ev 2) 2%R); [lra | exact Hcol].
Defined.

(** ** [_removeTile] *)

Lemma JsMap_get_delete_ne {V} k k' (m : JsMap.t V) :
  k <> k' -> JsMap.get k' (JsMap.delete k m) = JsMap.get k' m.
Proof.
  intros Hne. unfold JsMap.delete.
  induction m as [| [k0 v0] m IH]; [reflexivity |].
  rewrite filter_cons. cbn [fst JsMap.get].
  destruct (decide (k0 <> k)) as [H0 | H0]; cbn [JsMap.get].
  - destruct (decide (k0 = k')); [reflexivity | exact IH].
  - apply dec_stable in H0. subst k0.
    rewrite IH. destruct (decide (k = k')); [contradiction | reflexivity].
Qed.

(** X6.  [_removeTile] of a key that is not tracked does nothing, and so
    does a second [_removeTile] of a key: the element is unloaded once. *)
Theorem removeTile_once key w :
  (JsMap.get key (Layer._tiles (World.this w)) = None ->
   _removeTile key w = w) /\
  _removeTile key (_removeTile key w) = _removeTile key w.
Proof.
  assert (Hnone : forall w0,
            JsMap.get key (Layer._tiles (World.this w0)) = None ->
            _removeTile key w0 = w0).
  { intros w0 H0. unfold _removeTile. now rewrite H0. }
  split; [apply Hnone |].
  apply Hnone. rewrite removeTile_tiles. apply JsMap_get_delete.
Qed.

(** X7.  [_removeTile] of a tracked key leaves every other key tracked as
    it was and every other element as it was, changes nothing of the layer
    but [_tiles], logs and signals nothing, and fires one [tileunload]
    event, with the element and the coordinates of the key. *)
Theorem removeTile_frame key tile w :
  JsMap.get key (Layer._tiles (World.this w)) = Some tile ->
  let w' := _removeTile key w in
  (forall k, k <> key ->
     JsMap.get k (Layer._tiles (World.this w'))
     = JsMap.get k (Layer._tiles (World.this w))) /\
  (forall el, el <> Tile.el tile -> World.dom w' !! el = World.dom w !! el) /\
  Layer.set_tiles (Layer._tiles (World.this w)) (World.this w')
  = Layer.set_tiles (Layer._tiles (World.this w)) (World.this w) /\
  World.console w' = World.console w /\
  World.shown w' = World.shown w /\
  World.fired w'
  = World.fired w ++
    [fire_tileunload (Tile.el tile)
       (GridLayer._keyToTileCoords (Layer.super (World.this w)) key)].
Proof.
  intros Hget w'.
  split.
  { intros k Hk. unfold w'. rewrite removeTile_tiles.
    apply JsMap_get_delete_ne. congruence. }
  unfold w', _removeTile. rewrite Hget. cbn.
  split; [| auto].
  intros el Hel. apply list_lookup_alter_ne. congruence.
Qed.

Lemma removeTile_frame_witness :
  let w := Sys.world (Example.shown true) in
  World.fired (_removeTile "0:0:0" w)
  = World.fired w ++ [fire_tileunload 0%nat (Coords.mk 0 0 0)] /\
  World.shown (_removeTile "0:0:0" w) = World.shown w.
Proof.
  intros w.
  destruct (removeTile_frame "0:0:0" (Tile.mk 0 Example.coords true) w eq_refl)
    as (_ & _ & _ & _ & Hshown & Hfired).
  split; [exact Hfired | exact Hshown].
Defined.

(** ** [rerenderTile] and [rerenderTiles] *)

(** What a sequence of calls of [renderTile] leaves of the system, and
    what it adds. *)
Lemma calls_started calls : forall s,
  let s' := foldl (fun s c => call_renderTile c.1.1.1 c.1.1.2 c.1.2 c.2 s)
                  s calls in
  map call_of (Sys.pending s') = map call_of (Sys.pending s) ++ calls /\
  Layer.lastRequestedZ (Sys.this s')
  = last_zoom calls (Layer.lastRequestedZ (Sys.this s)) /\
  Layer.set_lastRequestedZ None (Sys.this s')
  = Layer.set_lastRequestedZ None (Sys.this s) /\
  World.dom (Sys.world s') = World.dom (Sys.world s) /\
  World.console (Sys.world s') = World.console (Sys.world s) /\
  World.shown (Sys.world s') = World.shown (Sys.world s) /\
  World.fired (Sys.world s') = World.fired (Sys.world s).
Proof.
  induction calls as [| c calls IH] using rev_ind; intros s.
  - simpl. rewrite app_nil_r. repeat split; reflexivity.
  - rewrite foldl_app. cbn [foldl]. cbv zeta.
    destruct (IH s) as (Hp & Hz & Hl & Hd & Hc & Hs & Hf).
    set (s1 := foldl _ s calls) in *.
    rewrite call_renderTile_eq. unfold Sys.this in *.
    cbn [Sys.pending Sys.world World.this World.dom World.console World.shown
         World.fired World.set_this].
    rewrite map_app, Hp, <- app_assoc.
    unfold last_zoom. rewrite last_snoc.
    destruct c as [[[coords el] key] done].
    repeat split; assumption.
Qed.

Lemma rerenderTiles_calls s :
  rerenderTiles s
  = foldl (fun s c => call_renderTile c.1.1.1 c.1.1.2 c.1.2 c.2 s) s
      (map (rerender_call (Layer.super (Sys.this s)))
           (Layer._tiles (Sys.this s))).
Proof.
  unfold rerenderTiles.
  generalize (Layer.super (Sys.this s)) as super.
  generalize (Layer._tiles (Sys.this s)) as tiles. intros tiles super.
  revert s. induction tiles as [| kv tiles IH]; intros s; [reflexivity |].
  cbn [foldl map]. apply IH.
Qed.

Lemma rerenderTile_calls key s :
  let super := Layer.super (Sys.this s) in
  rerenderTile key s
  = foldl (fun s c => call_renderTile c.1.1.1 c.1.1.2 c.1.2 c.2 s) s
      (filter (fun c => key = c.1.2)
         (map (rerender_call super) (Layer._tiles (Sys.this s)))).
Proof.
  unfold rerenderTile.
  generalize (Layer.super (Sys.this s)) as super.
  generalize (Layer._tiles (Sys.this s)) as tiles. intros tiles super.
  revert s. induction tiles as [| kv tiles IH]; intros s; [reflexivity |].
  cbn [foldl map]. rewrite filter_cons. cbn [rerender_call fst snd].
  destruct (decide _) as [Heq | Hne]; cbn [foldl]; rewrite IH;
    [| reflexivity].
  cbn [rerender_call fst snd]. rewrite <- Heq. reflexivity.
Qed.

(** X8.  [rerenderTiles] starts one render for every tracked tile, in the
    order of [_tiles], for the tile's wrapped coordinates, its element and
    the key of the wrapped coordinates, with the default callback.  It
    leaves the elements, the console and the signals as they are, and
    [lastRequestedZ] is then the zoom of the last tile (as it was, if no
    tile is tracked). *)
Theorem rerenderTiles_starts_one_per_tile s :
  let super := Layer.super (Sys.this s) in
  let calls := map (rerender_call super) (Layer._tiles (Sys.this s)) in
  let s' := rerenderTiles s in
  map call_of (Sys.pending s') = map call_of (Sys.pending s) ++ calls /\
  Layer.lastRequestedZ (Sys.this s')
  = last_zoom calls (Layer.lastRequestedZ (Sys.this s)) /\
  World.dom (Sys.world s') = World.dom (Sys.world s) /\
  World.console (Sys.world s') = World.console (Sys.world s) /\
  World.shown (Sys.world s') = World.shown (Sys.world s).
Proof.
  intros super calls s'. unfold s'. rewrite rerenderTiles_calls.
  fold super. fold calls.
  destruct (calls_started calls s) as (Hp & Hz & _ & Hd & Hc & Hs & _).
  auto.
Qed.

(** X9.  [rerenderTile(key)] starts a render for those tracked tiles whose
    wrapped coordinates have the key [key], and for no other; when there
    is none it changes nothing. *)
Theorem rerenderTile_starts_the_matching s key :
  let super := Layer.super (Sys.this s) in
  let calls := filter (fun c => key = c.1.2)
                 (map (rerender_call super) (Layer._tiles (Sys.this s))) in
  let s' := rerenderTile key s in
  map call_of (Sys.pending s') = map call_of (Sys.pending s) ++ calls /\
  Forall (fun c => c.1.2 = key /\ c.2 = done_default) calls /\
  (calls = [] -> s' = s).
Proof.
  intros super calls s'. unfold s'. rewrite rerenderTile_calls.
  fold super. fold calls.
  destruct (calls_started calls s) as (Hp & _).
  split; [exact Hp |]. split.
  - apply Forall_forall. intros c Hc. unfold calls in Hc.
    apply list_elem_of_filter in Hc as [Hk Hc].
    split; [now symmetry |].
    apply list_elem_of_fmap in Hc as (kv & -> & _). reflexivity.
  - intros ->. reflexivity.
Qed.

Lemma rerenderTile_starts_the_matching_witness :
  rerenderTile "1:0:0" (Example.shown true) = Example.shown true.
Proof.
  apply (rerenderTile_starts_the_matching (Example.shown true) "1:0:0").
  vm_compute. reflexivity.
Defined.

(** ** A change of zoom *)

(** X10.  When a tile of another zoom level is created, every render
    still pending for a tile of the former level is superseded: resumed
    next, whatever the answer, it returns having at most logged its fetch
    errors, and it stays pending until then. *)
Theorem createTile_supersedes_other_zooms sInit acts coords showTile inv :
  Sys.pending sInit = [] ->
  let s := steps acts sInit in
  let s1 := (createTile coords showTile s).2 in
  In inv (Sys.pending s) ->
  Coords.z (Invocation.coords inv) <> Coords.z coords ->
  In inv (Sys.pending s1) /\
  forall x, exists logs,
    run (Invocation.resume inv x) (Sys.world s1)
    = (add_logs logs (Sys.world s1), map obs_log logs, Returned tt).
Proof.
  intros Hidle s s1 Hin Hz.
  pose proof (wf_steps_from_idle acts sInit Hidle) as Hwf. fold s in Hwf.
  destruct (createTile_facts coords showTile s)
    as (_ & _ & _ & Hthis & Hpending & _).
  fold s1 in Hthis, Hpending. cbv zeta in Hthis, Hpending.
  split.
  { rewrite Hpending. apply in_or_app. now left. }
  intros x.
  unfold wf in Hwf. rewrite Forall_forall in Hwf.
  destruct (Hwf inv (proj2 (list_elem_of_In _ _) Hin) x) as (Habort & _).
  apply Habort. right. rewrite Hthis. cbn. congruence.
Qed.

Lemma createTile_supersedes_other_zooms_witness :
  let s := Example.shown true in
  let s1 := (createTile (Coords.mk 0 0 1) 8 s).2 in
  exists inv, Sys.pending s !! 0%nat = Some inv /\
    In inv (Sys.pending s1) /\
    exists logs,
      run (Invocation.resume inv
             (answer (Invocation.on inv) Example.answers)) (Sys.world s1)
      = (add_logs logs (Sys.world s1), map obs_log logs, Returned tt).
Proof.
  intros s s1.
  destruct (Sys.pending s !! 0%nat) as [inv |] eqn:Hinv;
    [| exfalso; vm_compute in Hinv; discriminate].
  assert (Hin : In inv (Sys.pending s)).
  { apply list_elem_of_In. eapply list_elem_of_lookup_2. exact Hinv. }
  assert (Hz : Coords.z (Invocation.coords inv) <> 1).
  { assert (H : Invocation.coords <$> Sys.pending s !! 0%nat
                = Some Example.coords) by reflexivity.
    rewrite Hinv in H. injection H as ->. discriminate. }
  destruct (createTile_supersedes_other_zooms (Example.fresh true)
              [host_setMap (Some Example.hostMap);
               host_addTile Example.coords 7%nat]
              (Coords.mk 0 0 1) 8 inv eq_refl Hin Hz) as (Hin1 & Hrun).
  refine (ex_intro _ inv (conj eq_refl (conj Hin1 (Hrun _)))).
Defined.

(** ** The stages of [renderTile] *)

Lemma gated_at_run {A} (P : SuspPoint -> Prog A -> Prop) (p : Prog A) w :
  gated_at P p ->
  match (run p w).2 with
  | Suspended s k => forall x, P (point_of s) (k x) /\ gated_at P (k x)
  | _ => True
  end.
Proof.
  revert w.
  induction p as [a | Y e k' IH | Y s' k' IH | msg]; intros w Hg; simpl.
  - exact I.
  - destruct (handle e w) as [[w1 obs1] x].
    specialize (IH x w1 (Hg x)).
    destruct (run (k' x) w1) as [[w2 obs2] out2]. exact IH.
  - exact Hg.
  - exact I.
Qed.

Lemma gated_at_sync {A} (P : SuspPoint -> Prog A -> Prop) (p : Prog A) :
  sync p -> gated_at P p.
Proof.
  induction p as [a | X e k IH | X s k IH | msg]; simpl; auto.
  intros [].
Qed.

Lemma gated_at_bind_sync {A B} (P : SuspPoint -> Prog B -> Prop) (p : Prog A)
    (f : A -> Prog B) :
  sync p -> (forall a, gated_at P (f a)) -> gated_at P (bind p f).
Proof.
  induction p as [a | X e k IH | X s k IH | msg]; simpl; auto.
  intros [].
Qed.

(** An execution, from one of its resumptions on, is an execution of the
    continuation that was resumed. *)
Lemma exec_resume_at {A} (P : SuspPoint -> Prog A -> Prop)
    (sched : list Resumption.t) :
  forall (p : Prog A) w w' obs out pre s wr post,
    gated_at P p ->
    exec sched p w = (w', obs, out) ->
    obs = pre ++ obs_resume s wr :: post ->
    exists q sched', P s q /\ exec sched' q wr = (w', post, out).
Proof.
  induction sched as [| r sched IH]; intros p w w' obs out pre s wr post Hg;
    simpl; destruct (run p w) as [[w1 obs1] out1] eqn:Hrun.
  - intros Hex ->.
    assert (Hno := run_no_resume _ _ _ _ _ Hrun).
    assert (obs1 = pre ++ obs_resume s wr :: post) as ->
        by (destruct out1; congruence).
    apply Forall_app in Hno as [_ Hno]. inversion Hno; subst.
    exfalso. simpl in *. tauto.
  - assert (Hno := run_no_resume _ _ _ _ _ Hrun).
    destruct out1 as [a | msg | X s1 k].
    + intros [= <- <- <-] ->.
      apply Forall_app in Hno as [_ Hno]. inversion Hno; subst.
      exfalso. simpl in *. tauto.
    + intros [= <- <- <-] ->.
      apply Forall_app in Hno as [_ Hno]. inversion Hno; subst.
      exfalso. simpl in *. tauto.
    + destruct (exec sched (k (answer s1 (Resumption.answers r)))
                  (Resumption.meanwhile r w1)) as [[w3 obs3] out3] eqn:Hex.
      intros [= <- <- <-] Heq.
      pose proof (gated_at_run P p w Hg) as Hk. rewrite Hrun in Hk.
      simpl in Hk.
      destruct (Hk (answer s1 (Resumption.answers r))) as [HP Hg'].
      apply app_resume_split in Heq; [| assumption | exact I].
      destruct Heq as [(-> & Hm & ->) | (pre' & -> & ->)].
      * inversion Hm; subst. eauto.
      * eapply IH; eauto.
Qed.

Lemma gate_gated_at (P : SuspPoint -> Prog unit -> Prop) element key coords
    (rest : Prog unit) :
  gated_at P rest ->
  gated_at P (s ← stale element key coords; if s : bool then Ret tt else rest).
Proof.
  intros Hg. apply gated_at_bind_sync; [apply sync_stale |].
  intros []; simpl; auto.
Qed.

Lemma tilemap_of_nonempty rs : forall tm,
  (forall kv, kv ∈ tm -> kv.2 <> []) ->
  forall kv, kv ∈ tilemap_of tm rs -> kv.2 <> [].
Proof.
  assert (Hset : forall k (v : PreparedTile.t) (tm : PreparedTileMap),
            (forall kv, kv ∈ tm -> kv.2 <> []) ->
            forall kv, kv ∈ JsMap.set k [v] tm -> kv.2 <> []).
  { intros k v tm. induction tm as [| [k0 v0] tm IH]; intros Htm kv Hkv.
    - apply list_elem_of_singleton in Hkv as ->. discriminate.
    - cbn [JsMap.set] in Hkv. destruct (decide (k0 = k)).
      + apply elem_of_cons in Hkv as [-> | Hkv]; [discriminate |].
        apply Htm. now right.
      + apply elem_of_cons in Hkv as [-> | Hkv].
        * apply (Htm (k0, v0)). now left.
        * apply IH; [| exact Hkv]. intros kv' Hkv'. apply Htm. now right. }
  induction rs as [| r rs IH]; intros tm Htm; [exact Htm |].
  cbn [tilemap_of foldl]. apply IH. destruct r; [| exact Htm].
  now apply Hset.
Qed.

Lemma gated_at_collect_loop (P : SuspPoint -> Prog unit -> Prop) rs :
  forall tm (f : PreparedTileMap -> Prog unit),
    gated_at P (f (tilemap_of tm rs)) ->
    gated_at P (bind (for_of rs tm collect) f).
Proof.
  induction rs as [| r rs IH]; intros tm f Hf; [exact Hf |].
  cbn [for_of]. unfold mbind, Prog_bind.
  destruct r as [value k | reason k]; cbn [collect].
  - apply IH. exact Hf.
  - destruct (decide _); cbn [bind mbind Prog_bind trigger gated_at].
    + apply IH. exact Hf.
    + intros []. apply IH. exact Hf.
Qed.

Ltac stage_cbn :=
  cbn [gated_at sync bind mbind Prog_bind trigger await point_of stage_after].

Lemma renderTile_stages coords element key done :
  gated_at (stage_after coords element key done)
           (renderTile coords element key done).
Proof.
  unfold renderTile. stage_cbn. intros [] this.
  apply gated_at_bind_sync.
  { apply sync_for_of. intros acc x. simpl. auto. }
  intros promises. stage_cbn. intros settled. split; [eauto |].
  unfold renderTile_afterFetch. apply gated_at_collect_loop.
  set (tm := tilemap_of [] _).
  assert (Htm : forall kv, kv ∈ tm -> kv.2 <> []).
  { apply tilemap_of_nonempty. intros kv Hkv. inversion Hkv. }
  clearbody tm.
  apply gate_gated_at. stage_cbn. intros this' [].
  split; [eauto |].
  apply gate_gated_at. stage_cbn. intros lt. split; [eauto |].
  apply gate_gated_at. stage_cbn. intros ld this''.
  destruct (Layer._map this''); stage_cbn; auto.
  intros []. split; [eauto 6 |].
  apply gate_gated_at, gated_at_sync, sync_paintTile.
Qed.

(** The execution that follows a resumption of [renderTile]. *)
Lemma renderTile_resumed coords element key done sched w w' obs out
    pre s wr post :
  exec sched (renderTile coords element key done) w = (w', obs, out) ->
  obs = pre ++ obs_resume s wr :: post ->
  exists q sched',
    stage_after coords element key done s q /\
    exec sched' q wr = (w', post, out).
Proof.
  intros Hex Hobs.
  exact (exec_resume_at _ sched _ _ _ _ _ _ _ _ _
           (renderTile_stages coords element key done) Hex Hobs).
Qed.


Lemma exec_afterTimer coords element key done tm lt ld sched w :
  exec sched (renderTile_afterTimer coords element key done tm lt ld) w
  = if stale_inb w element key coords then (w, [], Returned tt)
    else run (paintTile coords element done tm lt ld) w.
Proof.
  rewrite exec_not_suspended; [apply run_afterTimer |].
  rewrite run_afterTimer. destruct (stale_inb w element key coords);
    [simpl; tauto |].
  destruct (run_paintTile coords element done tm lt ld w)
    as (w1 & obs & out & Hr & H). rewrite Hr. cbn [snd].
  destruct (has2d_of element w).
  - destruct H as (args & bg & overlay & _ & _ & _ & _ & _ & Hs & _).
    destruct out; simpl in *; tauto.
  - destruct H as [_ ->]. simpl. tauto.
Qed.


Lemma resumed_after_spec stage f i obs :
  resumed_after stage f i obs = true ->
  exists s wr, stage_of s = stage /\ f wr = true /\
               obs = take i obs ++ obs_resume s wr :: drop (S i) obs.
Proof.
  unfold resumed_after. destruct (obs !! i) as [[]|] eqn:Hi; try discriminate.
  intros H. apply andb_true_iff in H as [Hs Hf].
  apply bool_decide_eq_true in Hs.
  refine (ex_intro _ _ (ex_intro _ _ (conj Hs (conj Hf _)))).
  symmetry. apply take_drop_middle. exact Hi.
Qed.


(** X12.  When the layer has been taken off its map by the time
    [labelers.add] has returned, [renderTile] reads the label index and
    returns: it sets no delay, does not touch the canvas, logs nothing
    and does not call [done]. *)
Theorem renderTile_off_the_map coords element key done sched w w' obs out
    pre z tm wr post :
  exec sched (renderTile coords element key done) w = (w', obs, out) ->
  obs = pre ++ obs_resume (at_add z tm) wr :: post ->
  ~ stale_in wr element key coords ->
  Layer._map (World.this wr) = None ->
  post = [obs_getIndex (Coords.z coords)] /\ out = Returned tt /\ w' = wr.
Proof.
  intros Hex Hobs Hst Hmap.
  destruct (renderTile_resumed _ _ _ _ _ _ _ _ _ _ _ _ _ Hex Hobs)
    as (q & sched' & (lt & _ & ->) & Hq).
  assert (Hrun : run (renderTile_afterAdd coords element key done tm lt) wr
                 = (wr, [obs_getIndex (Coords.z coords)], Returned tt)).
  { rewrite run_afterAdd. apply stale_inb_false in Hst. rewrite Hst, Hmap.
    reflexivity. }
  rewrite (exec_returned _ _ _ _ _ _ Hrun) in Hq.
  injection Hq as <- <- <-. auto.
Qed.

Lemma renderTile_off_the_map_witness :
  let obs := rendered_off_map.1.2 in
  exists z tm wr,
    obs = take 9 obs ++ obs_resume (at_add z tm) wr :: drop 10 obs /\
    drop 10 obs = [obs_getIndex 0] /\
    rendered_off_map.2 = Returned tt.
Proof.
  intros obs.
  assert (H : resumed_after label_layout
                (fun wr => negb (stale_inb wr 0%nat "0:0:0" Example.coords)
                           && bool_decide (Layer._map (World.this wr) = None))
                9 obs = true) by (vm_compute; reflexivity).
  destruct (resumed_after_spec _ _ _ _ H) as (s & wr & Hs & Hf & Hobs).
  destruct s as [| | z tm |]; try discriminate Hs.
  apply andb_true_iff in Hf as [Hst Hmap].
  apply negb_true_iff, stale_inb_false in Hst.
  apply bool_decide_eq_true in Hmap.
  assert (Heq : exec [Example.undisturbed; Example.undisturbed; taken_off;
                      Example.undisturbed]
                  (renderTile Example.coords 0%nat "0:0:0"
                     (done_showTile 7 0))
                  (Sys.world (Example.shown true))
                = (rendered_off_map.1.1, obs, rendered_off_map.2)).
  { exact (exec_result _ _ _). }
  destruct (renderTile_off_the_map _ _ _ _ _ _ _ _ _ _ _ _ _ _
              Heq Hobs Hst Hmap) as (Hpost & Hout & _).
  exact (ex_intro _ z (ex_intro _ tm (ex_intro _ wr
           (conj Hobs (conj Hpost Hout))))).
Defined.

(** *** What an execution asks for, and where it waits *)

Lemma suspensions_app l1 l2 :
  suspensions (l1 ++ l2) = suspensions l1 ++ suspensions l2.
Proof. apply omap_app. Qed.

Lemma suspensions_cons o l :
  suspensions (o :: l)
  = match o with
    | obs_suspend s _ => stage_of s :: suspensions l
    | _ => suspensions l
    end.
Proof. destruct o; reflexivity. Qed.

Lemma suspensions_fetches coords (views : JsMap.t View) :
  suspensions (map (fun kv => obs_fetch kv.2 coords) views) = [].
Proof. induction views as [| kv views IH]; [reflexivity | exact IH]. Qed.

Lemma suspensions_ctx el ops : suspensions (map (obs_ctx el) ops) = [].
Proof. induction ops as [| op ops IH]; [reflexivity | exact IH]. Qed.

Lemma suspensions_logs logs : suspensions (map obs_log logs) = [].
Proof. induction logs as [| l logs IH]; [reflexivity | exact IH]. Qed.

Ltac susp_simpl :=
  repeat (progress
            (rewrite ?suspensions_app, ?suspensions_cons, ?suspensions_ctx,
               ?suspensions_logs, ?suspensions_fetches;
             cbn [app stage_of]));
  change (suspensions []) with (@nil Stage).

Lemma no_request_ctx el ops :
  Forall (fun o => ~ is_request o) (map (obs_ctx el) ops).
Proof. apply Forall_map, Forall_forall. intros op _. simpl. tauto. Qed.

Lemma no_request_logs logs :
  Forall (fun o => ~ is_request o) (map obs_log logs).
Proof. apply Forall_map, Forall_forall. intros op _. simpl. tauto. Qed.

Lemma late_afterTimer coords element key done tm lt ld sched w w' obs out :
  (forall kv, kv ∈ tm -> kv.2 <> []) ->
  exec sched (renderTile_afterTimer coords element key done tm lt ld) w
  = (w', obs, out) ->
  late_facts 4 sched obs out.
Proof.
  intros Htm. rewrite exec_afterTimer.
  destruct (stale_inb w element key coords).
  { intros [= <- <- <-]. repeat split; [constructor | apply prefix_nil]. }
  intros Hrun. apply paintTile_trace in Hrun. cbv zeta in Hrun.
  destruct Hrun as [(_ & -> & ->) |
                    (_ & args & bg & overlay & -> & _ & _ & _ & _ & _ & Hret)].
  - repeat split; [repeat constructor; simpl; tauto | apply prefix_nil].
  - specialize (Hret Htm). subst out. repeat split.
    + repeat (apply Forall_cons; split; [simpl; tauto |]).
      apply Forall_app. split; [apply no_request_ctx |].
      apply Forall_cons. split; [simpl; tauto |].
      apply Forall_app. split; [apply no_request_ctx |].
      repeat constructor. simpl. tauto.
    + susp_simpl. apply prefix_nil.
Qed.

Lemma late_afterAdd coords element key done tm lt sched w w' obs out :
  (forall kv, kv ∈ tm -> kv.2 <> []) ->
  exec sched (renderTile_afterAdd coords element key done tm lt) w
  = (w', obs, out) ->
  late_facts 3 sched obs out.
Proof.
  intros Htm. rewrite exec_eq, run_afterAdd.
  destruct (stale_inb w element key coords).
  { intros [= <- <- <-]. repeat split; [constructor | apply prefix_nil]. }
  destruct (Layer._map (World.this w)) as [m |].
  2:{ intros [= <- <- <-].
      repeat split; [repeat constructor; simpl; tauto | apply prefix_nil]. }
  cbv zeta. destruct sched as [| r sched].
  { intros [= <- <- <-]. split; [repeat constructor; simpl; tauto |].
    split; [exists []; reflexivity | simpl; lia]. }
  cbv zeta. destruct (exec sched _ _) as [[w3 obs3] out3] eqn:Hex.
  intros [= <- <- <-].
  destruct (late_afterTimer _ _ _ _ _ _ _ _ _ _ _ _ Htm Hex)
    as (Hreq & Hsus & Hret).
  split; [| split].
  - repeat (apply Forall_cons; split; [simpl; tauto |]). exact Hreq.
  - susp_simpl. destruct Hsus as [rest Hsus].
    cbn in Hsus. destruct (suspensions obs3); [| discriminate].
    exists []. reflexivity.
  - intros Hlen. apply Hret. simpl. lia.
Qed.

Lemma late_afterTasks coords element key done tm sched w w' obs out :
  (forall kv, kv ∈ tm -> kv.2 <> []) ->
  exec sched (renderTile_afterTasks coords element key done tm) w
  = (w', obs, out) ->
  late_facts 2 sched obs out.
Proof.
  intros Htm. rewrite exec_eq, run_afterTasks.
  destruct (stale_inb w element key coords).
  { intros [= <- <- <-]. repeat split; [constructor | apply prefix_nil]. }
  destruct sched as [| r sched].
  { intros [= <- <- <-]. split; [repeat constructor; simpl; tauto |].
    split; [exists [delay]; reflexivity | simpl; lia]. }
  cbv zeta. destruct (exec sched _ _) as [[w3 obs3] out3] eqn:Hex.
  intros [= <- <- <-].
  destruct (late_afterAdd _ _ _ _ _ _ _ _ _ _ _ Htm Hex)
    as (Hreq & Hsus & Hret).
  split; [| split].
  - repeat (apply Forall_cons; split; [simpl; tauto |]). exact Hreq.
  - susp_simpl. now apply prefix_cons.
  - intros Hlen. apply Hret. simpl in *. lia.
Qed.

Lemma late_afterFetch coords element key done promises settled sched
    w w' obs out :
  exec sched (renderTile_afterFetch coords element key done promises settled) w
  = (w', obs, out) ->
  late_facts 1 sched obs out.
Proof.
  rewrite exec_eq, run_afterFetch. cbv zeta.
  set (rs := map (reflect_tile settled) promises).
  assert (Htm : forall kv, kv ∈ tilemap_of [] rs -> kv.2 <> []).
  { apply tilemap_of_nonempty. intros kv Hkv. inversion Hkv. }
  destruct (stale_inb w element key coords).
  { intros [= <- <- <-]. split; [apply no_request_logs |].
    split; [susp_simpl; apply prefix_nil | reflexivity]. }
  destruct sched as [| r sched].
  { intros [= <- <- <-]. split; [| split].
    - apply Forall_app. split; [apply no_request_logs |].
      repeat constructor. simpl. tauto.
    - susp_simpl. exists [label_layout; delay]. reflexivity.
    - simpl. lia. }
  cbv zeta. destruct (exec sched _ _) as [[w3 obs3] out3] eqn:Hex.
  intros [= <- <- <-].
  destruct (late_afterTasks _ _ _ _ _ _ _ _ _ _ Htm Hex)
    as (Hreq & Hsus & Hret).
  rewrite <- app_assoc. cbn [app].
  split; [| split].
  - apply Forall_app. split; [apply no_request_logs |].
    repeat (apply Forall_cons; split; [simpl; tauto |]). exact Hreq.
  - susp_simpl. now apply prefix_cons.
  - intros Hlen. apply Hret. simpl in *. lia.
Qed.

(** X13.  [renderTile] starts by setting [lastRequestedZ] to the zoom of
    its tile and asking every source for the tile, once each, in the
    order of [views], before it first suspends; it makes no further
    request and does not set the zoom again, however it is resumed. *)
Theorem renderTile_requests_first coords element key done sched w :
  let obs := (exec sched (renderTile coords element key done) w).1.2 in
  exists rest,
    obs = obs_setZ (Coords.z coords)
          :: map (fun kv => obs_fetch kv.2 coords) (Layer.views (World.this w))
          ++ rest /\
    Forall (fun o => ~ is_request o) rest.
Proof.
  cbv zeta. rewrite exec_eq, run_renderTile. cbv zeta.
  destruct sched as [| r sched].
  { cbn [fst snd]. exists [obs_suspend
               (at_fetch (map (fun kv => (kv.1, World.getDisplayTile w kv.2 coords))
                              (Layer.views (World.this w))).*2)
               (World.set_this
                  (Layer.set_lastRequestedZ (Some (Coords.z coords))
                     (World.this w)) w)].
    split; [reflexivity | repeat constructor; simpl; tauto]. }
  cbv zeta. destruct (exec sched _ _) as [[w3 obs3] out3] eqn:Hex. cbn [fst snd].
  destruct (late_afterFetch _ _ _ _ _ _ _ _ _ _ _ Hex) as (Hreq & _).
  eexists. split.
  - cbn [app]. rewrite <- app_assoc. reflexivity.
  - repeat (apply Forall_cons; split; [simpl; tauto |]). exact Hreq.
Qed.

(** X14.  [renderTile] suspends at most four times, at the fetch
    barrier, the task barrier, [labelers.add] and the delay, in this
    order; resumed four times, it has returned. *)
Theorem renderTile_suspends_in_order coords element key done sched w :
  let obs := (exec sched (renderTile coords element key done) w).1.2 in
  let out := (exec sched (renderTile coords element key done) w).2 in
  suspensions obs `prefix_of`
    [fetch_barrier; task_barrier; label_layout; delay] /\
  ((4 <= length sched)%nat -> out = Returned tt).
Proof.
  cbv zeta. rewrite exec_eq, run_renderTile. cbv zeta.
  destruct sched as [| r sched].
  { cbn [fst snd]. split; [| simpl; lia].
    susp_simpl. exists [task_barrier; label_layout; delay]. reflexivity. }
  cbv zeta. destruct (exec sched _ _) as [[w3 obs3] out3] eqn:Hex. cbn [fst snd].
  destruct (late_afterFetch _ _ _ _ _ _ _ _ _ _ _ Hex) as (_ & Hsus & Hret).
  split.
  - susp_simpl. now apply prefix_cons.
  - intros Hlen. apply Hret. simpl in *. lia.
Qed.

(** ** The debug overlay *)

Lemma text_lines_app l1 l2 :
  text_lines (l1 ++ l2) = text_lines l1 ++ text_lines l2.
Proof. apply omap_app. Qed.

Lemma stacked_from_cons y n :
  stacked_from y (S n) = (4%R, y) :: stacked_from (y + 14) n.
Proof.
  unfold stacked_from. cbn [seq map]. f_equal; [f_equal; lia |].
  rewrite <- seq_shift, map_map. apply map_ext. intros i. f_equal. lia.
Qed.

Lemma stacked_from_0 y : stacked_from y 0 = [].
Proof. reflexivity. Qed.

Lemma stacked_from_app y n m :
  stacked_from y (n + m)
  = stacked_from y n ++ stacked_from (y + 14 * Z.of_nat n) m.
Proof.
  revert y. induction n as [| n IH]; intros y.
  - cbn [plus]. replace (y + 14 * Z.of_nat 0) with y by lia. reflexivity.
  - cbn [plus]. rewrite !stacked_from_cons, IH. cbn [app]. do 3 f_equal. lia.
Qed.

Lemma run_sources_loop element origin (pointer : option Pointer.t) tm :
  (forall kv, kv ∈ tm -> kv.2 <> []) ->
  forall ypos w,
  exists w' obs,
    run (for_of tm ypos (fun ypos kv =>
      let k := kv.1 in
      match kv.2 with
      | [] => Throw "TypeError: v[0] is undefined"
      | v0 :: _ =>
          let dt := PreparedTile.dataTile v0 in
          let d := PreparedTile.dim v0 in
          let o := PreparedTile.origin v0 in
          trigger (Ctx element (fillText (text_source k dt) 4 ypos));;
          let ypos := ypos + 14 in
          trigger (Ctx element
                     (fillText (text_bbox (Point.x o) (Point.y o)
                                          (Point.x o + d) (Point.y o + d))
                               4 ypos));;
          let ypos := ypos + 14 in
          match pointer with
          | Some p =>
              let preparedTilePointer :=
                Point.mk (Point.x origin + Pointer.x p - Point.x o)
                         (Point.y origin + Pointer.y p - Point.y o) in
              trigger (Ctx element
                         (fillText (text_source_pointer preparedTilePointer dt)
                                   4 ypos));;
              Ret (ypos + 14)
          | None => Ret ypos
          end
      end)) w
    = (w', obs,
       Returned (ypos + 14 * Z.of_nat (lines_per_source pointer * length tm)))
    /\ text_lines obs
       = stacked_from ypos (lines_per_source pointer * length tm)
    /\ Forall (fun o => exists t x y, o = obs_ctx element (fillText t x y)) obs.
Proof.
  intros Htm.
  destruct pointer as [p |];
    (induction tm as [| [k v] tm IH]; intros ypos w;
     [ rewrite Nat.mul_0_r, Z.mul_0_r, Z.add_0_r;
       refine (ex_intro _ w (ex_intro _ [] (conj eq_refl (conj eq_refl _))));
       apply Forall_nil_2
     | destruct v as [| v0 v];
       [ exfalso; apply (Htm (k, [])); [now left | reflexivity] |];
       assert (Htm' : forall kv, kv ∈ tm -> kv.2 <> [])
         by (intros kv Hkv; apply Htm; now right);
       specialize (IH Htm');
       cbn [for_of fst snd]; unfold mbind, Prog_bind; rewrite run_bind;
       run_cbn;
       match goal with
       | |- context [run (for_of tm ?y ?b) ?w0] =>
           destruct (IH y w0) as (w' & obs & Hrun & Hlines & Hall);
           match type of Hrun with
           | _ = ?rhs => change (run (for_of tm y b) w0 = rhs) in Hrun
           end
       end;
       rewrite Hrun;
       eexists _, _; split; [| split];
       [ cbn [lines_per_source length];
         match goal with
         | |- (_, _, Returned ?a) = (_, _, Returned ?b) =>
             replace b with a by lia
         end; reflexivity
       | cbn [app]; unfold text_lines; cbn [omap list_omap text_at];
         fold (text_lines obs); rewrite Hlines;
         cbn [lines_per_source length];
         rewrite Nat.mul_succ_r, Nat.add_comm;
         rewrite stacked_from_app, !stacked_from_cons, stacked_from_0;
         cbn [app];
         repeat (apply (f_equal2 cons);
                 [apply (f_equal2 pair); [reflexivity | lia] |]);
         apply (f_equal2 stacked_from); [lia | reflexivity]
       | cbn [app]; repeat (apply Forall_cons; split; [eauto |]); exact Hall ]
     ]).
Qed.

Lemma text_lines_cons o l :
  text_lines (o :: l)
  = match text_at o with
    | Some p => p :: text_lines l
    | None => text_lines l
    end.
Proof. unfold text_lines. cbn. destruct (text_at o); reflexivity. Qed.

Lemma text_lines_nil : text_lines [] = [].
Proof. reflexivity. Qed.

Lemma snoc_one {A} (x : A) : [x] = [] ++ [x].
Proof. reflexivity. Qed.

Lemma snoc_cons {A} (o x : A) l m : l = m ++ [x] -> o :: l = (o :: m) ++ [x].
Proof. intros ->. reflexivity. Qed.

Lemma snoc_app {A} (x : A) l1 l2 m :
  l2 = m ++ [x] -> l1 ++ l2 = (l1 ++ m) ++ [x].
Proof. intros ->. now rewrite app_assoc. Qed.

Ltac snoc_split :=
  repeat first [apply snoc_one | eapply snoc_cons | eapply snoc_app].

Ltac stacked_eq :=
  repeat first
    [ apply (f_equal2 cons); [apply (f_equal2 pair); [reflexivity | lia] |]
    | apply (f_equal2 app);
      [apply (f_equal2 stacked_from); [lia | reflexivity] |] ];
  first [ apply (eq_refl (@nil (R * Z)))
        | apply (f_equal2 stacked_from); [lia | reflexivity] ].

(** The trace of the overlay: bracketed by [save] and [restore], its text
    lines stacked from 14 on. *)
Lemma run_debugOverlay coords element dbg bbox origin
    (pointer : option Pointer.t) tm pt lt w :
  (forall kv, kv ∈ tm -> kv.2 <> []) ->
  exists w' mid,
    run (debugOverlay coords element dbg bbox origin pointer tm pt lt) w
    = (w', obs_ctx element ctx_save :: mid ++ [obs_ctx element ctx_restore],
       Returned tt) /\
    text_lines mid = stacked_from 14 (overlay_lines pointer (length tm) pt lt) /\
    Forall (plain_op element) mid.
Proof.
  intros Htm. unfold debugOverlay, overlay_lines.
  assert (Hloop := run_sources_loop element origin pointer tm Htm).
  destruct pointer as [p |]; run_cbn;
    rewrite run_bind;
    match goal with
    | |- context [run (for_of tm ?y ?b) ?w0] =>
        destruct (Hloop y w0) as (w' & obs & Hrun & Hlines & Hall);
        match type of Hrun with
        | _ = ?rhs => change (run (for_of tm y b) w0 = rhs) in Hrun
        end
    end;
    rewrite Hrun; run_cbn;
    destruct (bool_decide (8 < pt)%R); run_cbn;
    destruct (bool_decide (8 < lt)%R); run_cbn;
    (eexists _, _; split; [f_equal; f_equal; f_equal; snoc_split | split;
    [ repeat (rewrite text_lines_cons; cbn [text_at]);
      rewrite text_lines_app;
      repeat (rewrite text_lines_cons; cbn [text_at]);
      rewrite text_lines_nil, Hlines;
      rewrite !stacked_from_app, !stacked_from_cons, ?stacked_from_0;
      rewrite <- ?app_assoc, ?app_nil_r; cbn [app]; stacked_eq
    | repeat first
        [ apply Forall_nil_2
        | apply Forall_cons; split;
          [eexists; split; [reflexivity | split; discriminate] |]
        | apply Forall_app; split;
          [ eapply Forall_impl; [exact Hall |];
            intros o (t & x & y & ->);
            eexists; split; [reflexivity | split; discriminate] |] ] ]]).
Qed.

(** The paint stage, when the canvas gives a context. *)
Lemma run_paintTile_painted coords element done tm lt ld w :
  has2d_of element w = true ->
  (forall kv, kv ∈ tm -> kv.2 <> []) ->
  let this := World.this w in
  let ts := Layer.tileSize this in
  let inTile :=
    match Layer.pointer this with
    | Some p => if pointerInTile p (bbox_of coords) then Some p else None
    | None => None
    end in
  let args :=
    PaintArgs.mk (Coords.z coords) tm
      (if Layer.xray this then None else Some ld) (Layer.paintRules this)
      (bboxWithBuffer_of coords) (origin_of coords) false (Layer.debug this)
      ((fun p => Point.mk (Pointer.x p) (Pointer.y p)) <$> inTile) in
  exists w' overlay pt,
    run (paintTile coords element done tm lt ld) w
    = (w',
       [obs_width element ts; obs_height element ts; obs_getContext element;
        obs_ctx element (setTransform (ts / 256) 0 0 (ts / 256) 0 0);
        obs_ctx element (clearRect 0 0 256 256)]
       ++ (if truthy (Layer.backgroundColor this)
           then map (obs_ctx element)
                  [ctx_save;
                   fillStyle (default "" (Layer.backgroundColor this));
                   fillRect 0 0 256 256; ctx_restore]
           else [])
       ++ obs_paint element args :: overlay ++ [obs_done done],
       Returned tt) /\
    (truthy (Layer.debug this) = false -> overlay = []) /\
    (truthy (Layer.debug this) = true ->
     exists mid,
       overlay = obs_ctx element ctx_save :: mid
                 ++ [obs_ctx element ctx_restore] /\
       text_lines mid
       = stacked_from 14 (overlay_lines inTile (length tm) pt lt) /\
       Forall (plain_op element) mid).
Proof.
  intros Hyes Htm this ts inTile args. unfold paintTile. run_cbn.
  fold this. fold ts.
  set (w2 := World.update_element element (Element.set_height _) _).
  assert (H2 : has2d_of element w2 = has2d_of element w)
    by (unfold w2; rewrite !has2d_of_update; auto).
  unfold has2d_of at 1 in H2. rewrite H2, Hyes. cbn [negb]. run_cbn.
  rewrite run_bind. unfold when at 1.
  destruct (truthy (Layer.backgroundColor this)); run_cbn;
    fold inTile; fold args;
    match goal with
    | |- context [World.paint ?wb element args] =>
        destruct (World.paint wb element args) as [ms picked]
    end;
    rewrite run_bind; unfold when;
    (destruct (truthy (Layer.debug this));
     [ match goal with
       | |- context [run (debugOverlay ?c ?e ?d ?b ?o ?p ?t ?pt ?l) ?w0] =>
           destruct (run_debugOverlay c e d b o p t pt l w0 Htm)
             as (w' & mid & Hrun & Hlines & Hplain);
           rewrite Hrun
       end;
       run_cbn;
       refine (ex_intro _ _
                 (ex_intro _ (obs_ctx element ctx_save :: mid
                              ++ [obs_ctx element ctx_restore])
                    (ex_intro _ ms (conj eq_refl (conj _ _)))));
       [ intros; discriminate
       | intros _; exact (ex_intro _ mid (conj eq_refl (conj Hlines Hplain))) ]
     | run_cbn;
       refine (ex_intro _ _
                 (ex_intro _ [] (ex_intro _ ms (conj eq_refl (conj _ _)))));
       [ reflexivity | intros; discriminate ] ]).
Qed.


(** What follows the resumption after the delay, when the gate passes and
    the canvas gives a context. *)
Lemma renderTile_paint_stage coords element key done sched w w' obs out
    pre d wr post :
  exec sched (renderTile coords element key done) w = (w', obs, out) ->
  obs = pre ++ obs_resume (at_timer d) wr :: post ->
  ~ stale_in wr element key coords ->
  has2d_of element wr = true ->
  exists tm lt ld,
    run (paintTile coords element done tm lt ld) wr = (w', post, out) /\
    forall kv, kv ∈ tm -> kv.2 <> [].
Proof.
  intros Hex Hobs Hst Hyes.
  destruct (renderTile_resumed _ _ _ _ _ _ _ _ _ _ _ _ _ Hex Hobs)
    as (q & sched' & (tm & lt & ld & Htm & ->) & Hq).
  rewrite exec_afterTimer in Hq.
  apply stale_inb_false in Hst. rewrite Hst in Hq. eauto 6.
Qed.

(** X15.  The arguments of the paint are read off the layer as it is when
    [renderTile] is resumed after its delay: the paint rules and the debug
    colour of that moment; no label data exactly when [xray] is set; and
    the pointer, as the point of its local coordinates, exactly when
    there is one then and its global coordinates lie in the box of the
    tile, edges included.  There is one paint. *)
Theorem renderTile_paint_arguments coords element key done sched w w' obs out
    pre d wr post :
  exec sched (renderTile coords element key done) w = (w', obs, out) ->
  obs = pre ++ obs_resume (at_timer d) wr :: post ->
  ~ stale_in wr element key coords ->
  has2d_of element wr = true ->
  let this := World.this wr in
  exists before args after,
    post = before ++ obs_paint element args :: after /\
    Forall (fun o => ~ is_paint o) before /\
    Forall (fun o => ~ is_paint o) after /\
    PaintArgs.paintRules args = Layer.paintRules this /\
    PaintArgs.debug args = Layer.debug this /\
    PaintArgs.clip args = false /\
    (PaintArgs.labelData args = None <-> Layer.xray this = true) /\
    PaintArgs.pointer args
    = match Layer.pointer this with
      | Some p =>
          if pointerInTile p (bbox_of coords)
          then Some (Point.mk (Pointer.x p) (Pointer.y p))
          else None
      | None => None
      end.
Proof.
  intros Hex Hobs Hst Hyes this.
  destruct (renderTile_paint_stage _ _ _ _ _ _ _ _ _ _ _ _ _
              Hex Hobs Hst Hyes) as (tm & lt & ld & Hrun & Htm).
  destruct (run_paintTile_painted coords element done tm lt ld wr Hyes Htm)
    as (w1 & overlay & pt & Hrun' & Hoff & Hon).
  cbv zeta in Hrun'. fold this in Hrun', Hoff, Hon.
  rewrite Hrun in Hrun'. injection Hrun' as _ -> _.
  match goal with
  | |- context [?bg ++ obs_paint element ?a :: ?aft] =>
      refine (ex_intro _
                ([obs_width element (Layer.tileSize this);
                  obs_height element (Layer.tileSize this);
                  obs_getContext element;
                  obs_ctx element
                    (setTransform (Layer.tileSize this / 256) 0 0
                       (Layer.tileSize this / 256) 0 0);
                  obs_ctx element (clearRect 0 0 256 256)] ++ bg)
                (ex_intro _ a (ex_intro _ aft (conj eq_refl _))))
  end.
  split; [| split; [| split; [| split; [| split; [| split]]]]].
  - cbn [app]. repeat (apply Forall_cons; split; [simpl; tauto |]).
    destruct (truthy _);
      repeat (apply Forall_cons; split; [simpl; tauto |]); apply Forall_nil_2.
  - apply Forall_app. split; [| repeat constructor; simpl; tauto].
    destruct (truthy (Layer.debug this)) eqn:Hdbg.
    + destruct (Hon eq_refl) as (mid & -> & _ & Hplain).
      apply Forall_cons. split; [simpl; tauto |].
      apply Forall_app. split; [| repeat constructor; simpl; tauto].
      eapply Forall_impl; [exact Hplain |].
      intros o (op & -> & _). simpl. tauto.
    + rewrite (Hoff eq_refl). constructor.
  - reflexivity.
  - reflexivity.
  - reflexivity.
  - cbn [PaintArgs.labelData]. destruct (Layer.xray this);
      split; intros; [reflexivity | reflexivity | discriminate | discriminate].
  - cbn [PaintArgs.pointer].
    destruct (Layer.pointer this) as [p |]; [| reflexivity].
    destruct (pointerInTile p (bbox_of coords)); reflexivity.
Qed.


(** The render of the example, as an equation. *)
Lemma rendered_eq :
  exec [Example.undisturbed; Example.undisturbed; Example.undisturbed;
        Example.undisturbed]
    (renderTile Example.coords 0%nat "0:0:0" (done_showTile 7 0))
    (Sys.world (Example.shown true))
  = ((Example.rendered true).1.1, (Example.rendered true).1.2,
     (Example.rendered true).2).
Proof. exact (exec_result _ _ _). Qed.

Lemma rendered_resumed_after_delay :
  let obs := (Example.rendered true).1.2 in
  exists d wr,
    obs = take 12 obs ++ obs_resume (at_timer d) wr :: drop 13 obs /\
    ~ stale_in wr 0%nat "0:0:0" Example.coords /\
    has2d_of 0%nat wr = true.
Proof.
  intros obs.
  assert (H : resumed_after delay
                (fun wr => negb (stale_inb wr 0%nat "0:0:0" Example.coords)
                           && has2d_of 0%nat wr)
                12 obs = true) by (vm_compute; reflexivity).
  destruct (resumed_after_spec _ _ _ _ H) as (s & wr & Hs & Hf & Hobs).
  destruct s as [| | | d]; try discriminate Hs.
  apply andb_true_iff in Hf as [Hst Hyes].
  apply negb_true_iff, stale_inb_false in Hst.
  exact (ex_intro _ d (ex_intro _ wr (conj Hobs (conj Hst Hyes)))).
Qed.

Lemma renderTile_paint_arguments_witness :
  let obs := (Example.rendered true).1.2 in
  exists wr before args after,
    drop 13 obs = before ++ obs_paint 0%nat args :: after /\
    PaintArgs.paintRules args = Layer.paintRules (World.this wr) /\
    PaintArgs.clip args = false.
Proof.
  intros obs.
  destruct rendered_resumed_after_delay as (d & wr & Hobs & Hst & Hyes).
  destruct (renderTile_paint_arguments _ _ _ _ _ _ _ _ _ _ _ _ _
              rendered_eq Hobs Hst Hyes)
    as (before & args & after & Hpost & _ & _ & Hrules & _ & Hclip & _).
  exact (ex_intro _ wr (ex_intro _ before (ex_intro _ args (ex_intro _ after
           (conj Hpost (conj Hrules Hclip)))))).
Defined.


(** ** [queryTileFeaturesDebug] *)

Lemma query_fold_abrupt {V} (f : string * View -> option V) e views :
  foldl (fun acc kv =>
           match acc with
           | Normal m => match f kv with
                         | None => Abrupt "TypeError: this._map is undefined"
                         | Some v => Normal (JsMap.set kv.1 v m)
                         end
           | Abrupt error => Abrupt error
           end) (Abrupt e) views
  = Abrupt e.
Proof. induction views as [| kv views IH]; [reflexivity | exact IH]. Qed.

(** X17.  On a map, [queryTileFeaturesDebug] gives a map with one entry
    for every source, in the order of [views]: the features its view
    finds at the point, at the zoom of the map, with the brush given, or
    16 when none is given. *)
Theorem queryTileFeaturesDebug_on_map queryFeatures this lng lat brushSize
    _map :
  NoDup (JsMap.keys (Layer.views this)) ->
  Layer._map this = Some _map ->
  queryTileFeaturesDebug queryFeatures this lng lat brushSize
  = Normal (map (fun kv =>
                   (kv.1, queryFeatures kv.2 lng lat (HostMap.getZoom _map)
                            (default 16%R brushSize)))
                (Layer.views this)).
Proof.
  intros Hnd Hmap. unfold queryTileFeaturesDebug. rewrite Hmap.
  generalize (Layer.views this) Hnd. clear Hnd. intros views Hnd.
  set (q := fun v : View =>
              queryFeatures v lng lat (HostMap.getZoom _map)
                (default 16%R brushSize)).
  assert (H : forall acc,
            NoDup (JsMap.keys acc ++ JsMap.keys views) ->
            foldl (fun acc kv =>
                     match acc with
                     | Normal m => Normal (JsMap.set kv.1 (q kv.2) m)
                     | Abrupt error => Abrupt error
                     end) (Normal acc) views
            = Normal (acc ++ map (fun kv => (kv.1, q kv.2)) views)).
  { clear Hnd. induction views as [| [k v] views IH]; intros acc Hacc.
    - cbn. now rewrite app_nil_r.
    - cbn [foldl fst snd map]. rewrite JsMap_set_fresh.
      + rewrite IH.
        * now rewrite <- app_assoc.
        * unfold JsMap.keys in *. rewrite map_app. cbn [map fst].
          rewrite <- app_assoc. exact Hacc.
      + cbn [JsMap.keys map fst] in Hacc.
        apply NoDup_app in Hacc as (_ & Hdisj & _).
        intros Hin. apply (Hdisj k Hin). now left. }
  apply (H []). exact Hnd.
Qed.

Lemma queryTileFeaturesDebug_on_map_witness :
  queryTileFeaturesDebug (fun v _ _ _ _ => [PickedFeature.mk v "a"])
    (Sys.this (Example.on_map true)) 0 0 None
  = Normal [("roads", [PickedFeature.mk 1 "a"]);
            ("water", [PickedFeature.mk 2 "a"])].
Proof.
  assert (Hnd : NoDup (JsMap.keys
                         (Layer.views (Sys.this (Example.on_map true))))).
  { repeat constructor; rewrite ?elem_of_cons, ?elem_of_nil;
      intros H; intuition discriminate. }
  exact (queryTileFeaturesDebug_on_map
           (fun v _ _ _ _ => [PickedFeature.mk v "a"])
           (Sys.this (Example.on_map true)) 0 0 None Example.hostMap
           Hnd eq_refl).
Defined.

(** X18.  Off the map, [queryTileFeaturesDebug] throws when the layer has
    a source; with no source it returns an empty map, for the map is
    only looked at in the loop over the sources. *)
Theorem queryTileFeaturesDebug_off_map queryFeatures this lng lat brushSize :
  Layer._map this = None ->
  queryTileFeaturesDebug queryFeatures this lng lat brushSize
  = match Layer.views this with
    | [] => Normal []
    | _ :: _ => Abrupt "TypeError: this._map is undefined"
    end.
Proof.
  intros Hmap. unfold queryTileFeaturesDebug. rewrite Hmap.
  destruct (Layer.views this) as [| kv views]; [reflexivity |].
  cbn [foldl].
  exact (query_fold_abrupt (fun _ => @None (list PickedFeature.t)) _ views).
Qed.

Lemma queryTileFeaturesDebug_off_map_witness :
  queryTileFeaturesDebug (fun v _ _ _ _ => [])
    (Sys.this (Example.fresh true)) 0 0 None
  = Abrupt "TypeError: this._map is undefined".
Proof.
  exact (queryTileFeaturesDebug_off_map _ (Sys.this (Example.fresh true))
           0 0 None eq_refl).
Defined.

(** *** The further properties, at the example *)

Lemma removeTile_once_witness :
  _removeTile "1:0:0" (Sys.world (Example.shown true))
  = Sys.world (Example.shown true).
Proof.
  exact (proj1 (removeTile_once "1:0:0" (Sys.world (Example.shown true)))
           eq_refl).
Defined.

Lemma renderTile_suspends_in_order_witness :
  (Example.rendered true).2 = Returned tt.
Proof.
  refine (proj2 (renderTile_suspends_in_order Example.coords 0%nat "0:0:0"
                   (done_showTile 7 0)
                   [Example.undisturbed; Example.undisturbed;
                    Example.undisturbed; Example.undisturbed]
                   (Sys.world (Example.shown true))) _).
  simpl. lia.
Defined.

(** ** The readiness callback is called once *)

Lemma signals_app l1 l2 : signals (l1 ++ l2) = signals l1 ++ signals l2.
Proof. apply omap_app. Qed.

Lemma handle_signals {X} (e : Ev X) w :
  World.shown (handle e w).1.1
  = World.shown w ++ signals (handle e w).1.2 /\
  (match e with CallDone _ => False | _ => True end ->
   signals (handle e w).1.2 = []).
Proof.
  destruct e; cbn; rewrite ?app_nil_r; try (split; [reflexivity | auto]).
  - destruct (World.paint w el args) as [ms picked]. cbn.
    rewrite app_nil_r. auto.
  - destruct done; cbn; rewrite ?app_nil_r; split; tauto.
Qed.

(** What a run signals is what it adds to the calls of [showTile]. *)
Lemma run_signals {A} (p : Prog A) w :
  World.shown (run p w).1.1 = World.shown w ++ signals (run p w).1.2.
Proof.
  revert w. induction p as [a | X e k IH | X s k IH | msg]; intros w;
    cbn [run fst snd]; try (cbn; now rewrite app_nil_r).
  destruct (handle_signals e w) as [He _].
  destruct (handle e w) as [[w1 obs1] x]. cbn [fst snd] in He.
  specialize (IH x w1). destruct (run (k x) w1) as [[w2 obs2] out].
  cbn [fst snd] in *. rewrite IH, He, signals_app. now rewrite app_assoc.
Qed.

Lemma done_last_run {A} done (p : Prog A) w :
  done_last done p ->
  (signals (run p w).1.2 = [] \/
   (signals (run p w).1.2 = signal done /\
    exists a, (run p w).2 = Returned a)) /\
  match (run p w).2 with
  | Suspended s k =>
      signals (run p w).1.2 = [] /\ forall x, done_last done (k x)
  | _ => True
  end.
Proof.
  revert w. induction p as [a | X e k IH | X s k IH | msg]; intros w Hd;
    cbn [run fst snd].
  - split; [left; reflexivity | exact I].
  - pose proof (handle_signals e w) as [_ Hq].
    destruct e;
      try (destruct (handle _ w) as [[w1 obs1] x] eqn:Hh;
           cbn [fst snd] in Hq;
           specialize (IH x w1 (Hd x));
           destruct (run (k x) w1) as [[w2 obs2] out];
           cbn [fst snd] in *; rewrite signals_app, (Hq I);
           exact IH).
    destruct Hd as [-> Hk]. cbn [handle].
    destruct (Hk tt) as [a ->]. cbn [run fst snd].
    split; [| exact I]. right. split; [| eauto].
    destruct done; reflexivity.
  - split; [left; reflexivity |]. split; [reflexivity | exact Hd].
  - split; [left; reflexivity | exact I].
Qed.

Lemma done_last_bind done {A B} (p : Prog A) (f : A -> Prog B) :
  quiet p -> (forall a, done_last done (f a)) -> done_last done (bind p f).
Proof.
  induction p as [a | X e k IH | X s k IH | msg]; cbn [bind quiet done_last];
    auto.
  intros [He Hk] Hf. destruct e; try contradiction; intros x;
    apply IH; auto.
Qed.

Lemma quiet_bind {A B} (p : Prog A) (f : A -> Prog B) :
  quiet p -> (forall a, quiet (f a)) -> quiet (bind p f).
Proof.
  induction p as [a | X e k IH | X s k IH | msg]; cbn [bind quiet]; auto.
  intros [He Hk] Hf. split; auto.
Qed.

Lemma quiet_for_of {A S} (xs : list A) (acc : S) (body : S -> A -> Prog S) :
  (forall acc x, quiet (body acc x)) -> quiet (for_of xs acc body).
Proof.
  intros Hb. revert acc. induction xs as [| x xs IH]; intros acc.
  - exact I.
  - cbn [for_of]. apply quiet_bind; auto.
Qed.

Lemma draws_only_quiet el {A} (p : Prog A) : draws_only el p -> quiet p.
Proof.
  induction p as [a | X e k IH | X s k IH | msg]; cbn; auto.
  - intros [He Hk]. split; [destruct e; auto; contradiction | auto].
  - intros [].
Qed.

Ltac quiet_step :=
  match goal with
  | |- quiet (bind _ _) => apply quiet_bind; [| intros ?]
  | |- quiet (mbind _ _) => apply quiet_bind; [| intros ?]
  | |- quiet (for_of _ _ _) => apply quiet_for_of; intros ? ?
  | |- quiet (trigger _) => cbn; auto
  | |- quiet (await _) => cbn; auto
  | |- quiet (Ret _) => exact I
  | |- quiet (Throw _) => exact I
  | |- quiet (when ?c _) => unfold when; destruct c
  | |- quiet (if ?c then _ else _) => destruct c
  | |- quiet (match ?c with _ => _ end) => destruct c
  end.

Lemma quiet_stale element key coords : quiet (stale element key coords).
Proof. unfold stale. repeat quiet_step. Qed.

Ltac done_last_step :=
  match goal with
  | |- done_last _ (bind _ _) => apply done_last_bind; [| intros ?]
  | |- done_last _ (mbind _ _) => apply done_last_bind; [| intros ?]
  | |- done_last _ (Ret _) => exact I
  | |- done_last _ (if ?c then _ else _) => destruct c
  | |- done_last _ (match ?c with _ => _ end) => destruct c
  end.

Lemma done_last_paintTile coords element done tm lt ld :
  done_last done (paintTile coords element done tm lt ld).
Proof.
  unfold paintTile.
  repeat first
    [ done_last_step
    | quiet_step
    | apply (draws_only_quiet element), draws_only_debugOverlay ].
  all: cbn; eauto.
Qed.

Lemma done_last_gate done element key coords (rest : Prog unit) :
  done_last done rest ->
  done_last done
    (s ← stale element key coords; if s : bool then Ret tt else rest).
Proof.
  intros Hr. apply done_last_bind; [apply quiet_stale |].
  intros []; [exact I | exact Hr].
Qed.

Lemma done_last_afterTimer coords element key done tm lt ld :
  done_last done (renderTile_afterTimer coords element key done tm lt ld).
Proof. apply done_last_gate, done_last_paintTile. Qed.

Lemma done_last_afterAdd coords element key done tm lt :
  done_last done (renderTile_afterAdd coords element key done tm lt).
Proof.
  apply done_last_gate. cbn [done_last bind mbind Prog_bind trigger await].
  intros ld this. destruct (Layer._map this);
    cbn [done_last bind mbind Prog_bind trigger await]; auto.
  intros []. apply done_last_afterTimer.
Qed.

Lemma done_last_afterTasks coords element key done tm :
  done_last done (renderTile_afterTasks coords element key done tm).
Proof.
  apply done_last_gate. cbn [done_last bind mbind Prog_bind trigger await].
  intros lt. apply done_last_afterAdd.
Qed.

Lemma done_last_afterFetch coords element key done promises settled :
  done_last done
    (renderTile_afterFetch coords element key done promises settled).
Proof.
  unfold renderTile_afterFetch. apply done_last_bind.
  { apply quiet_for_of. intros acc []; cbn; auto.
    destruct (decide _); cbn; auto. }
  intros tm. apply done_last_gate.
  cbn [done_last bind mbind Prog_bind trigger await].
  intros this []. apply done_last_afterTasks.
Qed.

(** *** The invariant *)

Lemma distinct_perm n l l' : l ≡ₚ l' -> distinct n l -> distinct n l'.
Proof.
  intros Hp [Hnd Hall]. split.
  - now rewrite <- Hp.
  - now rewrite <- Hp.
Qed.

Lemma distinct_app_l n l k : distinct n (l ++ k) -> distinct n l.
Proof.
  unfold distinct. rewrite fmap_app, NoDup_app, Forall_app. tauto.
Qed.

Lemma distinct_mono n n' l : (n <= n')%nat -> distinct n l -> distinct n' l.
Proof.
  intros Hn [Hnd Hall]. split; [exact Hnd |].
  eapply Forall_impl; [exact Hall |]. intros el Hel. cbn in *. lia.
Qed.

Lemma distinct_snoc_fresh n l f :
  distinct n l -> distinct (S n) (l ++ [(f, n)]).
Proof.
  intros [Hnd Hall]. unfold distinct.
  rewrite fmap_app, NoDup_app, Forall_app. cbn [fmap list_fmap snd].
  repeat split.
  - exact Hnd.
  - intros el Hel Hin. apply list_elem_of_singleton in Hin as ->.
    rewrite Forall_forall in Hall. specialize (Hall _ Hel). lia.
  - apply NoDup_singleton.
  - eapply Forall_impl; [exact Hall |]. intros el Hel. cbn in *. lia.
  - repeat constructor.
Qed.

Lemma owed_app p1 p2 : owed (p1 ++ p2) = owed p1 ++ owed p2.
Proof. unfold owed. apply flat_map_app. Qed.

Lemma owed_snoc p inv :
  owed (p ++ [inv]) = owed p ++ signal (Invocation.done inv).
Proof. rewrite owed_app. cbn. now rewrite app_nil_r. Qed.

(** A change that keeps the pending invocations and the signals, and does
    not shrink the document. *)
Lemma once_same extra s s' :
  Sys.pending s' = Sys.pending s ->
  World.shown (Sys.world s') = World.shown (Sys.world s) ->
  (length (World.dom (Sys.world s)) <= length (World.dom (Sys.world s')))%nat ->
  once_with extra s -> once_with extra s'.
Proof.
  intros Hp Hs Hd [H1 H2]. unfold once_with. rewrite Hp, Hs.
  split; [exact H1 | exact (distinct_mono _ _ _ Hd H2)].
Qed.

Lemma once_call_default extra coords element key s :
  once_with extra s ->
  once_with extra (call_renderTile coords element key done_default s).
Proof.
  intros [H1 H2]. rewrite call_renderTile_eq. unfold once_with.
  cbn [Sys.pending Sys.world World.shown World.dom World.set_this].
  split.
  - apply Forall_app. split; [exact H1 |].
    apply Forall_cons. split; [| apply Forall_nil_2].
    intros x. apply done_last_afterFetch.
  - rewrite owed_snoc. cbn [signal Invocation.done].
    rewrite app_nil_r. exact H2.
Qed.

Lemma once_foldl {A} extra (f : Sys.t -> A -> Sys.t) (xs : list A) s :
  (forall s x, once_with extra s -> once_with extra (f s x)) ->
  once_with extra s -> once_with extra (foldl f s xs).
Proof.
  intros Hf. revert s. induction xs as [| x xs IH]; intros s Hs; cbn.
  - exact Hs.
  - apply IH, Hf, Hs.
Qed.

Lemma once_rerenderTile extra key s :
  once_with extra s -> once_with extra (rerenderTile key s).
Proof.
  unfold rerenderTile. apply once_foldl. intros s' kv Hs'.
  destruct (decide _); [now apply once_call_default | exact Hs'].
Qed.

Lemma once_rerenderTiles extra s :
  once_with extra s -> once_with extra (rerenderTiles s).
Proof.
  unfold rerenderTiles. apply once_foldl. intros s' kv Hs'.
  now apply once_call_default.
Qed.

Lemma once_onTilesInvalidated extra tiles s :
  once_with extra s -> once_with extra (onTilesInvalidated tiles s).
Proof.
  unfold onTilesInvalidated. apply once_foldl. intros s' t.
  apply once_rerenderTile.
Qed.

Lemma once_removeTile extra key s :
  once_with extra s -> once_with extra (Sys.on_world (_removeTile key) s).
Proof.
  apply once_same; [reflexivity | |].
  - cbn. unfold _removeTile. destruct (JsMap.get key _); reflexivity.
  - cbn. destruct (removeTile_light key (Sys.world s)) as (_ & _ & _ & _ & Hl).
    rewrite Hl. lia.
Qed.

Lemma once_createTile coords showTile s :
  signals_once s -> signals_once (createTile coords showTile s).2.
Proof.
  intros [H1 H2]. unfold createTile, create_canvas. cbn [fst snd].
  rewrite call_renderTile_eq. unfold signals_once, once_with.
  cbn [Sys.pending Sys.world Sys.set_world World.shown World.dom
       World.set_this World.set_dom World.update_element].
  split.
  - apply Forall_app. split; [exact H1 |].
    apply Forall_cons. split; [| apply Forall_nil_2].
    intros x. apply done_last_afterFetch.
  - rewrite !length_alter, length_app. cbn [length].
    rewrite Nat.add_1_r, owed_snoc, !app_nil_r in *.
    cbn [signal Invocation.done].
    rewrite app_assoc. now apply distinct_snoc_fresh.
Qed.

Lemma once_addTile coords showTile s :
  signals_once s -> signals_once (_addTile coords showTile s).
Proof.
  intros Hs. unfold _addTile.
  pose proof (once_createTile
                (GridLayer._wrapCoords (Layer.super (Sys.this s)) coords)
                showTile s Hs) as H.
  destruct (createTile _ showTile s) as [tile s1]. cbn [snd] in H.
  revert H. apply once_same; reflexivity.
Qed.

Lemma once_redraw visible s :
  signals_once s -> signals_once (redraw visible s).
Proof.
  intros Hs. unfold redraw.
  destruct (Layer._map (Sys.this s)); [| exact Hs].
  unfold signals_once. apply once_foldl.
  { intros s' cv. apply once_addTile. }
  revert Hs. apply once_same; [reflexivity | |]; cbn.
  - generalize (JsMap.keys (Layer._tiles (World.this (Sys.world s)))).
    intros ks. generalize (Sys.world s). induction ks as [| k ks IH];
      intros w; [reflexivity |].
    cbn [foldl]. rewrite IH. unfold _removeTile.
    destruct (JsMap.get k _); reflexivity.
  - destruct (removeAll_light
                (JsMap.keys (Layer._tiles (World.this (Sys.world s))))
                (Sys.world s)) as (_ & _ & _ & _ & Hl).
    cbv zeta in Hl. rewrite Hl. lia.
Qed.

Lemma once_click event visible s :
  signals_once s -> signals_once (_onLayerClick event visible s).
Proof.
  intros Hs. unfold _onLayerClick.
  destruct (Layer._map (Sys.this s)); [| exact Hs].
  change (signals_once
            (redraw visible
               (Sys.on_world
                  (fun w => World.set_this
                     (Layer.set_pickedFeatures (Some [])
                        (Layer.set_pointer
                           (Some (_getPointer (Layer.tileSize (World.this w))
                                    (HostMap.getZoom t) event))
                           (World.this w))) w) s))).
  apply once_redraw. revert Hs. apply once_same; reflexivity.
Qed.

Lemma once_pickTimeout extra event s :
  once_with extra s -> once_with extra (Sys.on_world (pickTimeout event) s).
Proof.
  apply once_same; [reflexivity | |]; cbn; unfold pickTimeout;
    destruct (Layer.pickedFeatures _) as [[| p l] |]; reflexivity.
Qed.

(** An invocation goes on: what it signals is its callback's, which is
    then no longer owed. *)
Lemma once_advance coords element key done a (q : Prog unit) s :
  done_last done q ->
  once_with (signal done) s ->
  signals_once (advance coords element key done a q s).
Proof.
  intros Hq [H1 H2]. unfold advance.
  pose proof (run_signals q (Sys.world s)) as Hsig.
  pose proof (done_last_run done q (Sys.world s) Hq) as [Hcases Hsusp].
  destruct (run_preserved q (Sys.world s)) as (_ & Hlen & _).
  destruct (run q (Sys.world s)) as [[w1 obs1] out]. cbn [fst snd] in *.
  assert (Hdone : forall s', Sys.pending s' = Sys.pending s ->
            Sys.world s' = w1 ->
            (signals obs1 = [] \/ signals obs1 = signal done) ->
            signals_once s').
  { intros s' Hp Hw Hc. unfold signals_once, once_with.
    rewrite Hp, Hw, Hsig, Hlen, app_nil_r. split; [exact H1 |].
    destruct Hc as [-> | ->].
    - rewrite app_nil_r. rewrite app_assoc in H2.
      exact (distinct_app_l _ _ _ H2).
    - eapply distinct_perm; [| exact H2].
      rewrite <- !app_assoc. apply Permutation_app_head, Permutation_app_comm. }
  destruct out as [r | m | X on k].
  - apply Hdone; [reflexivity | reflexivity | tauto].
  - apply Hdone; [reflexivity | reflexivity | tauto].
  - destruct Hsusp as [Hnil Hk].
    assert (Hsettle : forall s',
              once_with (signal done) s' ->
              forall Y (on' : Susp Y) (k' : Y -> Prog unit),
                (forall y, done_last done (k' y)) ->
                signals_once
                  (settle coords element key done (Suspended on' k') s')).
    { intros s' [G1 G2] Y on' k' Hk'. unfold signals_once, once_with.
      cbn [settle Sys.pending Sys.world Sys.set_pending].
      rewrite owed_snoc, app_nil_r. cbn [Invocation.done]. split; [| exact G2].
      apply Forall_app. split; [exact G1 |].
      apply Forall_cons. split; [exact Hk' | apply Forall_nil_2]. }
    assert (Hs1 : once_with (signal done) (Sys.set_world w1 s)).
    { split; [exact H1 |]. cbn [Sys.world Sys.pending Sys.set_world].
      rewrite Hsig, Hnil, app_nil_r, Hlen. exact H2. }
    destruct on as [ps | ts | z tm | d];
      try (apply Hsettle; [exact Hs1 | exact Hk]).
    apply (once_onTilesInvalidated _ (Answers.invalidated a)) in Hs1.
    set (s1 := onTilesInvalidated (Answers.invalidated a) (Sys.set_world w1 s))
      in *.
    pose proof (run_signals (k (Answers.layoutTime a)) (Sys.world s1))
      as Hsig2.
    pose proof (done_last_run done _ (Sys.world s1)
                  (Hk (Answers.layoutTime a))) as [Hcases2 Hsusp2].
    destruct (run_preserved (k (Answers.layoutTime a)) (Sys.world s1))
      as (_ & Hlen2 & _).
    destruct (run (k (Answers.layoutTime a)) (Sys.world s1))
      as [[w2 obs2] out2]. cbn [fst snd] in *.
    destruct Hs1 as [G1 G2].
    destruct out2 as [r | m | Y on' k'].
    + unfold signals_once, once_with.
      cbn [settle Sys.pending Sys.world Sys.set_world].
      rewrite Hsig2, Hlen2, app_nil_r. split; [exact G1 |].
      destruct Hcases2 as [-> | [-> _]].
      * rewrite app_nil_r. rewrite app_assoc in G2.
        exact (distinct_app_l _ _ _ G2).
      * eapply distinct_perm; [| exact G2].
        rewrite <- !app_assoc.
        apply Permutation_app_head, Permutation_app_comm.
    + unfold signals_once, once_with.
      cbn [settle Sys.pending Sys.world Sys.set_world].
      rewrite Hsig2, Hlen2, app_nil_r. split; [exact G1 |].
      destruct Hcases2 as [-> | [-> _]].
      * rewrite app_nil_r. rewrite app_assoc in G2.
        exact (distinct_app_l _ _ _ G2).
      * eapply distinct_perm; [| exact G2].
        rewrite <- !app_assoc.
        apply Permutation_app_head, Permutation_app_comm.
    + destruct Hsusp2 as [Hnil2 Hk2].
      apply Hsettle; [| exact Hk2].
      split; [exact G1 |]. cbn [Sys.world Sys.pending Sys.set_world].
      rewrite Hsig2, Hnil2, app_nil_r, Hlen2. exact G2.
Qed.

Lemma once_step a s : signals_once s -> signals_once (step a s).
Proof.
  intros Hs.
  destruct a as [coords showTile | key | m | key | | event visible | i | i a
                 | dt]; cbn [step].
  - now apply once_addTile.
  - now apply once_removeTile.
  - revert Hs. apply once_same; reflexivity.
  - now apply once_rerenderTile.
  - now apply once_rerenderTiles.
  - now apply once_click.
  - destruct (Sys.timeouts s !! i) as [t |]; [| exact Hs].
    destruct (bool_decide _); [| exact Hs].
    apply once_pickTimeout. exact Hs.
  - destruct (Sys.pending s !! i) as [inv |] eqn:Hi; [| exact Hs].
    destruct (ready inv (Sys.now s)); [| exact Hs].
    destruct Hs as [H1 H2].
    pose proof (delete_Permutation _ _ _ Hi) as Hperm.
    apply once_advance.
    + exact (Forall_lookup_1 _ _ _ _ H1 Hi _).
    + split; cbn [Sys.pending Sys.world Sys.set_pending].
      * now apply Forall_delete.
      * eapply distinct_perm; [| exact H2].
        rewrite app_nil_r. apply Permutation_app_head.
        unfold owed. rewrite (Permutation_flat_map _ Hperm). cbn [flat_map].
        apply Permutation_app_comm.
  - destruct (bool_decide _); exact Hs.
Qed.

Lemma once_steps acts s : signals_once s -> signals_once (steps acts s).
Proof.
  unfold steps. revert s. induction acts as [| a acts IH]; intros s Hs;
    [exact Hs |].
  cbn [foldl]. apply IH, once_step, Hs.
Qed.

(** X19.  In a layer that starts with no render pending and no tile
    signalled, whatever the host, the clicks, the timeouts and the
    scheduler do, [showTile] is called at most once for an element: the
    elements of the calls are pairwise distinct. *)
Theorem showTile_at_most_once sInit acts :
  Sys.pending sInit = [] ->
  World.shown (Sys.world sInit) = [] ->
  NoDup (World.shown (Sys.world (steps acts sInit))).*2.
Proof.
  intros Hp Hs.
  assert (H0 : signals_once sInit).
  { unfold signals_once, once_with, distinct. rewrite Hp, Hs. cbn.
    repeat split; constructor. }
  destruct (once_steps acts sInit H0) as [_ [Hnd _]].
  rewrite app_nil_r, fmap_app, NoDup_app in Hnd. tauto.
Qed.

Lemma showTile_at_most_once_witness :
  NoDup (World.shown
           (Sys.world
              (steps [host_setMap (Some Example.hostMap);
                      host_addTile Example.coords 7%nat;
                      resumes 0 Example.answers; resumes 0 Example.answers;
                      resumes 0 Example.answers; elapses 100;
                      resumes 0 Example.answers;
                      click Example.click1 [(Example.coords, 8%nat)]]
                 (Example.fresh true)))).*2.
Proof.
  exact (showTile_at_most_once (Example.fresh true) _ eq_refl eq_refl).
Defined.

(** ** [createTile] *)

